(** * The perf event reader of cilium/ebpf (vendor/github.com/cilium/ebpf/perf/reader.go)

    A shallow embedding of the record decoder ([readRecord], [readLostRecords],
    [readRawSample]) and of the [Reader] (construction, [Read], [Pause], [Resume],
    [Close]) with the operating system made explicit as a [World] value that is
    threaded through every call. *)

From Stdlib Require Import ZArith List String Lia Bool.
From coqutil Require Import Byte Word.LittleEndianList.
From stdpp Require Import gmap list strings pretty.

Local Open Scope string_scope.
Local Open Scope list_scope.
Local Open Scope Z_scope.

(** ** Errors

    Go's [error] values that the package creates or passes on.  [errClosed] and
    [errEOR] are the two package-level sentinels (compared by identity in the
    source, hence constructors of their own); [errors_New] is any other value made
    by [errors.New]; [Wrapped] is what [errors.Wrap] and [errors.Wrapf] build. *)
Inductive error : Type :=
| errClosed
| errEOR
| errors_New (msg : string)
| io_EOF
| io_ErrUnexpectedEOF
| Errno (e : Z)
| unknownEventError (eventType : Z)
| Wrapped (cause : error) (msg : string).

(** [errors.Wrap]: nil stays nil, anything else gets the message on top. *)
Definition errors_Wrap (err : option error) (msg : string) : option error :=
  match err with
  | None => None
  | Some e => Some (Wrapped e msg)
  end.

(** [errors.Cause]: strips every layer that has a cause. *)
Fixpoint Cause (err : error) : error :=
  match err with
  | Wrapped cause _ => Cause cause
  | _ => err
  end.

Definition IsClosed (err : option error) : bool :=
  match err with
  | Some e => match Cause e with errClosed => true | _ => false end
  | None => false
  end.

Definition IsUnknownEvent (err : option error) : bool :=
  match err with
  | Some e => match Cause e with unknownEventError _ => true | _ => false end
  | None => false
  end.

(** [syscall.Errno.Temporary]: EINTR, EMFILE, ENFILE and the timeouts
    EAGAIN (= EWOULDBLOCK) and ETIMEDOUT. *)
Definition EINTR := 4.
Definition EAGAIN := 11.
Definition ENFILE := 23.
Definition EMFILE := 24.
Definition ETIMEDOUT := 110.
Definition ENOENT := 2.

Definition Errno_Temporary (e : Z) : bool :=
  (e =? EINTR) || (e =? EMFILE) || (e =? ENFILE) || (e =? EAGAIN) || (e =? ETIMEDOUT).

(** [temp, ok := err.(temporaryError); ok && temp.Temporary()]: of the error
    values above only [syscall.Errno] has a [Temporary] method. *)
Definition isTemporary (err : option error) : bool :=
  match err with
  | Some (Errno e) => Errno_Temporary e
  | _ => false
  end.

(** ** Byte order and the host *)
Inductive ByteOrder := LittleEndian | BigEndian.

Definition order_Uint (o : ByteOrder) (b : list byte) : Z :=
  match o with
  | LittleEndian => le_combine b
  | BigEndian => le_combine (rev b)
  end.

Definition order_PutUint (o : ByteOrder) (width : nat) (v : Z) : list byte :=
  match o with
  | LittleEndian => le_split width v
  | BigEndian => rev (le_split width v)
  end.

(** [internal.NativeEndian] is fixed per build target; the development is
    parametric in it. *)
Class Host := { NativeEndian : ByteOrder }.

(** ** io.Reader over in-memory data

    A reader is given by the bytes it still has to deliver and by how it moves on
    when some are taken.  A byte slice and a perf ring are the two instances. *)
Class io_Reader (R : Type) := {
  unread : R -> list byte;
  consume : nat -> R -> R;
  unread_consume : forall n r, unread (consume n r) = drop n (unread r)
}.

#[export] Instance bytes_Reader : io_Reader (list byte) :=
  {| unread := fun b => b;
     consume := fun n b => drop n b;
     unread_consume := fun n b => eq_refl |}.

(** [io.ReadFull(rd, buf)]: fills [buf] from the front.  Nothing is asked of the
    reader for an empty [buf]; [io.EOF] only if no byte at all could be read,
    [io.ErrUnexpectedEOF] if some but not all. *)
Definition io_ReadFull {R} `{io_Reader R} (rd : R) (buf : list byte)
  : R * (list byte * option error) :=
  let n := length buf in
  let got := take n (unread rd) in
  let rd' := consume (length got) rd in
  let buf' := got ++ drop (length got) buf in
  if (n =? 0)%nat then (rd, (buf, None))
  else if (length got =? 0)%nat then (rd', (buf', Some io_EOF))
  else if (length got <? n)%nat then (rd', (buf', Some io_ErrUnexpectedEOF))
  else (rd', (buf', None)).

(** Fixed-size data that [binary.Read] can fill: its encoded size and how the
    bytes are decoded under a byte order. *)
Class Binary (T : Type) := {
  binary_Size : nat;
  binary_decode : ByteOrder -> list byte -> T
}.

(** [binary.Read(rd, order, &data)]: on an error [data] keeps its value. *)
Definition binary_Read {R T} `{io_Reader R} `{Binary T}
  (rd : R) (order : ByteOrder) (data : T) : R * (T * option error) :=
  let '(rd', (bs, err)) := io_ReadFull rd (repeat Byte.x00 binary_Size) in
  match err with
  | Some e => (rd', (data, Some e))
  | None => (rd', (binary_decode order bs, None))
  end.

(** perfEventHeader must match 'struct perf_event_header' in <linux/perf_event.h>. *)
Record perfEventHeader := { Type_ : Z; Misc : Z; Size : Z }.

#[export] Instance perfEventHeader_Binary : Binary perfEventHeader :=
  {| binary_Size := 8;
     binary_decode := fun o b =>
       {| Type_ := order_Uint o (take 4 b);
          Misc := order_Uint o (take 2 (drop 4 b));
          Size := order_Uint o (take 2 (drop 6 b)) |} |}.

(** lostHeader must match 'struct perf_event_lost' in kernel sources. *)
Record lostHeader := { ID : Z; Lost : Z }.

#[export] Instance lostHeader_Binary : Binary lostHeader :=
  {| binary_Size := 16;
     binary_decode := fun o b =>
       {| ID := order_Uint o (take 8 b); Lost := order_Uint o (take 8 (drop 8 b)) |} |}.

Record uint32 := { u32 : Z }.

#[export] Instance uint32_Binary : Binary uint32 :=
  {| binary_Size := 4; binary_decode := fun o b => {| u32 := order_Uint o (take 4 b) |} |}.

(** Record contains either a sample or a counter of the number of lost samples. *)
Record Record_ := { CPU : Z; RawSample : list byte; LostSamples : Z }.

(** [Record{}] *)
Definition Record_zero : Record_ := {| CPU := 0; RawSample := []; LostSamples := 0 |}.

Definition perfRecordLost := 2.
Definition perfRecordSample := 9.

Section Decoder.
Context {host : Host}.
Context {R : Type} {reader : io_Reader R}.

Definition readLostRecords (rd : R) : R * (Z * option error) :=
  let '(rd, (lostHeader, err)) :=
    binary_Read rd NativeEndian {| ID := 0; Lost := 0 |} in
  match err with
  | Some _ => (rd, (0, errors_Wrap err "can't read lost records header"))
  | None => (rd, (Lost lostHeader, None))
  end.

Definition readRawSample (rd : R) : R * (list byte * option error) :=
  let '(rd, (size, err)) := binary_Read rd NativeEndian {| u32 := 0 |} in
  match err with
  | Some _ => (rd, ([], errors_Wrap err "can't read sample size"))
  | None =>
      let data := repeat Byte.x00 (Z.to_nat (u32 size)) in
      let '(rd, (data, err)) := io_ReadFull rd data in
      (rd, (data, errors_Wrap err "can't read sample"))
  end.

Definition readRecord (rd : R) (cpu : Z) : R * (Record_ * option error) :=
  let '(rd, (header, err)) :=
    binary_Read rd NativeEndian {| Type_ := 0; Misc := 0; Size := 0 |} in
  match err with
  | Some io_EOF => (rd, (Record_zero, Some errEOR))
  | Some _ => (rd, (Record_zero, errors_Wrap err "can't read event header"))
  | None =>
      if Type_ header =? perfRecordLost then
        let '(rd, (lost, err)) := readLostRecords rd in
        (rd, ({| CPU := cpu; RawSample := []; LostSamples := lost |}, err))
      else if Type_ header =? perfRecordSample then
        let '(rd, (sample, err)) := readRawSample rd in
        (rd, ({| CPU := cpu; RawSample := sample; LostSamples := 0 |}, err))
      else
        (rd, (Record_zero, Some (unknownEventError (Type_ header))))
  end.
End Decoder.

(** ** The perf ring *)
Module ring.
(** Modelled from the spec: ring.go (the perfEventRing type with loadHead,
    writeTail, Read and Close) is not among the sources.  Section 3 gives a ring
    its CPU index, descriptor, mapped region and head and tail cursors.  [stream]
    stands for the mapped region: every byte the kernel has written for this CPU,
    so that the cursors are positions in it; [data_tail] is the tail as
    published to the kernel. *)
Record t := {
  cpu : Z;
  fd : Z;
  stream : list byte;
  head : nat;
  tail : nat;
  data_tail : nat;
  closed : bool
}.

(** Modelled from the spec: [load_head] snapshots the current producer cursor. *)
Definition loadHead (r : t) : t :=
  {| cpu := cpu r; fd := fd r; stream := stream r; head := length (stream r);
     tail := tail r; data_tail := data_tail r; closed := closed r |}.

(** Modelled from the spec: [commit_tail] publishes the advanced tail. *)
Definition writeTail (r : t) : t :=
  {| cpu := cpu r; fd := fd r; stream := stream r; head := head r;
     tail := tail r; data_tail := tail r; closed := closed r |}.

(** Modelled from the spec: reading moves the tail on by what was read. *)
Definition advance (n : nat) (r : t) : t :=
  {| cpu := cpu r; fd := fd r; stream := stream r; head := head r;
     tail := (tail r + n)%nat; data_tail := data_tail r; closed := closed r |}.

(** Modelled from the spec: [close] unmaps the region and closes the descriptor. *)
Definition Close (r : t) : t :=
  {| cpu := cpu r; fd := fd r; stream := stream r; head := head r;
     tail := tail r; data_tail := data_tail r; closed := true |}.

(** Modelled from the spec: [next_record] decodes from the current tail,
    relative to the snapshotted head; these are the bytes in between. *)
Definition window (r : t) : list byte :=
  take (head r - tail r)%nat (drop (tail r) (stream r)).

Lemma window_advance n r : window (advance n r) = drop n (window r).
Proof.
  unfold window, advance; simpl.
  rewrite skipn_firstn_comm, drop_drop. f_equal. lia.
Qed.
End ring.

Abbreviation perfEventRing := ring.t (only parsing).

(** Modelled from the spec: the ring as the [io.Reader] that [readRecord] is
    given by [readRecordFromRing]. *)
#[export] Instance ring_Reader : io_Reader ring.t :=
  {| unread := ring.window;
     consume := ring.advance;
     unread_consume := ring.window_advance |}.

(** ** The operating system

    Everything outside the process: the routing table (the perf event array), the
    ring objects shared with the kernel, the descriptors handed out so far, a log
    of the calls made, and what the fallible calls to come will answer. *)
Record EpollEvent := { Events : Z; Fd : Z; Pad : Z }.

Definition EPOLLIN := 1.

Inductive Effect :=
| sys_epoll_create1 (fd : Z)
| sys_epoll_ctl_add (epfd fd : Z) (event : EpollEvent)
| sys_eventfd (fd : Z)
| sys_write (fd : Z) (data : list byte)
| sys_close (fd : Z)
| sys_epoll_wait (epfd : Z)
| ring_open (addr : nat)
| ring_close (addr : nat)
| map_put (key value : Z)
| map_delete (key : Z)
| map_clone (fd : Z)
| map_close (fd : Z).

(** What a call to [unix.EpollWait] comes back with: an errno, or the ready
    descriptors. *)
Inductive WaitResult :=
| wait_err (errno : Z)
| wait_ready (events : list EpollEvent).

Record World := {
  trace : list Effect;
  table : gmap Z Z;
  mem : list ring.t;
  next_fd : Z;
  faults : list (option error);
  waits : list WaitResult
}.

Definition emit (e : Effect) (w : World) : World :=
  {| trace := trace w ++ [e]; table := table w; mem := mem w;
     next_fd := next_fd w; faults := faults w; waits := waits w |}.

Definition set_table (t : gmap Z Z) (w : World) : World :=
  {| trace := trace w; table := t; mem := mem w;
     next_fd := next_fd w; faults := faults w; waits := waits w |}.

Definition set_mem (m : list ring.t) (w : World) : World :=
  {| trace := trace w; table := table w; mem := m;
     next_fd := next_fd w; faults := faults w; waits := waits w |}.

Definition with_faults (fs : list (option error)) (w : World) : World :=
  {| trace := trace w; table := table w; mem := mem w;
     next_fd := next_fd w; faults := fs; waits := waits w |}.

Definition with_waits (ws : list WaitResult) (w : World) : World :=
  {| trace := trace w; table := table w; mem := mem w;
     next_fd := next_fd w; faults := faults w; waits := ws |}.

(** The answer to the next fallible call: the head of [faults], success once the
    list is used up. *)
Definition next_fault (w : World) : World * option error :=
  match faults w with
  | [] => (w, None)
  | f :: fs => (with_faults fs w, f)
  end.

Definition fresh_fd (w : World) : World * Z :=
  ({| trace := trace w; table := table w; mem := mem w;
      next_fd := next_fd w + 1; faults := faults w; waits := waits w |}, next_fd w).

Definition unix_EpollCreate1 (w : World) : World * (Z * option error) :=
  let '(w, f) := next_fault w in
  match f with
  | Some e => (w, (-1, Some e))
  | None => let '(w, fd) := fresh_fd w in (emit (sys_epoll_create1 fd) w, (fd, None))
  end.

Definition unix_Eventfd (w : World) : World * (Z * option error) :=
  let '(w, f) := next_fault w in
  match f with
  | Some e => (w, (-1, Some e))
  | None => let '(w, fd) := fresh_fd w in (emit (sys_eventfd fd) w, (fd, None))
  end.

Definition unix_EpollCtl_ADD (w : World) (epfd fd : Z) (event : EpollEvent)
  : World * option error :=
  let '(w, f) := next_fault w in
  match f with
  | Some e => (w, Some e)
  | None => (emit (sys_epoll_ctl_add epfd fd event) w, None)
  end.

Definition unix_Write (w : World) (fd : Z) (data : list byte) : World * option error :=
  let '(w, f) := next_fault w in
  match f with
  | Some e => (w, Some e)
  | None => (emit (sys_write fd data) w, None)
  end.

(** Every caller in the package drops the result of [unix.Close]. *)
Definition unix_Close (w : World) (fd : Z) : World := emit (sys_close fd) w.

(** [unix.EpollWait(epfd, events, -1)]: [None] when nothing ever wakes the
    caller.  The kernel reports at most [len(events)] ready descriptors, written
    to the front of [events]. *)
Definition unix_EpollWait (w : World) (epfd : Z) (events : list EpollEvent)
  : option (World * (list EpollEvent * Z * option error)) :=
  match waits w with
  | [] => None
  | r :: rs =>
      let w := emit (sys_epoll_wait epfd) (with_waits rs w) in
      match r with
      | wait_err errno => Some (w, (events, -1, Some (Errno errno)))
      | wait_ready ready =>
          let got := take (length events) ready in
          Some (w, (got ++ drop (length got) events, Z.of_nat (length got), None))
      end
  end.

(** *** The routing table *)

(** Modelled from the spec: package ebpf (the Map type with ABI, Put, Delete,
    Clone and Close) is not among the sources.  Section 6 gives the routing
    table a fixed [max_entries] read at construction; the handle is a
    descriptor, the entries are the [table] of the world. *)
Record Map := { MaxEntries : Z; map_fd : Z }.

(** Modelled from the spec: [insert(index, fd)]; may fail. *)
Definition Map_Put (w : World) (m : Map) (key value : Z) : World * option error :=
  let '(w, f) := next_fault w in
  match f with
  | Some e => (w, Some e)
  | None => (emit (map_put key value) (set_table (<[key := value]> (table w)) w), None)
  end.

(** Modelled from the spec: [delete(index)]; an absent entry is reported as
    "does not exist", which [Pause] does not take for an error. *)
Definition Map_Delete (w : World) (m : Map) (key : Z) : World * option error :=
  let '(w, f) := next_fault w in
  match f with
  | Some e => (w, Some e)
  | None =>
      match table w !! key with
      | None => (w, Some (Wrapped (Errno ENOENT) "key does not exist"))
      | Some _ => (emit (map_delete key) (set_table (delete key (table w)) w), None)
      end
  end.

(** Modelled from the spec: [duplicate() -> handle]. *)
Definition Map_Clone (w : World) (m : Map) : World * (Map * option error) :=
  let '(w, f) := next_fault w in
  match f with
  | Some e => (w, (m, Some e))
  | None =>
      let '(w, fd) := fresh_fd w in
      (emit (map_clone fd) w, ({| MaxEntries := MaxEntries m; map_fd := fd |}, None))
  end.

(** Modelled from the spec: [close(handle)]. *)
Definition Map_Close (w : World) (m : Map) : World := emit (map_close (map_fd m)) w.

(** Modelled from the spec: the test for "does not exist" ([ebpf.IsNotExist]),
    the cause being ENOENT. *)
Definition ebpf_IsNotExist (err : option error) : bool :=
  match err with
  | Some e => match Cause e with Errno n => n =? ENOENT | _ => false end
  | None => false
  end.

(** *** Rings as objects of the world *)

(** Modelled from the spec: newPerfEventRing is not among the sources.  Section
    4.1: creation fails with a configuration error if the size is below one or
    the watermark is not below the size, and with a set-up error if the
    descriptor or the mapping cannot be had. *)
Definition newPerfEventRing (w : World) (cpu perCPUBuffer watermark : Z)
  : World * (nat * option error) :=
  if perCPUBuffer <? 1 then
    (w, (0%nat, Some (errors_New "perCPUBuffer must be larger than 0")))
  else if perCPUBuffer <=? watermark then
    (w, (0%nat, Some (errors_New "watermark must be smaller than perCPUBuffer")))
  else
    let '(w, f) := next_fault w in
    match f with
    | Some e => (w, (0%nat, Some e))
    | None =>
        let '(w, fd) := fresh_fd w in
        let addr := length (mem w) in
        let r := {| ring.cpu := cpu; ring.fd := fd; ring.stream := [];
                    ring.head := 0; ring.tail := 0; ring.data_tail := 0;
                    ring.closed := false |} in
        (emit (ring_open addr) (set_mem (mem w ++ [r]) w), (addr, None))
    end.

(** Modelled from the spec: [ring.Close()] through a pointer; the call is
    logged, and a pointer to nothing changes no ring. *)
Definition ring_Close (w : World) (addr : nat) : World :=
  emit (ring_close addr)
    match mem w !! addr with
    | Some r => set_mem (<[addr := ring.Close r]> (mem w)) w
    | None => w
    end.

(** Modelled from the spec: [ring.loadHead()] through a pointer. *)
Definition ring_loadHead (w : World) (addr : nat) : World :=
  match mem w !! addr with
  | Some r => set_mem (<[addr := ring.loadHead r]> (mem w)) w
  | None => w
  end.

(** ** The Reader *)

(** What a call may come to: it returns, it panics (an index out of range), it
    never comes back from the wait, or the loop was cut off by the fuel. *)
Inductive Outcome (A : Type) :=
| Returns (a : A)
| Panics
| Blocks
| OutOfFuel.
Arguments Returns {A} a.
Arguments Panics {A}.
Arguments Blocks {A}.
Arguments OutOfFuel {A}.

(** One pass through the body of a [for] loop: fall through to the next
    statement, [continue], or leave the function. *)
Inductive Flow (A : Type) :=
| Proceed
| Continue
| Exit (o : Outcome A).
Arguments Proceed {A}.
Arguments Continue {A}.
Arguments Exit {A} o.

Definition MaxInt32 := 2147483647.

Definition uint32_of (v : Z) : Z := v mod 2 ^ 32.
Definition int32_of (v : Z) : Z := (v + 2 ^ 31) mod 2 ^ 32 - 2 ^ 31.

Definition addToEpoll (w : World) (epollfd fd cpu : Z) : World * option error :=
  if MaxInt32 <? cpu then
    (w, Some (errors_New ("unsupported CPU number: " +:+ pretty cpu)))
  else
    let event := {| Events := EPOLLIN; Fd := int32_of fd; Pad := int32_of cpu |} in
    let '(w, err) := unix_EpollCtl_ADD w epollfd fd event in
    (w, errors_Wrap err "can't add fd to epoll").

Definition cpuForEvent (event : EpollEvent) : Z := Pad event.

(** Reader allows reading bpf_perf_event_output from user space.  [rings] and
    [epollRings] hold pointers to ring objects; [pauseFds] is [None] for the nil
    slice; [closeOnce] is the done flag of the [sync.Once]. *)
Record Reader := {
  array : Map;
  rings : list nat;
  epollFd : Z;
  epollEvents : list EpollEvent;
  epollRings : list nat;
  closeFd : Z;
  closeOnce : bool;
  pauseFds : option (list Z);
  finalizer : bool
}.

Record ReaderOptions := { Watermark : Z }.

Definition set_epollEvents (evs : list EpollEvent) (pr : Reader) : Reader :=
  {| array := array pr; rings := rings pr; epollFd := epollFd pr; epollEvents := evs;
     epollRings := epollRings pr; closeFd := closeFd pr; closeOnce := closeOnce pr;
     pauseFds := pauseFds pr; finalizer := finalizer pr |}.

Definition set_epollRings (rs : list nat) (pr : Reader) : Reader :=
  {| array := array pr; rings := rings pr; epollFd := epollFd pr;
     epollEvents := epollEvents pr; epollRings := rs; closeFd := closeFd pr;
     closeOnce := closeOnce pr; pauseFds := pauseFds pr; finalizer := finalizer pr |}.

(** [runtime.SetFinalizer(pr, ...)]: whether a finalizer is registered. *)
Definition set_finalizer (b : bool) (pr : Reader) : Reader :=
  {| array := array pr; rings := rings pr; epollFd := epollFd pr;
     epollEvents := epollEvents pr; epollRings := epollRings pr; closeFd := closeFd pr;
     closeOnce := closeOnce pr; pauseFds := pauseFds pr; finalizer := b |}.

Section Reader.
Context {host : Host}.

(** NB: Has to be preceded by a call to ring.loadHead.  The deferred
    [ring.writeTail()] runs on every way out. *)
Definition readRecordFromRing (w : World) (addr : nat)
  : option (World * (Record_ * option error)) :=
  match mem w !! addr with
  | None => None
  | Some r =>
      let '(r, res) := readRecord r (ring.cpu r) in
      Some (set_mem (<[addr := ring.writeTail r]> (mem w)) w, res)
  end.

(** *** Pause and Resume *)

(** [for i := 0; i < len(pr.pauseFds); i++] with [fds] the part of
    [pr.pauseFds] from index [i] on. *)
Fixpoint Pause_loop (w : World) (m : Map) (fds : list Z) (i : Z)
  : World * option error :=
  match fds with
  | [] => (w, None)
  | _ :: fds =>
      let '(w, err) := Map_Delete w m (uint32_of i) in
      match err with
      | Some _ =>
          if negb (ebpf_IsNotExist err) then
            (w, errors_Wrap err ("could't delete event fd for CPU " +:+ pretty i))
          else Pause_loop w m fds (i + 1)
      | None => Pause_loop w m fds (i + 1)
      end
  end.

Definition Pause (w : World) (pr : Reader) : World * Reader * option error :=
  match pauseFds pr with
  | None => (w, pr, Some errClosed)
  | Some fds => let '(w, err) := Pause_loop w (array pr) fds 0 in (w, pr, err)
  end.

Fixpoint Resume_loop (w : World) (m : Map) (fds : list Z) (i : Z)
  : World * option error :=
  match fds with
  | [] => (w, None)
  | pauseFd :: fds =>
      let fd := uint32_of pauseFd in
      let '(w, err) := Map_Put w m (uint32_of i) fd in
      match err with
      | Some _ =>
          (w, errors_Wrap err
                ("could't put event fd " +:+ pretty fd +:+ " for CPU " +:+ pretty i))
      | None => Resume_loop w m fds (i + 1)
      end
  end.

Definition Resume (w : World) (pr : Reader) : World * Reader * option error :=
  match pauseFds pr with
  | None => (w, pr, Some errClosed)
  | Some fds => let '(w, err) := Resume_loop w (array pr) fds 0 in (w, pr, err)
  end.

(** *** Close *)

(** The function handed to [pr.closeOnce.Do]. *)
Definition Close_once (w : World) (pr : Reader) : World * Reader * option error :=
  let pr := set_finalizer false pr in
  let value := order_PutUint NativeEndian 8 1 in
  let '(w, err) := unix_Write w (closeFd pr) value in
  match err with
  | Some _ => (w, pr, errors_Wrap err "can't write event fd")
  | None =>
      let w := unix_Close w (epollFd pr) in
      let w := unix_Close w (closeFd pr) in
      let w := fold_left ring_Close (rings pr) w in
      let w := Map_Close w (array pr) in
      (w,
       {| array := array pr; rings := []; epollFd := -1;
          epollEvents := epollEvents pr; epollRings := epollRings pr;
          closeFd := -1; closeOnce := closeOnce pr; pauseFds := None;
          finalizer := finalizer pr |},
       None)
  end.

Definition Close (w : World) (pr : Reader) : World * Reader * option error :=
  if closeOnce pr then (w, pr, errors_Wrap None "close PerfReader")
  else
    let pr :=
      {| array := array pr; rings := rings pr; epollFd := epollFd pr;
         epollEvents := epollEvents pr; epollRings := epollRings pr;
         closeFd := closeFd pr; closeOnce := true; pauseFds := pauseFds pr;
         finalizer := finalizer pr |} in
    let '(w, pr, err) := Close_once w pr in
    (w, pr, errors_Wrap err "close PerfReader").

(** *** Read *)

(** [for _, event := range pr.epollEvents[:nEvents]] *)
Fixpoint Read_events (w : World) (pr : Reader) (events : list EpollEvent)
  : World * Reader * Flow (Record_ * option error) :=
  match events with
  | [] => (w, pr, Proceed)
  | event :: events =>
      if Fd event =? closeFd pr then
        (w, pr, Exit (Returns (Record_zero, Some errClosed)))
      else
        let cpu := cpuForEvent event in
        match (if cpu <? 0 then None else rings pr !! Z.to_nat cpu) with
        | None => (w, pr, Exit Panics)
        | Some ring =>
            let pr := set_epollRings (epollRings pr ++ [ring]) pr in
            let w := ring_loadHead w ring in
            Read_events w pr events
        end
  end.

(** [if len(pr.epollRings) == 0 { ... }] *)
Definition Read_wait (w : World) (pr : Reader)
  : World * Reader * Flow (Record_ * option error) :=
  match epollRings pr with
  | _ :: _ => (w, pr, Proceed)
  | [] =>
      match unix_EpollWait w (epollFd pr) (epollEvents pr) with
      | None => (w, pr, Exit Blocks)
      | Some (w, (events, nEvents, err)) =>
          let pr := set_epollEvents events pr in
          if isTemporary err then (w, pr, Continue)
          else
            match err with
            | Some _ => (w, pr, Exit (Returns (Record_zero, err)))
            | None => Read_events w pr (take (Z.to_nat nEvents) events)
            end
      end
  end.

(** The rest of the loop body: decode from the last ring of [pr.epollRings]. *)
Definition Read_record (w : World) (pr : Reader)
  : World * Reader * Flow (Record_ * option error) :=
  match last (epollRings pr) with
  | None => (w, pr, Exit Panics)
  | Some ring =>
      match readRecordFromRing w ring with
      | None => (w, pr, Exit Panics)
      | Some (w, (record, err)) =>
          match err with
          | Some errEOR =>
              (w,
               set_epollRings
                 (take (length (epollRings pr) - 1)%nat (epollRings pr)) pr,
               Continue)
          | _ => (w, pr, Exit (Returns (record, err)))
          end
      end
  end.

(** [for { ... }], at most [fuel] times round. *)
Fixpoint Read_loop (fuel : nat) (w : World) (pr : Reader)
  : World * Reader * Outcome (Record_ * option error) :=
  match fuel with
  | O => (w, pr, OutOfFuel)
  | S fuel =>
      match Read_wait w pr with
      | (w, pr, Exit o) => (w, pr, o)
      | (w, pr, Continue) => Read_loop fuel w pr
      | (w, pr, Proceed) =>
          match Read_record w pr with
          | (w, pr, Exit o) => (w, pr, o)
          | (w, pr, _) => Read_loop fuel w pr
          end
      end
  end.

Definition Read (fuel : nat) (w : World) (pr : Reader)
  : World * Reader * Outcome (Record_ * option error) :=
  if epollFd pr =? -1 then (w, pr, Returns (Record_zero, Some errClosed))
  else Read_loop fuel w pr.

(** *** Construction *)

Definition ring_fd (w : World) (addr : nat) : Z :=
  match mem w !! addr with
  | Some r => ring.fd r
  | None => 0
  end.

(** The deferred function of NewReaderWithOptions, when [err != nil]. *)
Definition unwind (w : World) (fds : list Z) (rings : list nat) : World :=
  fold_left ring_Close rings (fold_left unix_Close fds w).

(** [for i := 0; i < nCPU; i++] with [n] rounds still to go. *)
Fixpoint newRings (w : World) (epollFd perCPUBuffer watermark : Z) (n : nat) (i : Z)
  (rings : list nat) (pauseFds : list Z)
  : World * (list nat * list Z * option error) :=
  match n with
  | O => (w, (rings, pauseFds, None))
  | S n =>
      let '(w, (ring, err)) := newPerfEventRing w i perCPUBuffer watermark in
      match err with
      | Some _ =>
          (w, (rings, pauseFds,
               errors_Wrap err ("failed to create perf ring for CPU " +:+ pretty i)))
      | None =>
          let rings := rings ++ [ring] in
          let pauseFds := pauseFds ++ [ring_fd w ring] in
          let '(w, err) :=
            addToEpoll w epollFd (ring_fd w ring) (Z.of_nat (length rings) - 1) in
          match err with
          | Some _ => (w, (rings, pauseFds, err))
          | None => newRings w epollFd perCPUBuffer watermark n (i + 1) rings pauseFds
          end
      end
  end.

Definition NewReaderWithOptions (w : World) (array : Map) (perCPUBuffer : Z)
  (opts : ReaderOptions) : World * (option Reader * option error) :=
  if perCPUBuffer <? 1 then
    (w, (None, Some (errors_New "perCPUBuffer must be larger than 0")))
  else
    let '(w, (epollFd, err)) := unix_EpollCreate1 w in
    match err with
    | Some _ => (w, (None, errors_Wrap err "can't create epoll fd"))
    | None =>
    let fds := [epollFd] in
    let nCPU := MaxEntries array in
    let '(w, (rings, pauseFds, err)) :=
      newRings w epollFd perCPUBuffer (Watermark opts) (Z.to_nat nCPU) 0 [] [] in
    match err with
    | Some _ => (unwind w fds rings, (None, err))
    | None =>
    let '(w, (closeFd, err)) := unix_Eventfd w in
    match err with
    | Some _ => (unwind w fds rings, (None, err))
    | None =>
    let fds := fds ++ [closeFd] in
    let '(w, err) := addToEpoll w epollFd closeFd (-1) in
    match err with
    | Some _ => (unwind w fds rings, (None, err))
    | None =>
    let '(w, (array, err)) := Map_Clone w array in
    match err with
    | Some _ => (unwind w fds rings, (None, err))
    | None =>
    let pr :=
      {| array := array; rings := rings; epollFd := epollFd;
         epollEvents :=
           repeat {| Events := 0; Fd := 0; Pad := 0 |} (length rings + 1)%nat;
         epollRings := []; closeFd := closeFd; closeOnce := false;
         pauseFds := Some pauseFds; finalizer := false |} in
    let '(w, pr, err) := Resume w pr in
    match err with
    | Some _ => (unwind w fds rings, (None, err))
    | None =>
    let '(w, pr, err) := Resume w pr in
    match err with
    | Some _ => (unwind w fds rings, (None, err))
    | None =>
    (w,
     (Some (set_finalizer true pr), None))
    end end end end end end end.

(** NewReader creates a new reader with default options. *)
Definition NewReader (w : World) (array : Map) (perCPUBuffer : Z)
  : World * (option Reader * option error) :=
  NewReaderWithOptions w array perCPUBuffer {| Watermark := 0 |}.
End Reader.

(** ** Close, one statement at a time

    [Close] as two goroutines may run it at once: a statement of the source is
    a step, and whichever goroutine is not waiting for a lock may take the next
    one.  [sync.Once] is its done flag, which is [closeOnce] of the Reader, and
    its mutex: [Do] loads the flag and, when it is not set, takes the mutex,
    tests the flag again, runs the function, and then (deferred) sets the flag
    and releases the mutex.  [mu] and [pauseMu] are the two mutexes of the
    Reader. *)
Inductive goroutine := caller_a | caller_b.

Definition other (g : goroutine) : goroutine :=
  match g with caller_a => caller_b | caller_b => caller_a end.

(** Where a goroutine is in [Close]. *)
Inductive Pc :=
| at_Do
| at_Once_lock
| at_Once_check
| at_SetFinalizer
| at_Write
| at_mu_Lock
| at_pauseMu_Lock
| at_Close_epollFd
| at_Close_closeFd
| at_forget_fds
| at_ring_Close (i : nat)
| at_forget_rings
| at_forget_pauseFds
| at_array_Close
| at_pauseMu_Unlock
| at_mu_Unlock
| at_Once_store
| at_Once_unlock
| at_return
| returned (res : option error).

(** What a goroutine has of its own: where it is, and the variable [err] of
    [Close], which the function handed to [Do] assigns. *)
Record Frame := { pc : Pc; local_err : option error }.

Record Config := {
  cfg_world : World;
  cfg_reader : Reader;
  once_m : option goroutine;
  mu : option goroutine;
  pauseMu : option goroutine;
  frame_a : Frame;
  frame_b : Frame
}.

Definition frame (c : Config) (g : goroutine) : Frame :=
  match g with caller_a => frame_a c | caller_b => frame_b c end.

Definition set_frame (g : goroutine) (f : Frame) (c : Config) : Config :=
  {| cfg_world := cfg_world c; cfg_reader := cfg_reader c; once_m := once_m c;
     mu := mu c; pauseMu := pauseMu c;
     frame_a := match g with caller_a => f | caller_b => frame_a c end;
     frame_b := match g with caller_a => frame_b c | caller_b => f end |}.

Definition goto (g : goroutine) (p : Pc) (c : Config) : Config :=
  set_frame g {| pc := p; local_err := local_err (frame c g) |} c.

Definition set_world (w : World) (c : Config) : Config :=
  {| cfg_world := w; cfg_reader := cfg_reader c; once_m := once_m c; mu := mu c;
     pauseMu := pauseMu c; frame_a := frame_a c; frame_b := frame_b c |}.

Definition set_reader (pr : Reader) (c : Config) : Config :=
  {| cfg_world := cfg_world c; cfg_reader := pr; once_m := once_m c; mu := mu c;
     pauseMu := pauseMu c; frame_a := frame_a c; frame_b := frame_b c |}.

Definition set_once_m (h : option goroutine) (c : Config) : Config :=
  {| cfg_world := cfg_world c; cfg_reader := cfg_reader c; once_m := h; mu := mu c;
     pauseMu := pauseMu c; frame_a := frame_a c; frame_b := frame_b c |}.

Definition set_mu (h : option goroutine) (c : Config) : Config :=
  {| cfg_world := cfg_world c; cfg_reader := cfg_reader c; once_m := once_m c; mu := h;
     pauseMu := pauseMu c; frame_a := frame_a c; frame_b := frame_b c |}.

Definition set_pauseMu (h : option goroutine) (c : Config) : Config :=
  {| cfg_world := cfg_world c; cfg_reader := cfg_reader c; once_m := once_m c;
     mu := mu c; pauseMu := h; frame_a := frame_a c; frame_b := frame_b c |}.

(** [pr.epollFd, pr.closeFd = -1, -1] *)
Definition forget_fds (pr : Reader) : Reader :=
  {| array := array pr; rings := rings pr; epollFd := -1;
     epollEvents := epollEvents pr; epollRings := epollRings pr; closeFd := -1;
     closeOnce := closeOnce pr; pauseFds := pauseFds pr; finalizer := finalizer pr |}.

(** [pr.rings = nil] *)
Definition forget_rings (pr : Reader) : Reader :=
  {| array := array pr; rings := []; epollFd := epollFd pr;
     epollEvents := epollEvents pr; epollRings := epollRings pr; closeFd := closeFd pr;
     closeOnce := closeOnce pr; pauseFds := pauseFds pr; finalizer := finalizer pr |}.

(** [pr.pauseFds = nil] *)
Definition forget_pauseFds (pr : Reader) : Reader :=
  {| array := array pr; rings := rings pr; epollFd := epollFd pr;
     epollEvents := epollEvents pr; epollRings := epollRings pr; closeFd := closeFd pr;
     closeOnce := closeOnce pr; pauseFds := None; finalizer := finalizer pr |}.

(** The deferred store to the done flag of the [sync.Once]. *)
Definition Once_done (pr : Reader) : Reader :=
  {| array := array pr; rings := rings pr; epollFd := epollFd pr;
     epollEvents := epollEvents pr; epollRings := epollRings pr; closeFd := closeFd pr;
     closeOnce := true; pauseFds := pauseFds pr; finalizer := finalizer pr |}.

Section CloseSteps.
Context {host : Host}.

(** The next statement of goroutine [g]; [None] when it waits for a lock that is
    held, or has returned. *)
Definition Close_step (g : goroutine) (c : Config) : option Config :=
  let w := cfg_world c in
  let pr := cfg_reader c in
  match pc (frame c g) with
  | at_Do =>
      Some (goto g (if closeOnce pr then at_return else at_Once_lock) c)
  | at_Once_lock =>
      match once_m c with
      | None => Some (goto g at_Once_check (set_once_m (Some g) c))
      | Some _ => None
      end
  | at_Once_check =>
      Some (goto g (if closeOnce pr then at_Once_unlock else at_SetFinalizer) c)
  | at_SetFinalizer =>
      Some (goto g at_Write (set_reader (set_finalizer false pr) c))
  | at_Write =>
      let value := order_PutUint NativeEndian 8 1 in
      let '(w, e) := unix_Write w (closeFd pr) value in
      match e with
      | Some _ =>
          Some (set_frame g
                  {| pc := at_Once_store;
                     local_err := errors_Wrap e "can't write event fd" |}
                  (set_world w c))
      | None =>
          Some (set_frame g {| pc := at_mu_Lock; local_err := None |} (set_world w c))
      end
  | at_mu_Lock =>
      match mu c with
      | None => Some (goto g at_pauseMu_Lock (set_mu (Some g) c))
      | Some _ => None
      end
  | at_pauseMu_Lock =>
      match pauseMu c with
      | None => Some (goto g at_Close_epollFd (set_pauseMu (Some g) c))
      | Some _ => None
      end
  | at_Close_epollFd =>
      Some (goto g at_Close_closeFd (set_world (unix_Close w (epollFd pr)) c))
  | at_Close_closeFd =>
      Some (goto g at_forget_fds (set_world (unix_Close w (closeFd pr)) c))
  | at_forget_fds =>
      Some (goto g (at_ring_Close 0) (set_reader (forget_fds pr) c))
  | at_ring_Close i =>
      match rings pr !! i with
      | Some ring =>
          Some (goto g (at_ring_Close (S i)) (set_world (ring_Close w ring) c))
      | None => Some (goto g at_forget_rings c)
      end
  | at_forget_rings =>
      Some (goto g at_forget_pauseFds (set_reader (forget_rings pr) c))
  | at_forget_pauseFds =>
      Some (goto g at_array_Close (set_reader (forget_pauseFds pr) c))
  | at_array_Close =>
      Some (goto g at_pauseMu_Unlock (set_world (Map_Close w (array pr)) c))
  | at_pauseMu_Unlock => Some (goto g at_mu_Unlock (set_pauseMu None c))
  | at_mu_Unlock => Some (goto g at_Once_store (set_mu None c))
  | at_Once_store => Some (goto g at_Once_unlock (set_reader (Once_done pr) c))
  | at_Once_unlock => Some (goto g at_return (set_once_m None c))
  | at_return =>
      Some (goto g (returned (errors_Wrap (local_err (frame c g)) "close PerfReader")) c)
  | returned _ => None
  end.

(** The goroutines take their steps in the order of the schedule [s]; the turn
    of a goroutine that cannot take a step passes. *)
Fixpoint Close_run (s : list goroutine) (c : Config) : Config :=
  match s with
  | [] => c
  | g :: s => Close_run s (match Close_step g c with Some c' => c' | None => c end)
  end.

(** What is logged by one teardown of [pr]. *)
Definition teardown (pr : Reader) : list Effect :=
  [sys_write (closeFd pr) (order_PutUint NativeEndian 8 1);
   sys_close (epollFd pr); sys_close (closeFd pr)]
    ++ map ring_close (rings pr) ++ [map_close (map_fd (array pr))].
End CloseSteps.

(** Both goroutines about to call [Close], no lock held. *)
Definition Close_start (w : World) (pr : Reader) : Config :=
  {| cfg_world := w; cfg_reader := pr; once_m := None; mu := None; pauseMu := None;
     frame_a := {| pc := at_Do; local_err := None |};
     frame_b := {| pc := at_Do; local_err := None |} |}.

(** What [Close] has returned to goroutine [g], if it has. *)
Definition result_of (c : Config) (g : goroutine) : option (option error) :=
  match pc (frame c g) with
  | returned r => Some r
  | _ => None
  end.

Definition both_returned (c : Config) : bool :=
  match result_of c caller_a, result_of c caller_b with
  | Some _, Some _ => true
  | _, _ => false
  end.

(** A bound on the steps that a goroutine at [p] has still to take, with [n]
    rings to close. *)
Definition steps_left (n : nat) (p : Pc) : nat :=
  match p with
  | at_Do => 19 + n
  | at_Once_lock => 18 + n
  | at_Once_check => 17 + n
  | at_SetFinalizer => 16 + n
  | at_Write => 15 + n
  | at_mu_Lock => 14 + n
  | at_pauseMu_Lock => 13 + n
  | at_Close_epollFd => 12 + n
  | at_Close_closeFd => 11 + n
  | at_forget_fds => 10 + n
  | at_ring_Close i => 9 + (n - i)
  | at_forget_rings => 8
  | at_forget_pauseFds => 7
  | at_array_Close => 6
  | at_pauseMu_Unlock => 5
  | at_mu_Unlock => 4
  | at_Once_store => 3
  | at_Once_unlock => 2
  | at_return => 1
  | returned _ => 0
  end%nat.

Definition remaining (c : Config) : nat :=
  let n := length (rings (cfg_reader c)) in
  (steps_left n (pc (frame c caller_a)) + steps_left n (pc (frame c caller_b)))%nat.

Section CloseStates.
Context {host : Host}.

(** The world, the Reader and the holders of [mu] and [pauseMu] that the
    goroutine running the function handed to [Do] finds at statement [p], when
    [Close] was called in [w] on [pr] and the write to the close descriptor
    succeeds. *)
Definition world_at (w : World) (pr : Reader) (p : Pc) : World :=
  let w1 := fst (unix_Write w (closeFd pr) (order_PutUint NativeEndian 8 1)) in
  let w2 := unix_Close w1 (epollFd pr) in
  let w3 := unix_Close w2 (closeFd pr) in
  match p with
  | at_Do | at_Once_lock | at_Once_check | at_SetFinalizer | at_Write => w
  | at_mu_Lock | at_pauseMu_Lock | at_Close_epollFd => w1
  | at_Close_closeFd => w2
  | at_forget_fds => w3
  | at_ring_Close i => fold_left ring_Close (take i (rings pr)) w3
  | at_forget_rings | at_forget_pauseFds | at_array_Close =>
      fold_left ring_Close (rings pr) w3
  | _ => Map_Close (fold_left ring_Close (rings pr) w3) (array pr)
  end.
End CloseStates.

Definition reader_at (pr : Reader) (p : Pc) : Reader :=
  let pr1 := set_finalizer false pr in
  let pr2 := forget_fds pr1 in
  let pr3 := forget_rings pr2 in
  let pr4 := forget_pauseFds pr3 in
  match p with
  | at_Do | at_Once_lock | at_Once_check | at_SetFinalizer => pr
  | at_Write | at_mu_Lock | at_pauseMu_Lock | at_Close_epollFd | at_Close_closeFd
  | at_forget_fds => pr1
  | at_ring_Close _ | at_forget_rings => pr2
  | at_forget_pauseFds => pr3
  | at_array_Close | at_pauseMu_Unlock | at_mu_Unlock | at_Once_store => pr4
  | _ => Once_done pr4
  end.

Definition mu_at (g : goroutine) (p : Pc) : option goroutine :=
  match p with
  | at_pauseMu_Lock | at_Close_epollFd | at_Close_closeFd | at_forget_fds
  | at_ring_Close _ | at_forget_rings | at_forget_pauseFds | at_array_Close
  | at_pauseMu_Unlock | at_mu_Unlock => Some g
  | _ => None
  end.

Definition pauseMu_at (g : goroutine) (p : Pc) : option goroutine :=
  match p with
  | at_Close_epollFd | at_Close_closeFd | at_forget_fds
  | at_ring_Close _ | at_forget_rings | at_forget_pauseFds | at_array_Close
  | at_pauseMu_Unlock => Some g
  | _ => None
  end.

(** The statements at which a goroutine holds the mutex of the [sync.Once]
    with the done flag not yet set. *)
Definition in_function (p : Pc) : bool :=
  match p with
  | at_Do | at_Once_lock | at_Once_unlock | at_return | returned _ => false
  | _ => true
  end.

(** A goroutine that has not got past the mutex of the [sync.Once]; one that
    holds that mutex after the done flag was set; one that has found the done
    flag set. *)
Definition idle (f : Frame) : Prop :=
  local_err f = None /\ (pc f = at_Do \/ pc f = at_Once_lock).

Definition leaving (f : Frame) : Prop :=
  local_err f = None /\ (pc f = at_Once_check \/ pc f = at_Once_unlock).

Definition settled (f : Frame) : Prop :=
  local_err f = None /\
  match pc f with
  | at_Do | at_Once_lock | at_return | returned None => True
  | _ => False
  end.

Section CloseInvariant.
Context {host : Host}.

(** What holds of every configuration that two goroutines calling [Close] in
    [w] on [pr] can reach, when the write to the close descriptor succeeds: by
    who holds the mutex of the [sync.Once] and whether its done flag is set. *)
Definition Close_invariant (w : World) (pr : Reader) (c : Config) : Prop :=
  match once_m c, closeOnce (cfg_reader c) with
  | None, false =>
      cfg_world c = w /\ cfg_reader c = pr /\ mu c = None /\ pauseMu c = None
      /\ idle (frame_a c) /\ idle (frame_b c)
  | Some g, false =>
      let p := pc (frame c g) in
      in_function p = true /\ local_err (frame c g) = None
      /\ cfg_world c = world_at w pr p /\ cfg_reader c = reader_at pr p
      /\ mu c = mu_at g p /\ pauseMu c = pauseMu_at g p
      /\ idle (frame c (other g))
  | h, true =>
      cfg_world c = world_at w pr at_return /\ cfg_reader c = reader_at pr at_return
      /\ mu c = None /\ pauseMu c = None
      /\ match h with
         | None => settled (frame_a c) /\ settled (frame_b c)
         | Some g => leaving (frame c g) /\ settled (frame c (other g))
         end
  end.
End CloseInvariant.

(** ** The wire format, written out

    What a producer puts into the ring for the three structures the decoder
    reads, field by field in the host's byte order. *)
Section Encoding.
Context {host : Host}.

Definition encode_header (type misc size : Z) : list byte :=
  order_PutUint NativeEndian 4 type ++ order_PutUint NativeEndian 2 misc
    ++ order_PutUint NativeEndian 2 size.

Definition encode_lost (id lost : Z) : list byte :=
  order_PutUint NativeEndian 8 id ++ order_PutUint NativeEndian 8 lost.

Definition encode_sample (size : Z) (data : list byte) : list byte :=
  order_PutUint NativeEndian 4 size ++ data.
End Encoding.

Definition little : Host := {| NativeEndian := LittleEndian |}.
Definition big : Host := {| NativeEndian := BigEndian |}.

(** ** Worlds and readers that the statements below are about *)

(** A world in which nothing has happened yet and every call will succeed. *)
Definition quiet_world : World :=
  {| trace := []; table := ∅; mem := []; next_fd := 3; faults := []; waits := [] |}.

(** A Reader for two CPUs with 4096-byte buffers in a world where every call
    succeeds, and the world it leaves. *)
Definition two_cpu_array : Map := {| MaxEntries := 2; map_fd := 0 |}.

Definition two_cpu_world : World := fst (NewReader quiet_world two_cpu_array 4096).

Definition zero_reader : Reader :=
  {| array := two_cpu_array; rings := []; epollFd := 0; epollEvents := [];
     epollRings := []; closeFd := 0; closeOnce := false; pauseFds := None;
     finalizer := false |}.

Definition two_cpu_reader : Reader :=
  match fst (snd (NewReader quiet_world two_cpu_array 4096)) with
  | Some pr => pr
  | None => zero_reader
  end.

(** A schedule for two goroutines: turn by turn, the second one first. *)
Definition taking_turns : list goroutine :=
  flat_map (fun _ => [caller_b; caller_a]) (seq 0 30).

(** The same world, except that the next fallible call fails with EBADF. *)
Definition EBADF := 9.

Definition failing_world : World := with_faults [Some (Errno EBADF)] two_cpu_world.

(** The routing table and the log after the insertions of [Resume]'s loop for
    the descriptors [fds], the first of them at index [i]. *)
Fixpoint inserted (fds : list Z) (i : Z) (t : gmap Z Z) : gmap Z Z :=
  match fds with
  | [] => t
  | fd :: fds => inserted fds (i + 1) (<[uint32_of i := uint32_of fd]> t)
  end.

Fixpoint put_trace (fds : list Z) (i : Z) : list Effect :=
  match fds with
  | [] => []
  | fd :: fds => map_put (uint32_of i) (uint32_of fd) :: put_trace fds (i + 1)
  end.

Definition three_bytes : list byte := [Byte.x01; Byte.x02; Byte.x03].

(** The two-CPU world with the wait interrupted once and then failing for good. *)
Definition interrupted_world : World :=
  with_waits [wait_err EINTR; wait_err EBADF] two_cpu_world.

(** The two-CPU world with the second insertion to come failing. *)
Definition second_put_fails : World :=
  with_faults [None; Some (Errno EBADF)] two_cpu_world.

(** The two-CPU world in which the kernel has written one record of type 7 to
    the ring of CPU 0, and the Reader with that ring pending. *)
Definition unknown_record_ring : ring.t :=
  {| ring.cpu := 0; ring.fd := 4; ring.stream := encode_header (host := little) 7 0 8;
     ring.head := 8; ring.tail := 0; ring.data_tail := 0; ring.closed := false |}.

Definition unknown_record_world : World :=
  set_mem (<[0%nat := unknown_record_ring]> (mem two_cpu_world)) two_cpu_world.

Definition pending_reader : Reader := set_epollRings [0%nat] two_cpu_reader.

(** Modelled from the spec: the kernel, as producer, appends bytes to the ring
    of one CPU. *)
Definition produce (addr : nat) (bs : list byte) (w : World) : World :=
  match mem w !! addr with
  | Some r =>
      set_mem
        (<[addr := {| ring.cpu := ring.cpu r; ring.fd := ring.fd r;
                      ring.stream := ring.stream r ++ bs; ring.head := ring.head r;
                      ring.tail := ring.tail r; ring.data_tail := ring.data_tail r;
                      ring.closed := ring.closed r |}]> (mem w)) w
  | None => w
  end.

(** Sixteen bytes of payload, and the two-CPU world after the kernel has put one
    sample record with them on CPU 0 and reported its descriptor ready. *)
Definition sixteen_bytes : list byte := repeat Byte.x2a 16.

Definition one_sample_world : World :=
  with_waits [wait_ready [{| Events := EPOLLIN; Fd := 4; Pad := 0 |}]]
    (produce 0
       (encode_header (host := little) perfRecordSample 0 32
          ++ encode_sample (host := little) 16 sixteen_bytes)
       two_cpu_world).

(** ** Further vocabulary *)

(** [r'] is [r] with the tail moved on, by no more than what was unread. *)
Definition moved_on (r r' : ring.t) : Prop :=
  exists k : nat, r' = ring.advance k r /\ (k <= length (ring.window r))%nat.

(** The two kinds of record a producer writes, the bytes of each, and the
    Record that the decoder makes of it for a CPU. *)
Inductive Body :=
| LostBody (id lost : Z)
| SampleBody (data : list byte).

Definition body_ok (b : Body) : Prop :=
  match b with
  | LostBody id lost => 0 <= lost < 2 ^ 64
  | SampleBody data => Z.of_nat (length data) < 2 ^ 32
  end.

Definition record_of (cpu : Z) (b : Body) : Record_ :=
  match b with
  | LostBody id lost => {| CPU := cpu; RawSample := []; LostSamples := lost |}
  | SampleBody data => {| CPU := cpu; RawSample := data; LostSamples := 0 |}
  end.

Section RecordEncoding.
Context {host : Host}.

Definition encode_record (misc hsize : Z) (b : Body) : list byte :=
  match b with
  | LostBody id lost => encode_header perfRecordLost misc hsize ++ encode_lost id lost
  | SampleBody data =>
      encode_header perfRecordSample misc hsize
        ++ encode_sample (Z.of_nat (length data)) data
  end.
End RecordEncoding.

(** A ready descriptor that is not the close descriptor and whose tag is the
    index of a ring. *)
Definition ring_event (cfd : Z) (rs : list nat) (event : EpollEvent) : Prop :=
  Fd event <> cfd /\ 0 <= Pad event /\ (Z.to_nat (Pad event) < length rs)%nat.

(** The errors of reading from an in-memory reader. *)
Definition io_error (err : option error) : Prop :=
  err = None \/ err = Some io_EOF \/ err = Some io_ErrUnexpectedEOF.

(** The errors of the decoder, with the Record that goes with each; those of
    [Read], where the end of a ring is no longer among them. *)
Definition decoder_result (record : Record_) (err : option error) : Prop :=
  (RawSample record = [] \/ LostSamples record = 0) /\
  match err with
  | None => True
  | Some errEOR => record = Record_zero
  | Some (unknownEventError _) => record = Record_zero
  | Some (Wrapped io_EOF _) | Some (Wrapped io_ErrUnexpectedEOF _) => True
  | Some _ => False
  end.

Definition Read_result (record : Record_) (err : option error) : Prop :=
  (RawSample record = [] \/ LostSamples record = 0) /\
  match err with
  | None => True
  | Some errClosed => record = Record_zero
  | Some (Errno e) => Errno_Temporary e = false /\ record = Record_zero
  | Some (unknownEventError _) => record = Record_zero
  | Some (Wrapped io_EOF _) | Some (Wrapped io_ErrUnexpectedEOF _) => True
  | Some _ => False
  end.

(** The routing table after the deletions of [Pause]'s loop for [n] indices from
    [i] on. *)
Fixpoint cleared (n : nat) (i : Z) (t : gmap Z Z) : gmap Z Z :=
  match n with
  | O => t
  | S n => cleared n (i + 1) (delete (uint32_of i) t)
  end.

(** What a logged call acquires or releases.  A ring has its descriptor and
    its mapping for itself and is opened and closed as one; the other
    descriptors are those made by [EpollCreate1], by [Eventfd] and by [Clone] of
    the array, closed by [unix.Close] or by [Close] of the array. *)
Definition opened_ring (e : Effect) : option nat :=
  match e with ring_open addr => Some addr | _ => None end.

Definition closed_ring (e : Effect) : option nat :=
  match e with ring_close addr => Some addr | _ => None end.

Definition opened_fd (e : Effect) : option Z :=
  match e with
  | sys_epoll_create1 fd | sys_eventfd fd | map_clone fd => Some fd
  | _ => None
  end.

Definition closed_fd (e : Effect) : option Z :=
  match e with sys_close fd | map_close fd => Some fd | _ => None end.

(** Of a stretch of the log: the rings opened, the rings closed, the descriptors
    made and the descriptors closed, each in the order of the calls. *)
Definition summary (t : list Effect) : list nat * list nat * list Z * list Z :=
  (omap opened_ring t, omap closed_ring t, omap opened_fd t, omap closed_fd t).

Definition summary_app (a b : list nat * list nat * list Z * list Z)
  : list nat * list nat * list Z * list Z :=
  let '(a1, a2, a3, a4) := a in
  let '(b1, b2, b3, b4) := b in
  (a1 ++ b1, a2 ++ b2, a3 ++ b3, a4 ++ b4).

(** The world in which construction for two CPUs gets as far as the first
    insertion into the array, which fails. *)
Definition first_put_fails : World :=
  with_faults (repeat None 8 ++ [Some (Errno EBADF)]) quiet_world.

(** The ring at [addr] is the one of CPU [k]: it carries that CPU number, its
    descriptor is the [k]-th cached one, is older than the next descriptor to be
    handed out, and has been registered with epoll under the tag [k]. *)
Definition ring_set_up (w : World) (epfd : Z) (fds : list Z) (k addr : nat) : Prop :=
  exists r,
    mem w !! addr = Some r /\ ring.cpu r = Z.of_nat k /\ fds !! k = Some (ring.fd r)
    /\ ring.fd r < next_fd w
    /\ In (sys_epoll_ctl_add epfd (ring.fd r)
             {| Events := EPOLLIN; Fd := int32_of (ring.fd r); Pad := Z.of_nat k |})
          (trace w).

(** A lost-samples record on a little-endian host, and what it decodes to. *)
Definition lost_bytes : list byte :=
  encode_header (host := little) perfRecordLost 0 24 ++ encode_lost (host := little) 7 3.

Definition lost_record : Record_ := {| CPU := 1; RawSample := []; LostSamples := 3 |}.

(** The ring of CPU 0 as construction leaves it, and the same ring holding one
    sample record of three bytes before its snapshotted head. *)
Definition idle_ring : ring.t :=
  {| ring.cpu := 0; ring.fd := 4; ring.stream := []; ring.head := 0; ring.tail := 0;
     ring.data_tail := 0; ring.closed := false |}.

Definition sample_ring : ring.t :=
  {| ring.cpu := 0; ring.fd := 4;
     ring.stream := encode_record (host := little) 0 32 (SampleBody three_bytes);
     ring.head := 15; ring.tail := 0; ring.data_tail := 0; ring.closed := false |}.

Definition sample_pending_world : World :=
  set_mem (<[0%nat := sample_ring]> (mem two_cpu_world)) two_cpu_world.

(** The descriptors of the two-CPU Reader as epoll reports them. *)
Definition ring0_ready : EpollEvent := {| Events := EPOLLIN; Fd := 4; Pad := 0 |}.
Definition close_ready : EpollEvent := {| Events := EPOLLIN; Fd := 6; Pad := -1 |}.

Definition closing_world : World :=
  with_waits [wait_ready [ring0_ready; close_ready]] two_cpu_world.

(** The ring of CPU 0 once the kernel has written one sample record of sixteen
    bytes to it, the head not yet snapshotted. *)
Definition produced_ring : ring.t :=
  {| ring.cpu := 0; ring.fd := 4;
     ring.stream := encode_record (host := little) 0 32 (SampleBody sixteen_bytes);
     ring.head := 0; ring.tail := 0; ring.data_tail := 0; ring.closed := false |}.

(** * Properties *)

(** ** Byte order *)

Lemma order_Uint_PutUint o n v :
  order_Uint o (order_PutUint o n v) = v mod 2 ^ (Z.of_nat n * 8).
Proof.
  destruct o; simpl; [| rewrite rev_involutive]; apply le_combine_split.
Qed.

Lemma length_order_PutUint o n v : length (order_PutUint o n v) = n.
Proof.
  destruct o; simpl; [| rewrite length_rev]; apply length_le_split.
Qed.

Lemma order_Uint_PutUint_small o n v :
  0 <= v < 2 ^ (Z.of_nat n * 8) -> order_Uint o (order_PutUint o n v) = v.
Proof. intros Hv. rewrite order_Uint_PutUint. apply Z.mod_small, Hv. Qed.

(** ** Reading from an in-memory reader *)
Section ReadFacts.
Context {R : Type} {reader : io_Reader R}.

(** Enough unread bytes: the buffer is filled and the reader moves past them. *)
Lemma io_ReadFull_ok (rd : R) (buf bs rest : list byte) :
  unread rd = bs ++ rest -> length bs = length buf ->
  exists rd', io_ReadFull rd buf = (rd', (bs, None)) /\ unread rd' = rest.
Proof.
  intros Hrd Hlen. unfold io_ReadFull.
  destruct (Nat.eqb_spec (length buf) 0) as [Hz | Hnz].
  - exists rd. destruct buf; [| discriminate]. destruct bs; [| discriminate].
    split; [reflexivity | exact Hrd].
  - rewrite Hrd, <- Hlen, take_app_length.
    destruct (Nat.eqb_spec (length bs) 0) as [Hz | _]; [lia |].
    rewrite Nat.ltb_irrefl, drop_ge, app_nil_r by lia.
    eexists; split; [reflexivity |].
    rewrite unread_consume, Hrd. apply drop_app_length.
Qed.

(** Nothing unread and something asked for: [io.EOF], nothing consumed. *)
Lemma io_ReadFull_empty (rd : R) (buf : list byte) :
  unread rd = [] -> buf <> [] ->
  exists rd', io_ReadFull rd buf = (rd', (buf, Some io_EOF)) /\ unread rd' = [].
Proof.
  intros Hrd Hbuf. unfold io_ReadFull. rewrite Hrd, take_nil. simpl.
  destruct buf as [| b buf]; [contradiction |]. simpl.
  eexists; split; [reflexivity |]. rewrite unread_consume, Hrd. reflexivity.
Qed.

(** Some but not enough unread bytes: [io.ErrUnexpectedEOF]. *)
Lemma io_ReadFull_short (rd : R) (buf : list byte) :
  unread rd <> [] -> (length (unread rd) < length buf)%nat ->
  exists rd',
    io_ReadFull rd buf
    = (rd', (unread rd ++ drop (length (unread rd)) buf, Some io_ErrUnexpectedEOF))
    /\ unread rd' = [].
Proof.
  intros Hne Hlt. unfold io_ReadFull.
  rewrite (take_ge (unread rd)) by lia.
  destruct (Nat.eqb_spec (length buf) 0) as [Hz | _]; [lia |].
  destruct (Nat.eqb_spec (length (unread rd)) 0) as [Hz | _].
  - destruct (unread rd); [contradiction | discriminate].
  - destruct (Nat.ltb_spec (length (unread rd)) (length buf)) as [_ | Hge]; [| lia].
    eexists; split; [reflexivity |].
    rewrite unread_consume. apply drop_ge. lia.
Qed.

Context {T : Type} {bin : Binary T}.

Lemma binary_Read_ok (rd : R) (o : ByteOrder) (d : T) (bs rest : list byte) :
  unread rd = bs ++ rest -> length bs = binary_Size ->
  exists rd', binary_Read rd o d = (rd', (binary_decode o bs, None)) /\ unread rd' = rest.
Proof.
  intros Hrd Hlen. unfold binary_Read.
  destruct (io_ReadFull_ok rd (repeat Byte.x00 binary_Size) bs rest Hrd) as (rd' & -> & Hrest).
  - rewrite repeat_length. exact Hlen.
  - exists rd'. split; [reflexivity | exact Hrest].
Qed.

(** Too few bytes for the structure: [io.EOF] at the very start of it,
    [io.ErrUnexpectedEOF] inside it; the data keeps its value. *)
Lemma binary_Read_truncated (rd : R) (o : ByteOrder) (d : T) :
  (length (unread rd) < binary_Size)%nat ->
  exists rd',
    binary_Read rd o d
    = (rd', (d, Some (match unread rd with [] => io_EOF | _ => io_ErrUnexpectedEOF end)))
    /\ unread rd' = [].
Proof.
  intros Hlt. unfold binary_Read.
  destruct (unread rd) as [| b bs] eqn:Hrd.
  - destruct (io_ReadFull_empty rd (repeat Byte.x00 binary_Size) Hrd) as (rd' & -> & Hrest).
    + intros Hnil. apply (f_equal length) in Hnil. rewrite repeat_length in Hnil.
      simpl in *. lia.
    + exists rd'. split; [reflexivity | exact Hrest].
  - destruct (io_ReadFull_short rd (repeat Byte.x00 binary_Size)) as (rd' & -> & Hrest).
    + rewrite Hrd. discriminate.
    + rewrite Hrd, repeat_length. exact Hlt.
    + exists rd'. split; [reflexivity | exact Hrest].
Qed.
End ReadFacts.

(** ** The record decoder *)
Section DecoderFacts.
Context {host : Host}.

Lemma length_encode_header type misc size :
  length (encode_header type misc size) = 8%nat.
Proof.
  unfold encode_header. rewrite !length_app, !length_order_PutUint. reflexivity.
Qed.

Lemma length_encode_lost id lost : length (encode_lost id lost) = 16%nat.
Proof.
  unfold encode_lost. rewrite !length_app, !length_order_PutUint. reflexivity.
Qed.

Lemma decode_encode_header type misc size :
  binary_decode NativeEndian (encode_header type misc size)
  = {| Type_ := type mod 2 ^ 32; Misc := misc mod 2 ^ 16; Size := size mod 2 ^ 16 |}.
Proof.
  unfold encode_header; simpl.
  rewrite (take_app_length' _ _ 4) by (symmetry; apply length_order_PutUint).
  rewrite (drop_app_length' _ _ 4) by (symmetry; apply length_order_PutUint).
  rewrite (take_app_length' _ _ 2) by (symmetry; apply length_order_PutUint).
  change 6%nat with (4 + 2)%nat.
  rewrite (drop_app_add' _ _ 4) by (symmetry; apply length_order_PutUint).
  rewrite (drop_app_length' _ _ 2) by (symmetry; apply length_order_PutUint).
  rewrite (take_ge _ 2) by (rewrite length_order_PutUint; lia).
  rewrite !order_Uint_PutUint. reflexivity.
Qed.

Lemma decode_encode_lost id lost :
  binary_decode NativeEndian (encode_lost id lost)
  = {| ID := id mod 2 ^ 64; Lost := lost mod 2 ^ 64 |}.
Proof.
  unfold encode_lost; simpl.
  rewrite (take_app_length' _ _ 8) by (symmetry; apply length_order_PutUint).
  rewrite (drop_app_length' _ _ 8) by (symmetry; apply length_order_PutUint).
  rewrite (take_ge _ 8) by (rewrite length_order_PutUint; lia).
  rewrite !order_Uint_PutUint. reflexivity.
Qed.

Context {R : Type} {reader : io_Reader R}.

(** The header is there and names a lost-samples record: [readRecord] goes on
    with [readLostRecords] on what follows the header. *)
Lemma readRecord_header (rd : R) (cpu : Z) (hdr rest : list byte) :
  unread rd = hdr ++ rest -> length hdr = 8%nat ->
  exists rd1,
    unread rd1 = rest /\
    readRecord rd cpu =
      let header : perfEventHeader := binary_decode NativeEndian hdr in
      if Type_ header =? perfRecordLost then
        let '(rd, (lost, err)) := readLostRecords rd1 in
        (rd, ({| CPU := cpu; RawSample := []; LostSamples := lost |}, err))
      else if Type_ header =? perfRecordSample then
        let '(rd, (sample, err)) := readRawSample rd1 in
        (rd, ({| CPU := cpu; RawSample := sample; LostSamples := 0 |}, err))
      else
        (rd1, (Record_zero, Some (unknownEventError (Type_ header)))).
Proof.
  intros Hrd Hlen. unfold readRecord.
  destruct (binary_Read_ok (bin := perfEventHeader_Binary) rd NativeEndian
              {| Type_ := 0; Misc := 0; Size := 0 |}
              hdr rest Hrd Hlen) as (rd1 & -> & Hrest).
  exists rd1. split; [exact Hrest | reflexivity].
Qed.

(** C2: an 8-byte header in the host's byte order with type 2 followed by the
    body {id: u64, lost_count: u64} decodes, without an error, to a Record whose
    lost-samples count is lost_count and whose sample payload is empty; the
    reader is left right after the body. *)
Theorem readRecord_lost_roundtrip (rd : R) (cpu misc size id lost_count : Z)
  (rest : list byte) :
  0 <= lost_count < 2 ^ 64 ->
  unread rd = encode_header perfRecordLost misc size ++ encode_lost id lost_count ++ rest ->
  snd (readRecord rd cpu)
  = ({| CPU := cpu; RawSample := []; LostSamples := lost_count |}, None)
  /\ unread (fst (readRecord rd cpu)) = rest.
Proof.
  intros Hlost Hrd.
  destruct (readRecord_header rd cpu _ _ Hrd (length_encode_header _ _ _))
    as (rd1 & Hrd1 & ->).
  rewrite decode_encode_header. cbn [Type_]. change (perfRecordLost mod 2 ^ 32) with 2.
  change (2 =? perfRecordLost) with true. cbv iota.
  unfold readLostRecords.
  destruct (binary_Read_ok (bin := lostHeader_Binary) rd1 NativeEndian
              {| ID := 0; Lost := 0 |} _ _ Hrd1
              (length_encode_lost _ _)) as (rd2 & -> & Hrd2).
  rewrite decode_encode_lost. cbn [Lost fst snd].
  rewrite Z.mod_small by exact Hlost. split; [reflexivity | exact Hrd2].
Qed.

(** C3: an 8-byte header in the host's byte order with type 9 followed by the
    body {size: u32, data: size bytes} decodes, without an error, to a Record
    whose sample payload is data, of length exactly size, and whose
    lost-samples count is zero. *)
Theorem readRecord_sample_roundtrip (rd : R) (cpu misc hsize size : Z)
  (data rest : list byte) :
  0 <= size < 2 ^ 32 -> Z.of_nat (length data) = size ->
  unread rd
  = encode_header perfRecordSample misc hsize ++ encode_sample size data ++ rest ->
  snd (readRecord rd cpu) = ({| CPU := cpu; RawSample := data; LostSamples := 0 |}, None)
  /\ Z.of_nat (length (RawSample (fst (snd (readRecord rd cpu))))) = size
  /\ unread (fst (readRecord rd cpu)) = rest.
Proof.
  intros Hsize Hlen Hrd.
  destruct (readRecord_header rd cpu _ _ Hrd (length_encode_header _ _ _))
    as (rd1 & Hrd1 & ->).
  rewrite decode_encode_header. cbn [Type_]. change (perfRecordSample mod 2 ^ 32) with 9.
  change (9 =? perfRecordLost) with false. change (9 =? perfRecordSample) with true.
  cbv iota. unfold readRawSample.
  unfold encode_sample in Hrd1. rewrite <- app_assoc in Hrd1.
  destruct (binary_Read_ok (bin := uint32_Binary) rd1 NativeEndian {| u32 := 0 |} _ _ Hrd1
              (length_order_PutUint _ _ _)) as (rd2 & -> & Hrd2).
  cbn [binary_decode uint32_Binary u32].
  rewrite take_ge by (rewrite length_order_PutUint; lia).
  rewrite order_Uint_PutUint_small by exact Hsize.
  rewrite <- Hlen, Nat2Z.id.
  destruct (io_ReadFull_ok rd2 (repeat Byte.x00 (length data)) data rest Hrd2)
    as (rd3 & -> & Hrd3); [now rewrite repeat_length |].
  cbn [fst snd errors_Wrap RawSample]. repeat split. exact Hrd3.
Qed.

(** C4: a header whose type is neither 2 (Lost) nor 9 (Sample) makes
    [readRecord] return the zero Record (no sample payload, no lost-samples
    count) with an error that [IsUnknownEvent] recognises and [IsClosed] does
    not. *)
Theorem readRecord_unknown_type (rd : R) (cpu : Z) (hdr rest : list byte) :
  unread rd = hdr ++ rest -> length hdr = 8%nat ->
  order_Uint NativeEndian (take 4 hdr) <> perfRecordLost ->
  order_Uint NativeEndian (take 4 hdr) <> perfRecordSample ->
  let '(record, err) := snd (readRecord rd cpu) in
  err = Some (unknownEventError (order_Uint NativeEndian (take 4 hdr)))
  /\ IsUnknownEvent err = true /\ IsClosed err = false
  /\ record = Record_zero /\ RawSample record = [] /\ LostSamples record = 0.
Proof.
  intros Hrd Hlen Hlost Hsample.
  destruct (readRecord_header rd cpu _ _ Hrd Hlen) as (rd1 & Hrd1 & ->).
  cbn [binary_decode perfEventHeader_Binary Type_].
  destruct (Z.eqb_spec (order_Uint NativeEndian (take 4 hdr)) perfRecordLost);
    [contradiction |].
  destruct (Z.eqb_spec (order_Uint NativeEndian (take 4 hdr)) perfRecordSample);
    [contradiction |].
  cbn. repeat split.
Qed.

Lemma errors_Wrap_not_errEOR (err : option error) (msg : string) :
  errors_Wrap err msg <> Some errEOR.
Proof. destruct err; discriminate. Qed.

Lemma readLostRecords_not_errEOR (rd : R) :
  snd (snd (readLostRecords rd)) <> Some errEOR.
Proof.
  unfold readLostRecords.
  destruct (binary_Read rd NativeEndian {| ID := 0; Lost := 0 |}) as [rd1 [d [e |]]];
    cbn; discriminate.
Qed.

Lemma readRawSample_not_errEOR (rd : R) :
  snd (snd (readRawSample rd)) <> Some errEOR.
Proof.
  unfold readRawSample.
  destruct (binary_Read rd NativeEndian {| u32 := 0 |}) as [rd1 [d [e |]]];
    cbn; [discriminate |].
  destruct (io_ReadFull rd1 _) as [rd2 [data err]]. cbn.
  apply errors_Wrap_not_errEOR.
Qed.

(** C10: [readRecord] reports the end of the ring exactly when the input ends
    before the first byte of a header.  Once the header has been read, an input
    that ends inside a Lost body, inside the size field of a Sample body, or
    before the declared number of sample bytes is returned as a wrapped
    [io.EOF] or [io.ErrUnexpectedEOF], which is not [errEOR]. *)
Theorem readRecord_errEOR_only_at_record_start (rd : R) (cpu : Z) :
  (snd (snd (readRecord rd cpu)) = Some errEOR <-> unread rd = [])
  /\ (forall hdr body : list byte,
        unread rd = hdr ++ body -> length hdr = 8%nat ->
        order_Uint NativeEndian (take 4 hdr) = perfRecordLost ->
        (length body < 16)%nat ->
        exists e, (e = io_EOF \/ e = io_ErrUnexpectedEOF) /\
          snd (snd (readRecord rd cpu))
          = Some (Wrapped e "can't read lost records header"))
  /\ (forall hdr body : list byte,
        unread rd = hdr ++ body -> length hdr = 8%nat ->
        order_Uint NativeEndian (take 4 hdr) = perfRecordSample ->
        (length body < 4)%nat ->
        exists e, (e = io_EOF \/ e = io_ErrUnexpectedEOF) /\
          snd (snd (readRecord rd cpu)) = Some (Wrapped e "can't read sample size"))
  /\ (forall hdr size data : list byte,
        unread rd = hdr ++ size ++ data -> length hdr = 8%nat ->
        order_Uint NativeEndian (take 4 hdr) = perfRecordSample ->
        length size = 4%nat ->
        Z.of_nat (length data) < order_Uint NativeEndian size ->
        exists e, (e = io_EOF \/ e = io_ErrUnexpectedEOF) /\
          snd (snd (readRecord rd cpu)) = Some (Wrapped e "can't read sample")).
Proof.
  split; [split |].
  - (* errEOR only for an empty input *)
    intros Herr.
    destruct (Nat.lt_ge_cases (length (unread rd)) 8) as [Hshort | Hlong].
    + unfold readRecord in Herr.
      destruct (binary_Read_truncated (bin := perfEventHeader_Binary) rd NativeEndian
                  {| Type_ := 0; Misc := 0; Size := 0 |} Hshort) as (rd1 & Hread & _).
      rewrite Hread in Herr.
      destruct (unread rd); [reflexivity | discriminate Herr].
    + destruct (readRecord_header rd cpu (take 8 (unread rd)) (drop 8 (unread rd)))
        as (rd1 & _ & Hread).
      * symmetry. apply take_drop.
      * rewrite length_take. lia.
      * rewrite Hread in Herr. cbv zeta in Herr. exfalso.
        destruct (Type_ _ =? perfRecordLost).
        { pose proof (readLostRecords_not_errEOR rd1) as Hne.
          destruct (readLostRecords rd1) as [rd2 [lost err]]. exact (Hne Herr). }
        destruct (Type_ _ =? perfRecordSample).
        { pose proof (readRawSample_not_errEOR rd1) as Hne.
          destruct (readRawSample rd1) as [rd2 [sample err]]. exact (Hne Herr). }
        discriminate Herr.
  - (* an empty input is the end of the ring *)
    intros Hnil. unfold readRecord.
    destruct (binary_Read_truncated (bin := perfEventHeader_Binary) rd NativeEndian
                {| Type_ := 0; Misc := 0; Size := 0 |}) as (rd1 & Hread & _).
    + rewrite Hnil. simpl. lia.
    + rewrite Hread, Hnil. reflexivity.
  - split; [| split].
    + (* truncated Lost body *)
      intros hdr body Hrd Hlen Htype Hbody.
      destruct (readRecord_header rd cpu _ _ Hrd Hlen) as (rd1 & Hrd1 & ->).
      cbn [binary_decode perfEventHeader_Binary Type_]. rewrite Htype.
      change (perfRecordLost =? perfRecordLost) with true. cbv iota zeta.
      unfold readLostRecords.
      destruct (binary_Read_truncated (bin := lostHeader_Binary) rd1 NativeEndian
                  {| ID := 0; Lost := 0 |}) as (rd2 & -> & _).
      { rewrite Hrd1. exact Hbody. }
      eexists. split; [| reflexivity]. destruct (unread rd1); auto.
    + (* truncated size field of a Sample body *)
      intros hdr body Hrd Hlen Htype Hbody.
      destruct (readRecord_header rd cpu _ _ Hrd Hlen) as (rd1 & Hrd1 & ->).
      cbn [binary_decode perfEventHeader_Binary Type_]. rewrite Htype.
      change (perfRecordSample =? perfRecordLost) with false.
      change (perfRecordSample =? perfRecordSample) with true. cbv iota zeta.
      unfold readRawSample.
      destruct (binary_Read_truncated (bin := uint32_Binary) rd1 NativeEndian
                  {| u32 := 0 |}) as (rd2 & -> & _).
      { rewrite Hrd1. exact Hbody. }
      eexists. split; [| reflexivity]. destruct (unread rd1); auto.
    + (* fewer sample bytes than declared *)
      intros hdr size data Hrd Hlen Htype Hsize Hdata.
      destruct (readRecord_header rd cpu _ _ Hrd Hlen) as (rd1 & Hrd1 & ->).
      cbn [binary_decode perfEventHeader_Binary Type_]. rewrite Htype.
      change (perfRecordSample =? perfRecordLost) with false.
      change (perfRecordSample =? perfRecordSample) with true. cbv iota zeta.
      unfold readRawSample.
      destruct (binary_Read_ok (bin := uint32_Binary) rd1 NativeEndian {| u32 := 0 |}
                  _ _ Hrd1 Hsize) as (rd2 & -> & Hrd2).
      cbn [binary_decode uint32_Binary u32].
      rewrite take_ge by lia.
      set (buf := repeat Byte.x00 (Z.to_nat (order_Uint NativeEndian size))).
      assert (length data < length buf)%nat as Hlt.
      { subst buf. rewrite repeat_length. lia. }
      destruct data as [| b data].
      * destruct (io_ReadFull_empty rd2 buf Hrd2) as (rd3 & -> & _).
        { intros ->. simpl in Hlt. lia. }
        exists io_EOF. split; [auto | reflexivity].
      * destruct (io_ReadFull_short rd2 buf) as (rd3 & -> & _).
        { rewrite Hrd2. discriminate. }
        { rewrite Hrd2. exact Hlt. }
        exists io_ErrUnexpectedEOF. split; [auto | reflexivity].
Qed.
End DecoderFacts.

(** ** Construction *)

Section ConstructionFacts.
Lemma next_fault_quiet (w : World) : faults w = [] -> next_fault w = (w, None).
Proof. intros Hf. unfold next_fault. rewrite Hf. reflexivity. Qed.

(** C1 (amended): construction fails with the buffer-size error, returns no
    Reader and touches nothing whenever the per-CPU buffer size is below one.
    The declared max_entries is not examined: with no entries, a valid buffer
    size and every system call succeeding, a Reader without rings is returned. *)
Theorem NewReaderWithOptions_rejects_small_buffer :
  (forall (w : World) (array : Map) (perCPUBuffer : Z) (opts : ReaderOptions),
      perCPUBuffer < 1 ->
      NewReaderWithOptions w array perCPUBuffer opts
      = (w, (None, Some (errors_New "perCPUBuffer must be larger than 0"))))
  /\ (forall (w : World) (array : Map) (perCPUBuffer : Z) (opts : ReaderOptions),
        1 <= perCPUBuffer -> MaxEntries array < 1 -> faults w = [] ->
        exists w' pr,
          NewReaderWithOptions w array perCPUBuffer opts = (w', (Some pr, None))
          /\ rings pr = [] /\ pauseFds pr = Some []).
Proof.
  split.
  - intros w array perCPUBuffer opts Hsmall. unfold NewReaderWithOptions.
    destruct (Z.ltb_spec perCPUBuffer 1) as [_ | Hge]; [reflexivity | lia].
  - intros w array perCPUBuffer opts Hbuf Hentries Hquiet. unfold NewReaderWithOptions.
    destruct (Z.ltb_spec perCPUBuffer 1) as [Hlt | _]; [lia |].
    replace (Z.to_nat (MaxEntries array)) with 0%nat by lia.
    unfold unix_EpollCreate1, unix_Eventfd, addToEpoll, unix_EpollCtl_ADD, Map_Clone.
    rewrite (next_fault_quiet w Hquiet). cbn.
    do 3 (rewrite next_fault_quiet by exact Hquiet; cbn).
    eexists _, _. split; [reflexivity | split; reflexivity].
Qed.
End ConstructionFacts.

(** C1, as stated, fails: a routing table that declares no entries at all, with
    a buffer of 4096 bytes and every system call succeeding, yields a Reader. *)
Lemma NewReaderWithOptions_accepts_no_entries :
  MaxEntries {| MaxEntries := 0; map_fd := 0 |} < 1 /\
  exists w pr,
    NewReaderWithOptions quiet_world {| MaxEntries := 0; map_fd := 0 |}
      4096 {| Watermark := 0 |}
    = (w, (Some pr, None)).
Proof.
  split; [reflexivity |].
  eexists _, _. vm_compute. reflexivity.
Qed.

Lemma NewReaderWithOptions_rejects_small_buffer_witness :
  NewReaderWithOptions quiet_world {| MaxEntries := 2; map_fd := 0 |}
    0 {| Watermark := 0 |}
  = (quiet_world, (None, Some (errors_New "perCPUBuffer must be larger than 0"))).
Proof.
  apply (proj1 NewReaderWithOptions_rejects_small_buffer). lia.
Defined.

(** ** Close *)

Section CloseFacts.
Context {host : Host}.

Lemma trace_fold_ring_Close (rs : list nat) (w : World) :
  trace (fold_left ring_Close rs w) = trace w ++ map ring_close rs.
Proof.
  revert w. induction rs as [| a rs IH]; intros w; simpl.
  - now rewrite app_nil_r.
  - rewrite IH. unfold ring_Close. destruct (mem w !! a); simpl;
      now rewrite <- app_assoc.
Qed.

Lemma next_fault_trace (w : World) : trace (fst (next_fault w)) = trace w.
Proof. unfold next_fault. destruct (faults w); reflexivity. Qed.

Lemma Close_fired (w : World) (pr : Reader) :
  closeOnce pr = true -> Close w pr = (w, pr, None).
Proof. intros Hfired. unfold Close. rewrite Hfired. reflexivity. Qed.

(** *** The guard before Close

    The guard of a Reader has not fired when [NewReaderWithOptions] returns it,
    and [Read], [Pause] and [Resume] leave it alone: it fires in [Close] only. *)
Lemma Resume_keeps_Reader (w : World) (pr : Reader) : snd (fst (Resume w pr)) = pr.
Proof.
  unfold Resume. destruct (pauseFds pr) as [fds |]; [| reflexivity].
  destruct (Resume_loop w (array pr) fds 0). reflexivity.
Qed.

Lemma Pause_keeps_Reader (w : World) (pr : Reader) : snd (fst (Pause w pr)) = pr.
Proof.
  unfold Pause. destruct (pauseFds pr) as [fds |]; [| reflexivity].
  destruct (Pause_loop w (array pr) fds 0). reflexivity.
Qed.

Lemma NewReaderWithOptions_closeOnce (w w' : World) (array0 : Map) (perCPUBuffer : Z)
  (opts : ReaderOptions) (pr : Reader) (err : option error) :
  NewReaderWithOptions w array0 perCPUBuffer opts = (w', (Some pr, err)) ->
  closeOnce pr = false.
Proof.
  unfold NewReaderWithOptions.
  destruct (perCPUBuffer <? 1); [discriminate |].
  destruct (unix_EpollCreate1 w) as [w1 [epfd [e |]]]; [discriminate |].
  destruct (newRings w1 epfd perCPUBuffer (Watermark opts)
              (Z.to_nat (MaxEntries array0)) 0 [] []) as [w2 [[rs pfs] [e |]]];
    [discriminate |].
  destruct (unix_Eventfd w2) as [w3 [cfd [e |]]]; [discriminate |].
  destruct (addToEpoll w3 epfd cfd (-1)) as [w4 [e |]]; [discriminate |].
  destruct (Map_Clone w4 array0) as [w5 [array1 [e |]]]; [discriminate |].
  match goal with
  | |- context [Resume w5 ?pr0] =>
      pose proof (Resume_keeps_Reader w5 pr0) as Hpr6;
      destruct (Resume w5 pr0) as [[w6 pr6] [e |]]; [discriminate |];
      cbn [fst snd] in Hpr6; subst pr6
  end.
  match goal with
  | |- context [Resume w6 ?pr0] =>
      pose proof (Resume_keeps_Reader w6 pr0) as Hpr7;
      destruct (Resume w6 pr0) as [[w7 pr7] [e |]]; [discriminate |];
      cbn [fst snd] in Hpr7; subst pr7
  end.
  intros Hret. injection Hret as _ <- _. reflexivity.
Qed.

Lemma Read_events_closeOnce (events : list EpollEvent) :
  forall (w : World) (pr : Reader),
    closeOnce (snd (fst (Read_events w pr events))) = closeOnce pr.
Proof.
  induction events as [| event events IH]; intros w pr; cbn [Read_events];
    [reflexivity |].
  destruct (Fd event =? closeFd pr); [reflexivity |].
  destruct (if cpuForEvent event <? 0 then None
            else rings pr !! Z.to_nat (cpuForEvent event)) as [ring |];
    [| reflexivity].
  rewrite IH. reflexivity.
Qed.

Lemma Read_closeOnce (fuel : nat) :
  forall (w : World) (pr : Reader),
    closeOnce (snd (fst (Read fuel w pr))) = closeOnce pr.
Proof.
  assert (forall w pr, closeOnce (snd (fst (Read_wait w pr))) = closeOnce pr) as Hwait.
  { intros w pr. unfold Read_wait. destruct (epollRings pr); [| reflexivity].
    destruct (unix_EpollWait w (epollFd pr) (epollEvents pr))
      as [[w1 [[events n] err]] |]; [| reflexivity].
    destruct (isTemporary err); [reflexivity |].
    destruct err; [reflexivity |]. rewrite Read_events_closeOnce. reflexivity. }
  assert (forall w pr, closeOnce (snd (fst (Read_record w pr))) = closeOnce pr) as Hrec.
  { intros w pr. unfold Read_record. destruct (last (epollRings pr)); [| reflexivity].
    destruct (readRecordFromRing w n) as [[w1 [record [e |]]] |];
      [destruct e | |]; reflexivity. }
  assert (forall w pr, closeOnce (snd (fst (Read_loop fuel w pr))) = closeOnce pr)
    as Hloop.
  { induction fuel as [| fuel IH]; intros w pr; cbn [Read_loop]; [reflexivity |].
    specialize (Hwait w pr). destruct (Read_wait w pr) as [[w1 pr1] [| | o]];
      cbn [fst snd] in Hwait.
    - specialize (Hrec w1 pr1). destruct (Read_record w1 pr1) as [[w2 pr2] [| | o]];
        cbn [fst snd] in Hrec |- *; rewrite ?IH; congruence.
    - rewrite IH. exact Hwait.
    - exact Hwait. }
  intros w pr. unfold Read. destruct (epollFd pr =? -1); [reflexivity | apply Hloop].
Qed.

(** A first [Close] call that returns no error has torn the Reader down. *)
Lemma Close_torn_down (w w1 : World) (pr pr1 : Reader) :
  closeOnce pr = false -> Close w pr = (w1, pr1, None) ->
  closeOnce pr1 = true /\ epollFd pr1 = -1 /\ pauseFds pr1 = None
  /\ epollRings pr1 = epollRings pr.
Proof.
  intros Hfresh Hclose. unfold Close in Hclose. rewrite Hfresh in Hclose.
  unfold Close_once, unix_Write in Hclose. cbn in Hclose.
  destruct (next_fault w) as [w0 [e |]]; cbn in Hclose; [discriminate |].
  injection Hclose as <- <-. cbn. auto.
Qed.

(** C5 (amended): once the first [Close] call on a Reader (its guard has not
    fired before) has returned without an error, [Read], [Pause] and [Resume]
    return [errClosed], which [IsClosed] recognises, in every world and whatever
    rings are still on the pending stack; they leave the Reader and the world as
    they are, and a further [Close] returns no error and changes nothing, so
    this holds for every later call. *)
Theorem closed_reader_returns_errClosed (w w1 : World) (pr pr1 : Reader) :
  closeOnce pr = false ->
  Close w pr = (w1, pr1, None) ->
  forall w' : World,
    (forall fuel, Read fuel w' pr1 = (w', pr1, Returns (Record_zero, Some errClosed)))
    /\ Pause w' pr1 = (w', pr1, Some errClosed)
    /\ Resume w' pr1 = (w', pr1, Some errClosed)
    /\ Close w' pr1 = (w', pr1, None)
    /\ IsClosed (Some errClosed) = true
    /\ epollRings pr1 = epollRings pr.
Proof.
  intros Hfresh Hclose w'.
  destruct (Close_torn_down w w1 pr pr1 Hfresh Hclose)
    as (Hfired & Hfd & Hpause & Hstack).
  repeat split.
  - intros fuel. unfold Read. rewrite Hfd. reflexivity.
  - unfold Pause. rewrite Hpause. reflexivity.
  - unfold Resume. rewrite Hpause. reflexivity.
  - apply Close_fired, Hfired.
  - exact Hstack.
Qed.

(** *** Two goroutines in Close *)

Lemma unix_Write_ok (w : World) (fd : Z) (data : list byte) :
  snd (next_fault w) = None ->
  unix_Write w fd data = (emit (sys_write fd data) (fst (next_fault w)), None).
Proof.
  intros Hok. unfold unix_Write. destruct (next_fault w) as [w0 [e |]];
    [discriminate | reflexivity].
Qed.

Lemma steps_left_mono (n n' : nat) (p : Pc) :
  (n' <= n)%nat -> (steps_left n' p <= steps_left n p)%nat.
Proof. intros Hle. destruct p; simpl; lia. Qed.

(** Every step brings the two goroutines nearer to their return. *)
Lemma step_remaining (g : goroutine) (c c' : Config) :
  Close_step g c = Some c' -> (remaining c' < remaining c)%nat.
Proof.
  destruct c as [cw cr om m pm [pa ea] [pb eb]]. unfold Close_step, remaining.
  destruct g; cbn [frame pc frame_a frame_b cfg_reader cfg_world once_m mu pauseMu].
  - destruct pa; intros Hstep;
      repeat match type of Hstep with
             | context [match ?x with _ => _ end] => destruct x eqn:?
             end;
      try discriminate; injection Hstep as <-; cbn;
      try match goal with
          | Hi : _ !! _ = Some _ |- _ => apply lookup_lt_Some in Hi
          end;
      pose proof (steps_left_mono (length (rings cr)) 0 pb (Nat.le_0_l _));
      try lia.
  - destruct pb; intros Hstep;
      repeat match type of Hstep with
             | context [match ?x with _ => _ end] => destruct x eqn:?
             end;
      try discriminate; injection Hstep as <-; cbn;
      try match goal with
          | Hi : _ !! _ = Some _ |- _ => apply lookup_lt_Some in Hi
          end;
      pose proof (steps_left_mono (length (rings cr)) 0 pa (Nat.le_0_l _));
      try lia.
Qed.

Section TwoGoroutines.
Variables (w : World) (pr : Reader).
Hypothesis Hfresh : closeOnce pr = false.
Hypothesis Hwrite : snd (next_fault w) = None.

Lemma Close_invariant_start : Close_invariant w pr (Close_start w pr).
Proof.
  unfold Close_invariant, Close_start, idle. cbn. rewrite Hfresh. cbn. auto 10.
Qed.

Lemma world_at_ring_Close_next (i : nat) (ring : nat) :
  rings pr !! i = Some ring ->
  ring_Close (world_at w pr (at_ring_Close i)) ring = world_at w pr (at_ring_Close (S i)).
Proof.
  intros Hi. cbn [world_at]. rewrite (take_S_r _ _ _ Hi), fold_left_app. reflexivity.
Qed.

Lemma world_at_ring_Close_last (i : nat) :
  rings pr !! i = None ->
  world_at w pr (at_ring_Close i) = world_at w pr at_forget_rings.
Proof.
  intros Hi. cbn [world_at]. rewrite take_ge by (apply lookup_ge_None; exact Hi).
  reflexivity.
Qed.

Ltac case_step H :=
  repeat match type of H with
         | context [match ?x with _ => _ end] => destruct x eqn:?
         end;
  try discriminate H; try (injection H as <-).

(** The goroutine that runs the function takes its next step. *)
Ltac runner_step p Hin Ho Hstep :=
  destruct p; try discriminate Hin;
  cbn [world_at reader_at mu_at pauseMu_at closeOnce] in Hstep;
  rewrite ?Hfresh, ?(unix_Write_ok w _ _ Hwrite) in Hstep;
  case_step Hstep;
  unfold goto, set_frame, set_world, set_reader, set_once_m, set_mu, set_pauseMu;
  cbn [frame other frame_a frame_b pc local_err once_m cfg_reader cfg_world mu pauseMu
       closeOnce set_finalizer forget_fds forget_rings forget_pauseFds Once_done
       reader_at];
  rewrite ?Hfresh;
  cbn [frame other frame_a frame_b pc local_err once_m cfg_reader cfg_world mu pauseMu];
  unfold idle, leaving, settled;
  cbn [frame other frame_a frame_b pc local_err in_function mu_at pauseMu_at];
  repeat split; auto;
  try (destruct Ho as [-> | ->]; exact I);
  cbn [world_at]; rewrite ?(unix_Write_ok w _ _ Hwrite); cbn [fst];
  try reflexivity;
  try (erewrite take_S_r by eassumption; rewrite fold_left_app; reflexivity);
  try (rewrite take_ge by (apply lookup_ge_None; assumption); reflexivity).

(** The other goroutine takes a step meanwhile. *)
Ltac idle_step Ho Hdone Hstep :=
  destruct Ho as [-> | ->]; cbn in Hstep; rewrite ?Hdone in Hstep;
  try discriminate Hstep; injection Hstep as <-;
  unfold goto, set_frame;
  cbn [frame other frame_a frame_b pc local_err once_m cfg_reader cfg_world mu pauseMu];
  rewrite Hdone; unfold idle;
  cbn [frame other frame_a frame_b pc local_err];
  repeat split; auto.

Lemma Close_invariant_step (g : goroutine) (c c' : Config) :
  Close_invariant w pr c -> Close_step g c = Some c' -> Close_invariant w pr c'.
Proof.
  destruct c as [cw cr om m pm [pa ea] [pb eb]].
  unfold Close_invariant. cbn [once_m cfg_reader cfg_world mu pauseMu frame_a frame_b].
  destruct om as [h |]; destruct (closeOnce cr) eqn:Hdone.
  - (* the done flag is set, the mutex of the Once still held *)
    intros (-> & -> & -> & -> & Hh & Ho) Hstep.
    unfold leaving, settled in Hh, Ho.
    destruct h, g; cbn [frame other frame_a frame_b pc local_err] in Hh, Ho;
      destruct Hh as [-> [-> | ->]]; destruct Ho as [-> Ho];
      repeat match type of Ho with
             | match ?p with _ => _ end => destruct p; try contradiction
             end;
      cbn in Hstep; try discriminate Hstep; injection Hstep as <-;
      cbn; unfold leaving, settled; cbn; auto 10.
  - (* a goroutine is running the function *)
    cbv zeta. unfold idle.
    destruct h; cbn [frame other frame_a frame_b pc local_err];
      intros (Hin & -> & -> & -> & -> & -> & [-> Ho]) Hstep;
      (destruct g; unfold Close_step in Hstep;
       cbn [frame other frame_a frame_b pc local_err once_m cfg_reader cfg_world mu pauseMu]
         in Hstep).
    + runner_step pa Hin Ho Hstep.
    + idle_step Ho Hdone Hstep.
    + idle_step Ho Hdone Hstep.
    + runner_step pb Hin Ho Hstep.
  - (* the function has been run, the mutex of the Once is free *)
    unfold settled. cbn [pc local_err].
    intros (-> & -> & -> & -> & [-> Ha] & [-> Hb]) Hstep.
    destruct g; unfold Close_step in Hstep;
      cbn [frame frame_a frame_b pc local_err once_m cfg_reader] in Hstep.
    + destruct pa as [| | | | | | | | | | | | | | | | | | | [e |]]; try contradiction;
        cbn in Hstep; try discriminate Hstep; injection Hstep as <-; cbn;
        unfold leaving, settled; cbn; auto 10.
    + destruct pb as [| | | | | | | | | | | | | | | | | | | [e |]]; try contradiction;
        cbn in Hstep; try discriminate Hstep; injection Hstep as <-; cbn;
        unfold leaving, settled; cbn; auto 10.
  - (* no goroutine has taken the mutex of the Once yet *)
    unfold idle. cbn [pc local_err].
    intros (-> & -> & -> & -> & [-> Ha] & [-> Hb]) Hstep.
    destruct g; unfold Close_step in Hstep;
      cbn [frame frame_a frame_b pc local_err once_m cfg_reader] in Hstep.
    + destruct Ha as [-> | ->]; rewrite ?Hfresh in Hstep; injection Hstep as <-;
        cbn; rewrite Hfresh; unfold idle; cbn; auto 10.
    + destruct Hb as [-> | ->]; rewrite ?Hfresh in Hstep; injection Hstep as <-;
        cbn; rewrite Hfresh; unfold idle; cbn; auto 10.
Qed.
Lemma Close_invariant_run (s : list goroutine) :
  forall c : Config, Close_invariant w pr c -> Close_invariant w pr (Close_run s c).
Proof.
  induction s as [| g s IH]; intros c Hinv; cbn [Close_run]; [exact Hinv |].
  apply IH. destruct (Close_step g c) as [c' |] eqn:Hstep; [| exact Hinv].
  exact (Close_invariant_step g c c' Hinv Hstep).
Qed.

(** One call of [Close] on its own ends where the goroutines end. *)
Lemma Close_world_at_return :
  Close w pr = (world_at w pr at_return, reader_at pr at_return, None).
Proof.
  unfold Close, Close_once. rewrite Hfresh.
  cbn [closeFd set_finalizer world_at reader_at].
  rewrite (unix_Write_ok w _ _ Hwrite). reflexivity.
Qed.

(** What has been logged when the running goroutine is at [p] is the log of
    the teardown up to some point. *)
Lemma world_at_trace (p : Pc) :
  exists done todo,
    trace (world_at w pr p) = trace w ++ done /\ done ++ todo = teardown pr.
Proof.
  set (wr := sys_write (closeFd pr) (order_PutUint NativeEndian 8 1)).
  set (c1 := sys_close (epollFd pr)). set (c2 := sys_close (closeFd pr)).
  set (mc := map_close (map_fd (array pr))).
  assert (forall rs,
             trace (fold_left ring_Close rs
                      (unix_Close (unix_Close
                         (fst (unix_Write w (closeFd pr) (order_PutUint NativeEndian 8 1)))
                         (epollFd pr)) (closeFd pr)))
             = trace w ++ [wr; c1; c2] ++ map ring_close rs) as Hrings.
  { intros rs. rewrite trace_fold_ring_Close, (unix_Write_ok w _ _ Hwrite).
    cbn. rewrite next_fault_trace, <- !app_assoc. reflexivity. }
  assert (trace (world_at w pr at_return) = trace w ++ teardown pr) as Hall.
  { cbn [world_at]. unfold Map_Close. cbn [emit trace]. rewrite Hrings.
    unfold teardown. rewrite <- !app_assoc. reflexivity. }
  assert (trace (fst (unix_Write w (closeFd pr) (order_PutUint NativeEndian 8 1)))
          = trace w ++ [wr]) as Hwr.
  { rewrite (unix_Write_ok w _ _ Hwrite). cbn. rewrite next_fault_trace. reflexivity. }
  destruct p;
    try (exists [], (teardown pr); rewrite app_nil_r; split; reflexivity);
    try (exists (teardown pr), []; rewrite app_nil_r; split; [exact Hall | reflexivity]);
    try (exists [wr], ([c1; c2] ++ map ring_close (rings pr) ++ [mc]);
         split; [exact Hwr | reflexivity]).
  - exists [wr; c1], ([c2] ++ map ring_close (rings pr) ++ [mc]).
    cbn [world_at]. unfold unix_Close. cbn [emit trace]. rewrite Hwr, <- app_assoc.
    split; reflexivity.
  - exists [wr; c1; c2], (map ring_close (rings pr) ++ [mc]).
    cbn [world_at]. unfold unix_Close. cbn [emit trace]. rewrite Hwr, <- !app_assoc.
    split; reflexivity.
  - exists ([wr; c1; c2] ++ map ring_close (take i (rings pr))),
      (map ring_close (drop i (rings pr)) ++ [mc]).
    cbn [world_at]. rewrite Hrings. split; [reflexivity |].
    unfold teardown. rewrite <- !app_assoc. do 3 (cbn [app]; f_equal).
    rewrite app_assoc, <- map_app, take_drop. reflexivity.
  - exists ([wr; c1; c2] ++ map ring_close (rings pr)), [mc].
    cbn [world_at]. rewrite Hrings. split; [reflexivity |].
    unfold teardown. rewrite <- !app_assoc. reflexivity.
  - exists ([wr; c1; c2] ++ map ring_close (rings pr)), [mc].
    cbn [world_at]. rewrite Hrings. split; [reflexivity |].
    unfold teardown. rewrite <- !app_assoc. reflexivity.
  - exists ([wr; c1; c2] ++ map ring_close (rings pr)), [mc].
    cbn [world_at]. rewrite Hrings. split; [reflexivity |].
    unfold teardown. rewrite <- !app_assoc. reflexivity.
Qed.

Lemma Close_invariant_trace (c : Config) :
  Close_invariant w pr c ->
  exists done todo,
    trace (cfg_world c) = trace w ++ done /\ done ++ todo = teardown pr.
Proof.
  unfold Close_invariant.
  destruct (once_m c) as [h |]; destruct (closeOnce (cfg_reader c)).
  - intros (-> & _). apply world_at_trace.
  - cbv zeta. intros (_ & _ & -> & _). apply world_at_trace.
  - intros (-> & _). apply world_at_trace.
  - intros (-> & _). exists [], (teardown pr). rewrite app_nil_r. split; reflexivity.
Qed.

Lemma Close_invariant_result (c : Config) (g : goroutine) (e : option error) :
  Close_invariant w pr c -> result_of c g = Some e -> e = None.
Proof.
  destruct c as [cw cr om m pm [pa ea] [pb eb]].
  unfold Close_invariant, result_of, idle, leaving, settled.
  cbn [once_m cfg_reader cfg_world mu pauseMu frame_a frame_b].
  destruct om as [h |]; destruct (closeOnce cr); cbv zeta.
  - intros (_ & _ & _ & _ & [_ Hh] & [_ Ho]) Hres.
    destruct h, g; cbn [frame other frame_a frame_b pc] in Hh, Ho, Hres;
      try (destruct Hh as [-> | ->]; discriminate Hres).
    + destruct pb as [| | | | | | | | | | | | | | | | | | | [r |]];
        try contradiction; try discriminate Hres. injection Hres as <-. reflexivity.
    + destruct pa as [| | | | | | | | | | | | | | | | | | | [r |]];
        try contradiction; try discriminate Hres. injection Hres as <-. reflexivity.
  - intros (Hin & _ & _ & _ & _ & _ & _ & Ho) Hres.
    destruct h, g; cbn [frame other frame_a frame_b pc] in Hin, Ho, Hres;
      try (destruct Ho as [-> | ->]; discriminate Hres).
    + destruct pa; try discriminate Hres. discriminate Hin.
    + destruct pb; try discriminate Hres. discriminate Hin.
  - intros (_ & _ & _ & _ & [_ Ha] & [_ Hb]) Hres.
    destruct g; cbn [frame frame_a frame_b pc] in Hres.
    + destruct pa as [| | | | | | | | | | | | | | | | | | | [r |]];
        try contradiction; try discriminate Hres. injection Hres as <-. reflexivity.
    + destruct pb as [| | | | | | | | | | | | | | | | | | | [r |]];
        try contradiction; try discriminate Hres. injection Hres as <-. reflexivity.
  - intros (_ & _ & _ & _ & [_ Ha] & [_ Hb]) Hres. cbn [pc] in Ha, Hb.
    destruct g; cbn [frame frame_a frame_b pc] in Hres.
    + destruct Ha as [-> | ->]; discriminate Hres.
    + destruct Hb as [-> | ->]; discriminate Hres.
Qed.

Lemma Close_invariant_returned (c : Config) :
  Close_invariant w pr c -> both_returned c = true ->
  cfg_world c = world_at w pr at_return /\ cfg_reader c = reader_at pr at_return.
Proof.
  destruct c as [cw cr om m pm [pa ea] [pb eb]].
  unfold Close_invariant, both_returned, result_of, idle, leaving.
  cbn [once_m cfg_reader cfg_world mu pauseMu frame frame_a frame_b pc].
  destruct om as [h |]; destruct (closeOnce cr); cbv zeta.
  - intros (-> & -> & _). auto.
  - intros (Hin & _ & _ & _ & _ & _ & _ & Ho) Hboth.
    destruct h; cbn [frame other frame_a frame_b pc] in Hin, Ho;
      destruct pa, pb; try discriminate Hin; try discriminate Hboth;
      destruct Ho; discriminate.
  - intros (-> & -> & _). auto.
  - intros (_ & _ & _ & _ & [_ Ha] & _) Hboth. cbn [pc] in Ha.
    destruct Ha as [-> | ->]; discriminate.
Qed.

(** Unless both have returned, one of the goroutines can take a step. *)
Lemma Close_invariant_progress (c : Config) :
  Close_invariant w pr c -> both_returned c = false ->
  exists g c', Close_step g c = Some c'.
Proof.
  destruct c as [cw cr om m pm [pa ea] [pb eb]].
  unfold Close_invariant, both_returned, result_of, idle, leaving, settled.
  cbn [once_m cfg_reader cfg_world mu pauseMu frame frame_a frame_b pc].
  destruct om as [h |]; destruct (closeOnce cr) eqn:Hdone; cbv zeta.
  - intros (_ & _ & _ & _ & [_ Hh] & _) _. exists h.
    destruct h; cbn [frame other frame_a frame_b pc] in Hh; destruct Hh as [-> | ->];
      unfold Close_step; cbn [frame frame_a frame_b pc]; eauto.
  - intros (Hin & _ & _ & _ & -> & -> & _) _. exists h.
    destruct h; cbn [frame other frame_a frame_b pc] in Hin |- *; unfold Close_step;
      cbn [frame frame_a frame_b pc mu pauseMu cfg_world cfg_reader].
    + destruct pa; try discriminate Hin; cbn [mu_at pauseMu_at];
        repeat match goal with
               | |- context [match ?x with _ => _ end] => destruct x
               end; eauto.
    + destruct pb; try discriminate Hin; cbn [mu_at pauseMu_at];
        repeat match goal with
               | |- context [match ?x with _ => _ end] => destruct x
               end; eauto.
  - intros (_ & _ & _ & _ & [_ Ha] & [_ Hb]) Hboth.
    destruct pa as [| | | | | | | | | | | | | | | | | | | [r |]]; try contradiction;
      try (exists caller_a; unfold Close_step; cbn; eauto; fail).
    destruct pb as [| | | | | | | | | | | | | | | | | | | [r |]]; try contradiction;
      try (exists caller_b; unfold Close_step; cbn; eauto; fail).
    discriminate Hboth.
  - intros (_ & _ & _ & _ & [_ Ha] & _) _. exists caller_a.
    destruct Ha as [-> | ->]; unfold Close_step; cbn; eauto.
Qed.
End TwoGoroutines.

(** C6 (amended): [Close] on a Reader whose guard has not fired.  If the write
    that signals the close descriptor fails, the call returns the write error,
    wrapped.  If it succeeds, the call returns no error and has logged the
    teardown once (the signal, the close of the epoll and close descriptors, of
    every ring and of the array), and a second call after it returns no error
    and changes nothing.  The same from two goroutines that call [Close] at
    once, under every schedule: what has been logged is at every moment a
    beginning of that one teardown, no goroutine is returned an error, once both
    have returned the world and the Reader are those that a single call leaves,
    and until then one of them can take a step, every step bringing the return
    nearer. *)
Theorem Close_twice_runs_teardown_once (w : World) (pr : Reader) :
  closeOnce pr = false ->
  let '(w1, pr1, err1) := Close w pr in
  match snd (next_fault w) with
  | Some e =>
      err1 = Some (Wrapped (Wrapped e "can't write event fd") "close PerfReader")
  | None =>
      err1 = None /\ trace w1 = trace w ++ teardown pr
      /\ Close w1 pr1 = (w1, pr1, None)
      /\ forall s : list goroutine,
           let c := Close_run s (Close_start w pr) in
           (exists done todo,
               trace (cfg_world c) = trace w ++ done /\ done ++ todo = teardown pr)
           /\ (forall g e, result_of c g = Some e -> e = None)
           /\ (both_returned c = true -> cfg_world c = w1 /\ cfg_reader c = pr1)
           /\ (both_returned c = false -> exists g c', Close_step g c = Some c')
           /\ (forall g c', Close_step g c = Some c' ->
                 (remaining c' < remaining c)%nat)
  end.
Proof.
  intros Hfresh. destruct (snd (next_fault w)) as [e |] eqn:Hwrite.
  - unfold Close, Close_once, unix_Write. rewrite Hfresh. cbn.
    destruct (next_fault w) as [w0 f]. cbn in Hwrite. subst f. reflexivity.
  - rewrite (Close_world_at_return w pr Hfresh Hwrite).
    split; [reflexivity |]. split.
    { destruct (world_at_trace w pr Hwrite at_return) as (done & todo & Hdone & Hall).
      cbn [world_at] in Hdone |- *. unfold Map_Close. cbn [emit trace].
      rewrite trace_fold_ring_Close, (unix_Write_ok w _ _ Hwrite). cbn.
      rewrite next_fault_trace. unfold teardown. rewrite <- !app_assoc. reflexivity. }
    split; [apply Close_fired; reflexivity |].
    intros s. cbv zeta.
    pose proof (Close_invariant_run w pr Hfresh Hwrite s _
                  (Close_invariant_start w pr Hfresh)) as Hinv.
    split; [exact (Close_invariant_trace w pr Hwrite _ Hinv) |].
    split; [intros g e; exact (Close_invariant_result w pr _ g e Hinv) |].
    split; [exact (Close_invariant_returned w pr _ Hinv) |].
    split; [exact (Close_invariant_progress w pr _ Hinv) |].
    intros g c'. apply step_remaining.
Qed.
End CloseFacts.

Lemma closed_reader_returns_errClosed_witness :
  Pause two_cpu_world (snd (fst (Close (host := little) two_cpu_world two_cpu_reader)))
  = (two_cpu_world, snd (fst (Close (host := little) two_cpu_world two_cpu_reader)),
     Some errClosed).
Proof.
  apply (closed_reader_returns_errClosed (host := little) two_cpu_world
           (fst (fst (Close (host := little) two_cpu_world two_cpu_reader)))
           two_cpu_reader).
  - reflexivity.
  - vm_compute. reflexivity.
Defined.

(** C5, as stated, fails: in a world where the write to the close descriptor
    fails, the first [Close] returns with an error and a second [Close] returns
    without one, and after either of them [Pause] and [Resume] return no error
    and [Read] waits for events as before. *)
Lemma Close_returned_reader_still_open :
  let '(w1, pr1, err1) := Close (host := little) failing_world two_cpu_reader in
  let '(w2, pr2, err2) := Close (host := little) w1 pr1 in
  err1 <> None /\ err2 = None
  /\ snd (Pause w1 pr1) = None /\ snd (Resume w1 pr1) = None
  /\ snd (Read (host := little) 4 w1 pr1) = Blocks
  /\ snd (Pause w2 pr2) = None /\ snd (Resume w2 pr2) = None
  /\ snd (Read (host := little) 4 w2 pr2) = Blocks
  /\ IsClosed (snd (Pause w2 pr2)) = false.
Proof. vm_compute. repeat split; discriminate. Qed.

(** C6, as stated, fails: when the signalling write fails, the first of two
    [Close] calls returns an error and no teardown is ever performed. *)
Lemma Close_twice_signal_fails :
  let '(w1, pr1, err1) := Close (host := little) failing_world two_cpu_reader in
  let '(w2, pr2, err2) := Close (host := little) w1 pr1 in
  err1 = Some (Wrapped (Wrapped (Errno EBADF) "can't write event fd") "close PerfReader")
  /\ err2 = None
  /\ trace w2 = trace failing_world
  /\ epollFd pr2 <> -1.
Proof. vm_compute. repeat split; discriminate. Qed.

Lemma Close_twice_runs_teardown_once_witness :
  let '(w1, pr1, err1) := Close (host := little) two_cpu_world two_cpu_reader in
  let c := Close_run (host := little) taking_turns
             (Close_start two_cpu_world two_cpu_reader) in
  err1 = None
  /\ trace w1 = trace two_cpu_world ++ teardown (host := little) two_cpu_reader
  /\ Close (host := little) w1 pr1 = (w1, pr1, None)
  /\ result_of c caller_a = Some None /\ result_of c caller_b = Some None
  /\ cfg_world c = w1 /\ cfg_reader c = pr1.
Proof.
  pose proof (Close_twice_runs_teardown_once (host := little) two_cpu_world
                two_cpu_reader eq_refl) as Htwice.
  destruct (Close (host := little) two_cpu_world two_cpu_reader) as [[w1 pr1] err1].
  change (snd (next_fault two_cpu_world)) with (@None error) in Htwice.
  destruct Htwice as (Herr & Htrace & Hagain & Hboth).
  destruct (Hboth taking_turns) as (_ & _ & Hend & _).
  cbv zeta in Hend |- *.
  repeat split; try assumption; try reflexivity; apply Hend; reflexivity.
Defined.

(** ** Read *)

Section ReadLoopFacts.
Context {host : Host}.

Lemma isTemporary_errors_Wrap (err : option error) (msg : string) :
  isTemporary (errors_Wrap err msg) = false.
Proof. destruct err; reflexivity. Qed.

Lemma readLostRecords_not_temporary {R} `{io_Reader R} (rd : R) :
  isTemporary (snd (snd (readLostRecords rd))) = false.
Proof.
  unfold readLostRecords.
  destruct (binary_Read rd NativeEndian {| ID := 0; Lost := 0 |}) as [rd1 [d [e |]]];
    reflexivity.
Qed.

Lemma readRawSample_not_temporary {R} `{io_Reader R} (rd : R) :
  isTemporary (snd (snd (readRawSample rd))) = false.
Proof.
  unfold readRawSample.
  destruct (binary_Read rd NativeEndian {| u32 := 0 |}) as [rd1 [d [e |]]];
    [reflexivity |].
  destruct (io_ReadFull rd1 _) as [rd2 [data err]]. cbn.
  apply isTemporary_errors_Wrap.
Qed.

(** No error of the decoder is a temporary one. *)
Lemma readRecord_not_temporary {R} `{io_Reader R} (rd : R) (cpu : Z) :
  isTemporary (snd (snd (readRecord rd cpu))) = false.
Proof.
  unfold readRecord.
  destruct (binary_Read rd NativeEndian {| Type_ := 0; Misc := 0; Size := 0 |})
    as [rd1 [header [e |]]].
  - destruct e; reflexivity.
  - destruct (Type_ header =? perfRecordLost).
    { pose proof (readLostRecords_not_temporary rd1) as Hlost.
      destruct (readLostRecords rd1) as [rd2 [lost err]]. exact Hlost. }
    destruct (Type_ header =? perfRecordSample).
    { pose proof (readRawSample_not_temporary rd1) as Hsample.
      destruct (readRawSample rd1) as [rd2 [sample err]]. exact Hsample. }
    reflexivity.
Qed.

(** The loop over the ready descriptors only ever returns [errClosed]. *)
Lemma Read_events_returns (events : list EpollEvent) :
  forall w pr w' pr' record err,
    Read_events w pr events = (w', pr', Exit (Returns (record, err))) ->
    record = Record_zero /\ err = Some errClosed.
Proof.
  induction events as [| event events IH]; intros w pr w' pr' record err Hev;
    simpl in Hev; [discriminate |].
  destruct (Fd event =? closeFd pr).
  - injection Hev as _ _ <- <-. auto.
  - destruct (if cpuForEvent event <? 0 then None
              else rings pr !! Z.to_nat (cpuForEvent event)) as [ring |];
      [| discriminate].
    exact (IH _ _ _ _ _ _ Hev).
Qed.

Lemma Read_wait_returns (w w' : World) (pr pr' : Reader) record err :
  Read_wait w pr = (w', pr', Exit (Returns (record, err))) ->
  isTemporary err = false.
Proof.
  unfold Read_wait. destruct (epollRings pr); [| discriminate].
  destruct (unix_EpollWait w (epollFd pr) (epollEvents pr))
    as [[w1 [[events nEvents] werr]] |]; [| discriminate].
  destruct (isTemporary werr) eqn:Htemp; [discriminate |].
  destruct werr as [e |].
  - intros Hret. injection Hret as _ _ _ <-. exact Htemp.
  - intros Hret. apply Read_events_returns in Hret as [_ ->]. reflexivity.
Qed.

Lemma Read_record_returns (w w' : World) (pr pr' : Reader) record err :
  Read_record w pr = (w', pr', Exit (Returns (record, err))) ->
  isTemporary err = false.
Proof.
  unfold Read_record. destruct (last (epollRings pr)) as [ring |]; [| discriminate].
  unfold readRecordFromRing. destruct (mem w !! ring) as [r |]; [| discriminate].
  pose proof (readRecord_not_temporary r (ring.cpu r)) as Hdec.
  destruct (readRecord r (ring.cpu r)) as [r1 [rec derr]]. cbn in Hdec |- *.
  destruct derr as [e |].
  - destruct e; intros Hret; try discriminate Hret;
      injection Hret as _ _ _ <-; exact Hdec.
  - intros Hret. injection Hret as _ _ _ <-. reflexivity.
Qed.

Lemma Read_loop_returns (fuel : nat) :
  forall w pr w' pr' record err,
    Read_loop fuel w pr = (w', pr', Returns (record, err)) ->
    isTemporary err = false.
Proof.
  induction fuel as [| fuel IH]; intros w pr w' pr' record err Hloop;
    simpl in Hloop; [discriminate |].
  destruct (Read_wait w pr) as [[w1 pr1] [| | o]] eqn:Hwait.
  - destruct (Read_record w1 pr1) as [[w2 pr2] [| | o]] eqn:Hrec.
    + exact (IH _ _ _ _ _ _ Hloop).
    + exact (IH _ _ _ _ _ _ Hloop).
    + injection Hloop as -> -> ->. exact (Read_record_returns _ _ _ _ _ _ Hrec).
  - exact (IH _ _ _ _ _ _ Hloop).
  - injection Hloop as -> -> ->. exact (Read_wait_returns _ _ _ _ _ _ Hwait).
Qed.

Lemma set_epollEvents_same (pr : Reader) : set_epollEvents (epollEvents pr) pr = pr.
Proof. destruct pr; reflexivity. Qed.

(** C7: whatever [Read] returns, its error is not a temporary one; and a wait
    that comes back with a temporary errno is followed by another pass through
    the loop, so the call comes to what it comes to on the answers that
    follow. *)
Theorem Read_absorbs_temporary_wait_errors :
  (forall fuel w pr w' pr' record err,
      Read fuel w pr = (w', pr', Returns (record, err)) -> isTemporary err = false)
  /\ (forall fuel w pr errno ws,
        epollFd pr <> -1 -> epollRings pr = [] ->
        waits w = wait_err errno :: ws -> Errno_Temporary errno = true ->
        Read (S fuel) w pr
        = Read fuel (emit (sys_epoll_wait (epollFd pr)) (with_waits ws w)) pr).
Proof.
  split.
  - intros fuel w pr w' pr' record err. unfold Read.
    destruct (epollFd pr =? -1).
    + intros Hret. injection Hret as _ _ _ <-. reflexivity.
    + apply Read_loop_returns.
  - intros fuel w pr errno ws Hopen Hstack Hwaits Htemp. unfold Read.
    destruct (Z.eqb_spec (epollFd pr) (-1)) as [Hclosed | _]; [contradiction |].
    cbn [Read_loop]. unfold Read_wait, unix_EpollWait.
    rewrite Hstack, Hwaits. cbn [isTemporary]. rewrite Htemp.
    rewrite set_epollEvents_same. reflexivity.
Qed.
End ReadLoopFacts.

(** ** An unknown record type and the pending stack *)
Section UnknownEventFacts.
Context {host : Host}.

Section AnyReader.
Context {R : Type} {reader : io_Reader R}.

Lemma io_ReadFull_ok_exact (rd : R) (buf bs rest : list byte) :
  unread rd = bs ++ rest -> length bs = length buf -> buf <> [] ->
  io_ReadFull rd buf = (consume (length buf) rd, (bs, None)).
Proof.
  intros Hrd Hlen Hbuf. unfold io_ReadFull.
  assert (length buf <> 0%nat) as Hnz by (destruct buf; [contradiction | discriminate]).
  destruct (Nat.eqb_spec (length buf) 0) as [Hz | _]; [contradiction |].
  rewrite Hrd, <- Hlen, take_app_length.
  destruct (Nat.eqb_spec (length bs) 0) as [Hz | _]; [lia |].
  rewrite Nat.ltb_irrefl, drop_ge, app_nil_r by lia. reflexivity.
Qed.

(** The only errors of [io.ReadFull] on an in-memory reader. *)
Lemma io_ReadFull_err (rd : R) (buf : list byte) :
  IsUnknownEvent (snd (snd (io_ReadFull rd buf))) = false.
Proof.
  unfold io_ReadFull.
  destruct (length buf =? 0)%nat; [reflexivity |].
  destruct (length (take (length buf) (unread rd)) =? 0)%nat; [reflexivity |].
  destruct (length (take (length buf) (unread rd)) <? length buf)%nat; reflexivity.
Qed.

Lemma binary_Read_err {T} `{Binary T} (rd : R) (o : ByteOrder) (d : T) :
  IsUnknownEvent (snd (snd (binary_Read rd o d))) = false.
Proof.
  unfold binary_Read.
  pose proof (io_ReadFull_err rd (repeat Byte.x00 binary_Size)) as Herr.
  destruct (io_ReadFull rd _) as [rd1 [bs [e |]]]; [exact Herr | reflexivity].
Qed.

Lemma IsUnknownEvent_errors_Wrap (err : option error) (msg : string) :
  IsUnknownEvent (errors_Wrap err msg) = IsUnknownEvent err.
Proof. destruct err; reflexivity. Qed.

Lemma readLostRecords_not_unknown (rd : R) :
  IsUnknownEvent (snd (snd (readLostRecords rd))) = false.
Proof.
  unfold readLostRecords.
  pose proof (binary_Read_err rd NativeEndian {| ID := 0; Lost := 0 |}) as Herr.
  destruct (binary_Read rd NativeEndian {| ID := 0; Lost := 0 |}) as [rd1 [d [e |]]];
    [exact Herr | reflexivity].
Qed.

Lemma readRawSample_not_unknown (rd : R) :
  IsUnknownEvent (snd (snd (readRawSample rd))) = false.
Proof.
  unfold readRawSample.
  pose proof (binary_Read_err rd NativeEndian {| u32 := 0 |}) as Herr.
  destruct (binary_Read rd NativeEndian {| u32 := 0 |}) as [rd1 [d [e |]]];
    [exact Herr |].
  pose proof (io_ReadFull_err rd1 (repeat Byte.x00 (Z.to_nat (u32 d)))) as Hfull.
  destruct (io_ReadFull rd1 _) as [rd2 [data err]]. cbn in Hfull |- *.
  now rewrite IsUnknownEvent_errors_Wrap.
Qed.

(** With the header there, [readRecord] moves eight bytes on and looks at
    the type. *)
Lemma readRecord_header_exact (rd : R) (cpu : Z) (hdr rest : list byte) :
  unread rd = hdr ++ rest -> length hdr = 8%nat ->
  readRecord rd cpu =
    let header : perfEventHeader := binary_decode NativeEndian hdr in
    if Type_ header =? perfRecordLost then
      let '(rd, (lost, err)) := readLostRecords (consume 8 rd) in
      (rd, ({| CPU := cpu; RawSample := []; LostSamples := lost |}, err))
    else if Type_ header =? perfRecordSample then
      let '(rd, (sample, err)) := readRawSample (consume 8 rd) in
      (rd, ({| CPU := cpu; RawSample := sample; LostSamples := 0 |}, err))
    else
      (consume 8 rd, (Record_zero, Some (unknownEventError (Type_ header)))).
Proof.
  intros Hrd Hlen. unfold readRecord, binary_Read.
  rewrite (io_ReadFull_ok_exact rd _ hdr rest Hrd); [reflexivity | | discriminate].
  rewrite repeat_length. exact Hlen.
Qed.

(** An unknown-event error of [readRecord] can only come from a complete
    header whose type is neither Lost nor Sample; nothing but the header has
    been taken from the reader then. *)
Lemma readRecord_unknown_inv (rd : R) (cpu : Z) :
  IsUnknownEvent (snd (snd (readRecord rd cpu))) = true ->
  let type := order_Uint NativeEndian (take 4 (unread rd)) in
  (8 <= length (unread rd))%nat
  /\ type <> perfRecordLost /\ type <> perfRecordSample
  /\ readRecord rd cpu = (consume 8 rd, (Record_zero, Some (unknownEventError type))).
Proof.
  intros Hunk.
  destruct (Nat.lt_ge_cases (length (unread rd)) 8) as [Hshort | Hlong].
  - exfalso. unfold readRecord in Hunk.
    destruct (binary_Read_truncated (bin := perfEventHeader_Binary) rd NativeEndian
                {| Type_ := 0; Misc := 0; Size := 0 |} Hshort) as (rd1 & Hread & _).
    rewrite Hread in Hunk. destruct (unread rd); discriminate Hunk.
  - assert (unread rd = take 8 (unread rd) ++ drop 8 (unread rd)) as Hsplit
        by (symmetry; apply take_drop).
    assert (length (take 8 (unread rd)) = 8%nat) as Hlen
        by (rewrite length_take; lia).
    rewrite (readRecord_header_exact rd cpu _ _ Hsplit Hlen) in Hunk |- *.
    cbn [binary_decode perfEventHeader_Binary Type_] in Hunk |- *.
    rewrite take_take in Hunk |- *. change (4 `min` 8)%nat with 4%nat in Hunk |- *.
    cbv zeta in Hunk |- *.
    destruct (Z.eqb_spec (order_Uint NativeEndian (take 4 (unread rd))) perfRecordLost)
      as [Hl | Hl].
    { exfalso. pose proof (readLostRecords_not_unknown (consume 8 rd)) as Hne.
      destruct (readLostRecords (consume 8 rd)) as [rd2 [lost err]].
      cbn in Hunk, Hne. congruence. }
    destruct (Z.eqb_spec (order_Uint NativeEndian (take 4 (unread rd))) perfRecordSample)
      as [Hs | Hs].
    { exfalso. pose proof (readRawSample_not_unknown (consume 8 rd)) as Hne.
      destruct (readRawSample (consume 8 rd)) as [rd2 [sample err]].
      cbn in Hunk, Hne. congruence. }
    auto.
Qed.
End AnyReader.

Lemma Read_wait_pending (w : World) (pr : Reader) :
  epollRings pr <> [] -> Read_wait w pr = (w, pr, Proceed).
Proof.
  intros Hstack. unfold Read_wait. destruct (epollRings pr); [contradiction | reflexivity].
Qed.

Lemma unix_EpollWait_err (w w1 : World) (epfd nEvents : Z)
  (events events1 : list EpollEvent) (e : error) :
  unix_EpollWait w epfd events = Some (w1, (events1, nEvents, Some e)) ->
  exists errno, e = Errno errno.
Proof.
  unfold unix_EpollWait. destruct (waits w) as [| [errno | ready] ws];
    intros Hwait; [discriminate | | discriminate].
  injection Hwait as _ _ _ <-. eauto.
Qed.

Lemma Read_wait_not_unknown (w w' : World) (pr pr' : Reader) record err :
  Read_wait w pr = (w', pr', Exit (Returns (record, err))) ->
  IsUnknownEvent err = false.
Proof.
  unfold Read_wait. destruct (epollRings pr); [| discriminate].
  destruct (unix_EpollWait w (epollFd pr) (epollEvents pr))
    as [[w1 [[events nEvents] werr]] |] eqn:Hwait; [| discriminate].
  destruct (isTemporary werr); [discriminate |].
  destruct werr as [e |].
  - apply unix_EpollWait_err in Hwait as [errno ->].
    intros Hret. injection Hret as _ _ _ <-. reflexivity.
  - intros Hret. apply Read_events_returns in Hret as [_ ->]. reflexivity.
Qed.

(** When the decoding step returns, it has read from the ring on top of the
    stack and has left the Reader, its stack included, as it was. *)
Lemma Read_record_exit (w w' : World) (pr pr' : Reader) record err :
  Read_record w pr = (w', pr', Exit (Returns (record, err))) ->
  pr' = pr /\ exists ring,
    last (epollRings pr) = Some ring
    /\ readRecordFromRing w ring = Some (w', (record, err)).
Proof.
  unfold Read_record. destruct (last (epollRings pr)) as [ring |]; [| discriminate].
  destruct (readRecordFromRing w ring) as [[w1 [rec derr]] |] eqn:Hring;
    [| discriminate].
  destruct derr as [e |].
  - destruct e; intros Hret; try discriminate Hret;
      injection Hret as <- <- <- <-; eauto.
  - intros Hret. injection Hret as <- <- <- <-. eauto.
Qed.

Lemma readRecordFromRing_unknown (w w' : World) (ring : nat) record err :
  readRecordFromRing w ring = Some (w', (record, err)) ->
  IsUnknownEvent err = true ->
  exists r,
    mem w !! ring = Some r
    /\ w' = set_mem (<[ring := ring.writeTail (ring.advance 8 r)]> (mem w)) w
    /\ record = Record_zero
    /\ err = Some (unknownEventError (order_Uint NativeEndian (take 4 (ring.window r)))).
Proof.
  unfold readRecordFromRing. destruct (mem w !! ring) as [r |]; [| discriminate].
  intros Hread Hunk. exists r. split; [reflexivity |].
  pose proof (readRecord_unknown_inv r (ring.cpu r)) as Hinv.
  destruct (readRecord r (ring.cpu r)) as [r1 [rec derr]].
  injection Hread as <- <- <-. cbn [snd] in Hinv.
  destruct (Hinv Hunk) as (_ & _ & _ & Heq). injection Heq as -> -> ->.
  repeat split.
Qed.

Lemma Read_loop_unknown (fuel : nat) :
  forall w pr w' pr' record err,
    Read_loop fuel w pr = (w', pr', Returns (record, err)) ->
    IsUnknownEvent err = true ->
    exists w0, Read_record w0 pr' = (w', pr', Exit (Returns (record, err))).
Proof.
  induction fuel as [| fuel IH]; intros w pr w' pr' record err Hloop Hunk;
    simpl in Hloop; [discriminate |].
  destruct (Read_wait w pr) as [[w1 pr1] [| | o]] eqn:Hwait.
  - destruct (Read_record w1 pr1) as [[w2 pr2] [| | o]] eqn:Hrec.
    + exact (IH _ _ _ _ _ _ Hloop Hunk).
    + exact (IH _ _ _ _ _ _ Hloop Hunk).
    + injection Hloop as -> -> ->.
      destruct (Read_record_exit _ _ _ _ _ _ Hrec) as [-> _]. eauto.
  - exact (IH _ _ _ _ _ _ Hloop Hunk).
  - injection Hloop as -> -> ->.
    apply Read_wait_not_unknown in Hwait. congruence.
Qed.

(** C9: a header of an unknown type on the ring on top of the pending stack
    ends the [Read] call with the unknown-event error and leaves the whole
    Reader, its pending stack included, as it was; in the world only that ring
    has changed, by the eight header bytes taken and the tail published, as
    after any decoding.  Conversely, whenever [Read] returns an unknown-event
    error, the ring decoded last is still the last of the pending stack, and
    the next call goes to it without waiting. *)
Theorem Read_unknown_event_keeps_ring :
  (forall fuel w pr stack ring r hdr rest,
      epollFd pr <> -1 -> epollRings pr = stack ++ [ring] -> mem w !! ring = Some r ->
      ring.window r = hdr ++ rest -> length hdr = 8%nat ->
      order_Uint NativeEndian (take 4 hdr) <> perfRecordLost ->
      order_Uint NativeEndian (take 4 hdr) <> perfRecordSample ->
      Read (S fuel) w pr
      = (set_mem (<[ring := ring.writeTail (ring.advance 8 r)]> (mem w)) w, pr,
         Returns (Record_zero,
                  Some (unknownEventError (order_Uint NativeEndian (take 4 hdr))))))
  /\ (forall fuel w pr w' pr' record err,
        Read fuel w pr = (w', pr', Returns (record, err)) ->
        IsUnknownEvent err = true ->
        exists w0 ring r,
          last (epollRings pr') = Some ring
          /\ mem w0 !! ring = Some r
          /\ Read_record w0 pr' = (w', pr', Exit (Returns (record, err)))
          /\ w' = set_mem (<[ring := ring.writeTail (ring.advance 8 r)]> (mem w0)) w0
          /\ record = Record_zero
          /\ err = Some (unknownEventError
                           (order_Uint NativeEndian (take 4 (ring.window r))))
          /\ (forall w'', Read_wait w'' pr' = (w'', pr', Proceed))).
Proof.
  split.
  - intros fuel w pr stack ring r hdr rest Hopen Hstack Hmem Hwin Hlen Hlost Hsample.
    unfold Read. destruct (Z.eqb_spec (epollFd pr) (-1)) as [Hc | _]; [contradiction |].
    cbn [Read_loop]. rewrite Read_wait_pending
      by (rewrite Hstack; destruct stack; discriminate).
    unfold Read_record, readRecordFromRing. rewrite Hstack, last_snoc, Hmem.
    rewrite (readRecord_header_exact (reader := ring_Reader) r (ring.cpu r) hdr rest
               Hwin Hlen).
    cbn [binary_decode perfEventHeader_Binary Type_].
    destruct (Z.eqb_spec (order_Uint NativeEndian (take 4 hdr)) perfRecordLost);
      [contradiction |].
    destruct (Z.eqb_spec (order_Uint NativeEndian (take 4 hdr)) perfRecordSample);
      [contradiction |].
    reflexivity.
  - intros fuel w pr w' pr' record err Hread Hunk. unfold Read in Hread.
    destruct (epollFd pr =? -1).
    { injection Hread as _ _ _ <-. discriminate Hunk. }
    destruct (Read_loop_unknown _ _ _ _ _ _ _ Hread Hunk) as [w0 Hrec].
    destruct (Read_record_exit _ _ _ _ _ _ Hrec) as (_ & ring & Hlast & Hring).
    destruct (readRecordFromRing_unknown _ _ _ _ _ Hring Hunk)
      as (r & Hmem & Hw & Hrecord & Herr).
    exists w0, ring, r. repeat split; try assumption.
    intros w''. apply Read_wait_pending. intros Hnil. rewrite Hnil in Hlast.
    discriminate Hlast.
Qed.
End UnknownEventFacts.

(** ** Resume *)

Section ResumeFacts.

Lemma uint32_of_small (v : Z) : 0 <= v < 2 ^ 32 -> uint32_of v = v.
Proof. apply Z.mod_small. Qed.

Lemma inserted_lookup (fds : list Z) :
  forall (i : Z) (t : gmap Z Z) (j : Z),
    0 <= i -> i + Z.of_nat (length fds) <= 2 ^ 32 ->
    inserted fds i t !! j
    = if decide (i <= j < i + Z.of_nat (length fds))
      then uint32_of <$> fds !! Z.to_nat (j - i)
      else t !! j.
Proof.
  induction fds as [| fd fds IH]; intros i t j Hi Hlen; simpl in *.
  - case_decide; [lia | reflexivity].
  - rewrite IH by lia. rewrite uint32_of_small by lia.
    destruct (decide (j = i)) as [-> | Hne].
    + rewrite lookup_insert_eq. rewrite Z.sub_diag.
      repeat case_decide; try lia. reflexivity.
    + rewrite lookup_insert_ne by congruence.
      repeat case_decide; try lia; [| reflexivity].
      replace (Z.to_nat (j - i)) with (S (Z.to_nat (j - (i + 1)))) by lia.
      reflexivity.
Qed.

Lemma Map_Put_fail (w : World) (m : Map) (key value : Z) e tape :
  faults w = Some e :: tape -> Map_Put w m key value = (with_faults tape w, Some e).
Proof. intros Hf. unfold Map_Put, next_fault. rewrite Hf. reflexivity. Qed.

Lemma Map_Put_ok (w : World) (m : Map) (key value : Z) :
  hd None (faults w) = None ->
  Map_Put w m key value
  = ({| trace := trace w ++ [map_put key value]; table := <[key := value]> (table w);
        mem := mem w; next_fd := next_fd w; faults := tl (faults w);
        waits := waits w |}, None).
Proof.
  intros Hf. unfold Map_Put, next_fault, emit, set_table, with_faults.
  destruct (faults w) as [| f tape] eqn:Htape; simpl in *.
  - rewrite Htape. reflexivity.
  - subst f. reflexivity.
Qed.

(** The loop stops at the first insertion that fails; the insertions before it
    stay. *)
Lemma Resume_loop_fail (m : Map) (fds : list Z) :
  forall (w : World) (i : Z) (k : nat) (e : error) (tape : list (option error)),
    faults w = repeat None k ++ Some e :: tape -> (k < length fds)%nat ->
    exists fd,
      fds !! k = Some fd /\
      Resume_loop w m fds i
      = ({| trace := trace w ++ put_trace (take k fds) i;
            table := inserted (take k fds) i (table w);
            mem := mem w; next_fd := next_fd w; faults := tape; waits := waits w |},
         Some (Wrapped e
                 ("could't put event fd " +:+ pretty (uint32_of fd) +:+ " for CPU "
                    +:+ pretty (i + Z.of_nat k)))).
Proof.
  induction fds as [| fd fds IH]; intros w i k e tape Hf Hk; simpl in Hk; [lia |].
  destruct k as [| k]; simpl in Hf.
  - exists fd. split; [reflexivity |]. cbn [Resume_loop].
    rewrite (Map_Put_fail _ _ _ _ _ _ Hf). cbn. rewrite Z.add_0_r, app_nil_r.
    reflexivity.
  - cbn [Resume_loop]. rewrite Map_Put_ok by (rewrite Hf; reflexivity).
    rewrite Hf. cbn [tl].
    match goal with
    | |- context [Resume_loop ?w' m fds (i + 1)] =>
        destruct (IH w' (i + 1) k e tape) as (fd' & Hfd & ->);
        [reflexivity | lia |]
    end.
    exists fd'. split; [exact Hfd |]. cbn.
    rewrite <- app_assoc. cbn.
    replace (i + 1 + Z.of_nat k) with (i + Z.pos (Pos.of_succ_nat k)) by lia.
    reflexivity.
Qed.

(** With every insertion succeeding the loop runs to its end. *)
Lemma Resume_loop_ok (m : Map) (fds : list Z) :
  forall (w : World) (i : Z),
    Forall (eq None) (take (length fds) (faults w)) ->
    Resume_loop w m fds i
    = ({| trace := trace w ++ put_trace fds i; table := inserted fds i (table w);
          mem := mem w; next_fd := next_fd w;
          faults := drop (length fds) (faults w); waits := waits w |}, None).
Proof.
  induction fds as [| fd fds IH]; intros w i Hok; simpl.
  - rewrite app_nil_r. destruct w; reflexivity.
  - assert (hd None (faults w) = None) as Hhd.
    { destruct (faults w) as [| f tape]; [reflexivity |].
      simpl in Hok. inversion Hok; subst. reflexivity. }
    rewrite Map_Put_ok by exact Hhd.
    rewrite IH.
    + cbn. rewrite <- app_assoc. cbn.
      destruct (faults w); cbn; [rewrite drop_nil |]; reflexivity.
    + cbn. destruct (faults w) as [| f tape]; cbn in *.
      * rewrite take_nil. constructor.
      * inversion Hok; subst. assumption.
Qed.

(** C8: [Resume] on an open Reader whose insertion fails first at index k.
    The call returns the failure wrapped in a message that names the
    descriptor and the index k; it has made the insertions for the indices
    below k and no other (k + 1 answers used, k insertions logged), and these
    stay in the routing table while the rest of the table is as before.
    Calling [Resume] again, with the insertions succeeding, returns no error
    and leaves every index with its cached descriptor, the rest of the table
    still as before. *)
Theorem Resume_partial_failure (w : World) (pr : Reader) (fds : list Z) (k : nat)
  (e : error) (tape : list (option error)) :
  pauseFds pr = Some fds -> (k < length fds)%nat -> Z.of_nat (length fds) <= 2 ^ 32 ->
  faults w = repeat None k ++ Some e :: tape ->
  Forall (eq None) (take (length fds) tape) ->
  let '(w1, pr1, err1) := Resume w pr in
  let '(w2, pr2, err2) := Resume w1 pr1 in
  (exists fd,
      fds !! k = Some fd /\
      err1 = Some (Wrapped e
                     ("could't put event fd " +:+ pretty (uint32_of fd) +:+ " for CPU "
                        +:+ pretty (Z.of_nat k))))
  /\ pr1 = pr /\ faults w1 = tape
  /\ trace w1 = trace w ++ put_trace (take k fds) 0
  /\ (forall (i : nat) fd, (i < k)%nat -> fds !! i = Some fd ->
        table w1 !! Z.of_nat i = Some (uint32_of fd))
  /\ (forall j : Z, ~ 0 <= j < Z.of_nat k -> table w1 !! j = table w !! j)
  /\ err2 = None /\ pr2 = pr
  /\ (forall (i : nat) fd, fds !! i = Some fd ->
        table w2 !! Z.of_nat i = Some (uint32_of fd))
  /\ (forall j : Z, ~ 0 <= j < Z.of_nat (length fds) -> table w2 !! j = table w !! j).
Proof.
  intros Hopen Hk Hlen Hf Hretry. unfold Resume at 1. rewrite Hopen.
  destruct (Resume_loop_fail (array pr) fds w 0 k e tape Hf Hk) as (fd & Hfd & ->).
  unfold Resume. rewrite Hopen.
  rewrite Resume_loop_ok by exact Hretry. cbn.
  assert (length (take k fds) = k) as Htake by (rewrite length_take; lia).
  repeat split.
  - exists fd. split; [exact Hfd | reflexivity].
  - intros i fd' Hi Hfd'. rewrite inserted_lookup by (rewrite ?Htake; lia).
    rewrite Htake. case_decide; [| lia].
    rewrite Z.sub_0_r, Nat2Z.id, lookup_take_lt by lia. rewrite Hfd'. reflexivity.
  - intros j Hj. rewrite inserted_lookup by (rewrite ?Htake; lia).
    rewrite Htake. case_decide; [lia | reflexivity].
  - intros i fd' Hfd'. pose proof (lookup_lt_Some _ _ _ Hfd') as Hi.
    rewrite inserted_lookup by lia. case_decide; [| lia].
    rewrite Z.sub_0_r, Nat2Z.id, Hfd'. reflexivity.
  - intros j Hj. rewrite inserted_lookup by lia. case_decide; [lia |].
    rewrite inserted_lookup by (rewrite ?Htake; lia).
    rewrite Htake. case_decide; [lia | reflexivity].
Qed.
End ResumeFacts.

(** ** The scenario of the specification

    Two CPUs, 4096 bytes per CPU, watermark 0, one sample of sixteen bytes on
    CPU 0: the first [Read] returns it, the next one would block, and after
    [Close] it returns [errClosed]. *)
Example Read_one_sample :
  snd (Read (host := little) 4 one_sample_world two_cpu_reader)
  = Returns ({| CPU := 0; RawSample := sixteen_bytes; LostSamples := 0 |}, None).
Proof. vm_compute. reflexivity. Qed.

Example Read_then_blocks :
  let '(w, pr, _) := Read (host := little) 4 one_sample_world two_cpu_reader in
  snd (Read (host := little) 4 w pr) = Blocks.
Proof. vm_compute. reflexivity. Qed.

Example Read_after_Close :
  let '(w, pr, _) := Read (host := little) 4 one_sample_world two_cpu_reader in
  let '(w, pr, err) := Close (host := little) w pr in
  err = None /\ snd (Read (host := little) 4 w pr) = Returns (Record_zero, Some errClosed).
Proof. vm_compute. split; reflexivity. Qed.

(** A wait that is woken by the close descriptor ends [Read] with [errClosed]. *)
Example Read_woken_by_close :
  snd (Read (host := little) 4
         (with_waits [wait_ready [{| Events := EPOLLIN; Fd := 6; Pad := -1 |}]]
            two_cpu_world) two_cpu_reader)
  = Returns (Record_zero, Some errClosed).
Proof. vm_compute. reflexivity. Qed.

(** The bytes of a sample record on a little-endian host, decoded. *)
Example readRecord_sample_bytes :
  snd (readRecord (host := little)
         [Byte.x09; Byte.x00; Byte.x00; Byte.x00; Byte.x00; Byte.x00; Byte.x10; Byte.x00;
          Byte.x03; Byte.x00; Byte.x00; Byte.x00; Byte.x01; Byte.x02; Byte.x03] 1)
  = ({| CPU := 1; RawSample := [Byte.x01; Byte.x02; Byte.x03]; LostSamples := 0 |}, None).
Proof. vm_compute. reflexivity. Qed.

(** A lost-samples record on a big-endian host, cut short inside its body. *)
Example readRecord_lost_truncated :
  snd (readRecord (host := big)
         [Byte.x00; Byte.x00; Byte.x00; Byte.x02; Byte.x00; Byte.x00; Byte.x00; Byte.x18;
          Byte.x00; Byte.x00; Byte.x00; Byte.x00] 1)
  = ({| CPU := 1; RawSample := []; LostSamples := 0 |},
     Some (Wrapped io_ErrUnexpectedEOF "can't read lost records header")).
Proof. vm_compute. reflexivity. Qed.

(** ** The theorems at concrete inputs *)

Lemma readRecord_lost_roundtrip_witness :
  snd (readRecord (host := little)
         (encode_header (host := little) perfRecordLost 0 24
            ++ encode_lost (host := little) 7 3 ++ []) 1)
  = ({| CPU := 1; RawSample := []; LostSamples := 3 |}, None)
  /\ unread (fst (readRecord (host := little)
                    (encode_header (host := little) perfRecordLost 0 24
                       ++ encode_lost (host := little) 7 3 ++ []) 1))
     = [].
Proof.
  apply (readRecord_lost_roundtrip (host := little) (R := list byte)
           (encode_header (host := little) perfRecordLost 0 24
              ++ encode_lost (host := little) 7 3 ++ []) 1 0 24 7 3 []);
    [lia | reflexivity].
Defined.

Lemma readRecord_sample_roundtrip_witness :
  snd (readRecord (host := big)
         (encode_header (host := big) perfRecordSample 0 16
            ++ encode_sample (host := big) 3 three_bytes ++ []) 1)
  = ({| CPU := 1; RawSample := three_bytes; LostSamples := 0 |}, None)
  /\ Z.of_nat
       (length
          (RawSample
             (fst (snd (readRecord (host := big)
                          (encode_header (host := big) perfRecordSample 0 16
                             ++ encode_sample (host := big) 3 three_bytes ++ []) 1)))))
     = 3
  /\ unread (fst (readRecord (host := big)
                    (encode_header (host := big) perfRecordSample 0 16
                       ++ encode_sample (host := big) 3 three_bytes ++ []) 1))
     = [].
Proof.
  apply (readRecord_sample_roundtrip (host := big) (R := list byte)
           (encode_header (host := big) perfRecordSample 0 16
              ++ encode_sample (host := big) 3 three_bytes ++ []) 1 0 16 3
           three_bytes []);
    [lia | reflexivity | reflexivity].
Defined.

Lemma readRecord_unknown_type_witness :
  let '(record, err) :=
    snd (readRecord (host := little) (encode_header (host := little) 7 0 8 ++ []) 1) in
  err = Some (unknownEventError
                (order_Uint LittleEndian (take 4 (encode_header (host := little) 7 0 8))))
  /\ IsUnknownEvent err = true /\ IsClosed err = false
  /\ record = Record_zero /\ RawSample record = [] /\ LostSamples record = 0.
Proof.
  apply (readRecord_unknown_type (host := little) (R := list byte)
           (encode_header (host := little) 7 0 8 ++ []) 1
           (encode_header (host := little) 7 0 8) []);
    [reflexivity | reflexivity | vm_compute; discriminate | vm_compute; discriminate].
Defined.

Lemma readRecord_errEOR_only_at_record_start_witness :
  snd (snd (readRecord (host := little) ([] : list byte) 0)) = Some errEOR.
Proof.
  apply (proj1 (readRecord_errEOR_only_at_record_start (host := little)
                  ([] : list byte) 0)).
  reflexivity.
Defined.

Lemma Read_absorbs_temporary_wait_errors_witness :
  isTemporary (Some (Errno EBADF)) = false.
Proof.
  apply (proj1 (Read_absorbs_temporary_wait_errors (host := little)) 5%nat
           interrupted_world two_cpu_reader
           (fst (fst (Read (host := little) 5 interrupted_world two_cpu_reader)))
           (snd (fst (Read (host := little) 5 interrupted_world two_cpu_reader)))
           Record_zero (Some (Errno EBADF))).
  vm_compute. reflexivity.
Defined.

Lemma Resume_partial_failure_witness :
  let '(w1, pr1, err1) := Resume second_put_fails two_cpu_reader in
  let '(w2, pr2, err2) := Resume w1 pr1 in
  (exists fd,
      [4; 5] !! 1%nat = Some fd /\
      err1 = Some (Wrapped (Errno EBADF)
                     ("could't put event fd " +:+ pretty (uint32_of fd) +:+ " for CPU "
                        +:+ pretty (Z.of_nat 1))))
  /\ pr1 = two_cpu_reader /\ faults w1 = []
  /\ trace w1 = trace second_put_fails ++ put_trace (take 1 [4; 5]) 0
  /\ (forall (i : nat) fd, (i < 1)%nat -> [4; 5] !! i = Some fd ->
        table w1 !! Z.of_nat i = Some (uint32_of fd))
  /\ (forall j : Z, ~ 0 <= j < Z.of_nat 1 -> table w1 !! j = table second_put_fails !! j)
  /\ err2 = None /\ pr2 = two_cpu_reader
  /\ (forall (i : nat) fd, [4; 5] !! i = Some fd ->
        table w2 !! Z.of_nat i = Some (uint32_of fd))
  /\ (forall j : Z, ~ 0 <= j < Z.of_nat (length [4; 5]) ->
        table w2 !! j = table second_put_fails !! j).
Proof.
  apply (Resume_partial_failure second_put_fails two_cpu_reader [4; 5] 1 (Errno EBADF) []);
    [reflexivity | simpl; lia | simpl; lia | reflexivity | constructor].
Defined.

Lemma Read_unknown_event_keeps_ring_witness :
  Read (host := little) 1 unknown_record_world pending_reader
  = (set_mem
       (<[0%nat := ring.writeTail (ring.advance 8 unknown_record_ring)]>
          (mem unknown_record_world)) unknown_record_world,
     pending_reader,
     Returns (Record_zero,
              Some (unknownEventError
                      (order_Uint LittleEndian
                         (take 4 (encode_header (host := little) 7 0 8)))))).
Proof.
  apply (proj1 (Read_unknown_event_keeps_ring (host := little)) 0%nat
           unknown_record_world pending_reader [] 0%nat unknown_record_ring
           (encode_header (host := little) 7 0 8) []);
    [vm_compute; discriminate | reflexivity | reflexivity | reflexivity | reflexivity
    | vm_compute; discriminate | vm_compute; discriminate].
Defined.

(** * Further properties of the package *)

(** ** The error predicates *)

(** X1: [IsClosed] and [IsUnknownEvent] look through any number of
    [errors.Wrap] layers, report nothing for a nil error, and never both hold of
    the same error. *)
Theorem classifiers_see_through_Wrap (err : option error) (msgs : list string) :
  IsClosed (fold_left errors_Wrap msgs err) = IsClosed err
  /\ IsUnknownEvent (fold_left errors_Wrap msgs err) = IsUnknownEvent err
  /\ IsClosed err && IsUnknownEvent err = false
  /\ IsClosed None = false /\ IsUnknownEvent None = false.
Proof.
  repeat split.
  - revert err. induction msgs as [| msg msgs IH]; intros err; simpl; [reflexivity |].
    rewrite IH. destruct err; reflexivity.
  - revert err. induction msgs as [| msg msgs IH]; intros err; simpl; [reflexivity |].
    rewrite IH. destruct err; reflexivity.
  - destruct err as [e |]; [| reflexivity]. simpl. destruct (Cause e); reflexivity.
Qed.

(** ** Registration with epoll *)

Lemma int32_of_small (v : Z) : - 2 ^ 31 <= v < 2 ^ 31 -> int32_of v = v.
Proof. intros Hv. unfold int32_of. rewrite Z.mod_small; lia. Qed.

(** X2: [addToEpoll] refuses a CPU number above [math.MaxInt32] without any
    call to the system; otherwise, when the [EpollCtl] call succeeds, the one
    call logged registers [fd] with an event from which [cpuForEvent] gives the
    CPU number back (also for the tag -1 of the close descriptor); a failing
    call is returned wrapped. *)
Theorem addToEpoll_tag_roundtrip (w : World) (epollfd fd cpu : Z) :
  (MaxInt32 < cpu ->
   addToEpoll w epollfd fd cpu
   = (w, Some (errors_New ("unsupported CPU number: " +:+ pretty cpu))))
  /\ (- 2 ^ 31 <= cpu <= MaxInt32 ->
      match snd (next_fault w) with
      | None =>
          exists event,
            addToEpoll w epollfd fd cpu
            = (emit (sys_epoll_ctl_add epollfd fd event) (fst (next_fault w)), None)
            /\ cpuForEvent event = cpu /\ Events event = EPOLLIN
            /\ (- 2 ^ 31 <= fd < 2 ^ 31 -> Fd event = fd)
      | Some e =>
          addToEpoll w epollfd fd cpu
          = (fst (next_fault w), Some (Wrapped e "can't add fd to epoll"))
      end).
Proof.
  split.
  - intros Hbig. unfold addToEpoll.
    destruct (Z.ltb_spec MaxInt32 cpu) as [_ | Hle]; [reflexivity | lia].
  - intros Hcpu. unfold addToEpoll, unix_EpollCtl_ADD.
    destruct (Z.ltb_spec MaxInt32 cpu) as [Hlt | _]; [lia |].
    destruct (next_fault w) as [w0 [e |]]; cbn; [reflexivity |].
    eexists. split; [reflexivity |]. cbn. unfold cpuForEvent. cbn.
    repeat split.
    + apply int32_of_small. unfold MaxInt32 in Hcpu. lia.
    + intros Hfd. apply int32_of_small, Hfd.
Qed.

(** ** What a successful decoding says about the input *)

Lemma order_PutUint_Uint (o : ByteOrder) (bs : list byte) :
  order_PutUint o (length bs) (order_Uint o bs) = bs.
Proof.
  destruct o; simpl.
  - apply split_le_combine.
  - rewrite <- (length_rev bs), split_le_combine. apply rev_involutive.
Qed.

Lemma order_PutUint_Uint_len (o : ByteOrder) (n : nat) (bs : list byte) :
  length bs = n -> order_PutUint o n (order_Uint o bs) = bs.
Proof. intros <-. apply order_PutUint_Uint. Qed.

Lemma order_Uint_range (o : ByteOrder) (bs : list byte) :
  0 <= order_Uint o bs < 2 ^ (Z.of_nat (length bs) * 8).
Proof.
  rewrite <- (order_PutUint_Uint o bs) at 1 2. rewrite order_Uint_PutUint.
  apply Z.mod_pos_bound. apply Z.pow_pos_nonneg; lia.
Qed.

Section DecodeInversion.
Context {host : Host} {R : Type} {reader : io_Reader R}.

Lemma io_ReadFull_success_inv (rd rd' : R) (buf bs : list byte) :
  io_ReadFull rd buf = (rd', (bs, None)) ->
  unread rd = bs ++ unread rd' /\ length bs = length buf.
Proof.
  unfold io_ReadFull.
  destruct (Nat.eqb_spec (length buf) 0) as [Hz | Hnz].
  - intros Hread. injection Hread as <- <-.
    destruct buf; [split; reflexivity | discriminate].
  - pose proof (length_take_le (unread rd) (length buf)) as Hle.
    destruct (length (take (length buf) (unread rd)) =? 0)%nat; [discriminate |].
    destruct (Nat.ltb_spec (length (take (length buf) (unread rd))) (length buf))
      as [| Hge]; [discriminate |].
    intros Hread. injection Hread as <- <-.
    assert (length (take (length buf) (unread rd)) = length buf) as Hlen.
    { rewrite length_take in *. lia. }
    rewrite Hlen, drop_all, app_nil_r, unread_consume, take_drop. auto.
Qed.

Lemma binary_Read_success_inv {T} `{Binary T} (rd rd' : R) (o : ByteOrder) (d v : T) :
  binary_Read rd o d = (rd', (v, None)) ->
  exists bs,
    unread rd = bs ++ unread rd' /\ length bs = binary_Size /\ v = binary_decode o bs.
Proof.
  unfold binary_Read.
  destruct (io_ReadFull rd (repeat Byte.x00 binary_Size)) as [rd1 [bs [e |]]] eqn:Hfull;
    [discriminate |].
  intros Hread. injection Hread as <- <-.
  apply io_ReadFull_success_inv in Hfull as [Hrd Hlen].
  rewrite repeat_length in Hlen. eauto.
Qed.

(** Eight bytes are the header that their three fields encode. *)
Lemma encode_decode_header (hdr : list byte) :
  length hdr = 8%nat ->
  encode_header (order_Uint NativeEndian (take 4 hdr))
    (order_Uint NativeEndian (take 2 (drop 4 hdr)))
    (order_Uint NativeEndian (take 2 (drop 6 hdr)))
  = hdr.
Proof.
  intros Hlen. unfold encode_header.
  rewrite !order_PutUint_Uint_len by (rewrite length_take, ?length_drop; lia).
  rewrite (take_ge (drop 6 hdr)) by (rewrite length_drop; lia).
  change 6%nat with (4 + 2)%nat. rewrite <- drop_drop.
  rewrite !take_drop. reflexivity.
Qed.

Lemma encode_decode_lost (body : list byte) :
  length body = 16%nat ->
  encode_lost (order_Uint NativeEndian (take 8 body))
    (order_Uint NativeEndian (take 8 (drop 8 body)))
  = body.
Proof.
  intros Hlen. unfold encode_lost.
  rewrite !order_PutUint_Uint_len by (rewrite length_take, ?length_drop; lia).
  rewrite (take_ge (drop 8 body)) by (rewrite length_drop; lia).
  apply take_drop.
Qed.

(** X3: when [readRecord] returns without an error, the bytes it has taken
    from the reader are exactly the encoding of the record it returns: a header
    of type 2 and a Lost body carrying the returned count (the payload is
    empty), or a header of type 9 and a Sample body whose size field is the
    length of the returned payload (the count is zero).  The CPU of the record
    is the one passed in. *)
Theorem readRecord_success_inv (rd rd' : R) (cpu : Z) (record : Record_) :
  readRecord rd cpu = (rd', (record, None)) ->
  (exists misc size id,
      unread rd
      = encode_header perfRecordLost misc size
          ++ encode_lost id (LostSamples record) ++ unread rd'
      /\ record = {| CPU := cpu; RawSample := []; LostSamples := LostSamples record |}
      /\ 0 <= LostSamples record < 2 ^ 64)
  \/ (exists misc size,
        unread rd
        = encode_header perfRecordSample misc size
            ++ encode_sample (Z.of_nat (length (RawSample record))) (RawSample record)
            ++ unread rd'
        /\ record = {| CPU := cpu; RawSample := RawSample record; LostSamples := 0 |}
        /\ Z.of_nat (length (RawSample record)) < 2 ^ 32).
Proof.
  unfold readRecord.
  destruct (binary_Read rd NativeEndian {| Type_ := 0; Misc := 0; Size := 0 |})
    as [rd1 [header [e |]]] eqn:Hhdr.
  { destruct e; discriminate. }
  apply binary_Read_success_inv in Hhdr as (hdr & Hrd & Hlen & ->).
  cbn [binary_Size perfEventHeader_Binary] in Hlen.
  cbn [binary_decode perfEventHeader_Binary Type_].
  pose proof (encode_decode_header hdr Hlen) as Hhdr.
  destruct (Z.eqb_spec (order_Uint NativeEndian (take 4 hdr)) perfRecordLost) as [Hl | _].
  - unfold readLostRecords.
    destruct (binary_Read rd1 NativeEndian {| ID := 0; Lost := 0 |})
      as [rd2 [lh [e |]]] eqn:Hlost; cbn; [discriminate |].
    intros Hret. injection Hret as <- <-.
    apply binary_Read_success_inv in Hlost as (body & Hrd1 & Hlen1 & ->).
    cbn [binary_Size lostHeader_Binary] in Hlen1. left.
    eexists _, _, _. cbn [LostSamples binary_decode lostHeader_Binary Lost].
    split; [| split; [reflexivity |]].
    + rewrite Hrd, Hrd1, <- Hl, Hhdr, (encode_decode_lost body Hlen1). reflexivity.
    + pose proof (order_Uint_range NativeEndian (take 8 (drop 8 body))) as Hrange.
      rewrite length_take, length_drop in Hrange.
      replace (8 `min` (length body - 8))%nat with 8%nat in Hrange by lia.
      exact Hrange.
  - destruct (Z.eqb_spec (order_Uint NativeEndian (take 4 hdr)) perfRecordSample)
      as [Hs | _]; [| discriminate].
    unfold readRawSample.
    destruct (binary_Read rd1 NativeEndian {| u32 := 0 |})
      as [rd2 [size [e |]]] eqn:Hsize; cbn; [discriminate |].
    apply binary_Read_success_inv in Hsize as (szb & Hrd1 & Hlen1 & ->).
    cbn [binary_Size uint32_Binary] in Hlen1.
    cbn [binary_decode uint32_Binary u32].
    rewrite take_ge by lia.
    destruct (io_ReadFull rd2 _) as [rd3 [data [e |]]] eqn:Hdata; cbn; [discriminate |].
    intros Hret. injection Hret as <- <-.
    apply io_ReadFull_success_inv in Hdata as [Hrd2 Hlen2].
    rewrite repeat_length in Hlen2.
    pose proof (order_Uint_range NativeEndian szb) as Hrange. rewrite Hlen1 in Hrange.
    change (2 ^ (Z.of_nat 4 * 8)) with (2 ^ 32) in Hrange.
    right. eexists _, _. cbn [RawSample].
    split; [| split; [reflexivity | lia]].
    rewrite Hrd, Hrd1, Hrd2, <- Hs, Hhdr. unfold encode_sample.
    rewrite Hlen2, Z2Nat.id by lia.
    rewrite order_PutUint_Uint_len by exact Hlen1. rewrite <- app_assoc. reflexivity.
Qed.
End DecodeInversion.

(** ** Decoding from a ring *)

Lemma ring_advance_0 (r : ring.t) : ring.advance 0 r = r.
Proof. destruct r. unfold ring.advance. simpl. f_equal. lia. Qed.

Lemma ring_advance_advance (a b : nat) (r : ring.t) :
  ring.advance a (ring.advance b r) = ring.advance (b + a) r.
Proof. unfold ring.advance. simpl. f_equal. lia. Qed.

Lemma moved_on_refl (r : ring.t) : moved_on r r.
Proof. exists 0%nat. rewrite ring_advance_0. split; [reflexivity | lia]. Qed.

Lemma moved_on_trans (r1 r2 r3 : ring.t) :
  moved_on r1 r2 -> moved_on r2 r3 -> moved_on r1 r3.
Proof.
  intros (a & -> & Ha) (b & -> & Hb). exists (a + b)%nat.
  rewrite ring_advance_advance. split; [reflexivity |].
  rewrite ring.window_advance, length_drop in Hb. lia.
Qed.

Section RingDecoding.
Context {host : Host}.

Lemma ring_io_ReadFull_moved_on (r : ring.t) (buf : list byte) :
  moved_on r (fst (io_ReadFull r buf)).
Proof.
  unfold io_ReadFull.
  assert (moved_on r (consume (length (take (length buf) (unread r))) r)) as Hmoved.
  { eexists. split; [reflexivity |]. rewrite length_take. apply Nat.le_min_r. }
  destruct (length buf =? 0)%nat; [apply moved_on_refl |].
  destruct (length (take (length buf) (unread r)) =? 0)%nat; [exact Hmoved |].
  destruct (length (take (length buf) (unread r)) <? length buf)%nat; exact Hmoved.
Qed.

Lemma ring_binary_Read_moved_on {T} `{Binary T} (r : ring.t) (o : ByteOrder) (d : T) :
  moved_on r (fst (binary_Read r o d)).
Proof.
  unfold binary_Read.
  pose proof (ring_io_ReadFull_moved_on r (repeat Byte.x00 binary_Size)) as Hmoved.
  destruct (io_ReadFull r _) as [r1 [bs [e |]]]; exact Hmoved.
Qed.

Lemma ring_readLostRecords_moved_on (r : ring.t) : moved_on r (fst (readLostRecords r)).
Proof.
  unfold readLostRecords.
  pose proof (ring_binary_Read_moved_on r NativeEndian {| ID := 0; Lost := 0 |}) as Hmoved.
  destruct (binary_Read r NativeEndian {| ID := 0; Lost := 0 |}) as [r1 [d [e |]]];
    exact Hmoved.
Qed.

Lemma ring_readRawSample_moved_on (r : ring.t) : moved_on r (fst (readRawSample r)).
Proof.
  unfold readRawSample.
  pose proof (ring_binary_Read_moved_on r NativeEndian {| u32 := 0 |}) as Hmoved.
  destruct (binary_Read r NativeEndian {| u32 := 0 |}) as [r1 [d [e |]]];
    [exact Hmoved |].
  pose proof (ring_io_ReadFull_moved_on r1 (repeat Byte.x00 (Z.to_nat (u32 d)))) as Hdata.
  destruct (io_ReadFull r1 _) as [r2 [data err]].
  exact (moved_on_trans _ _ _ Hmoved Hdata).
Qed.

Lemma ring_readRecord_moved_on (r : ring.t) (cpu : Z) :
  moved_on r (fst (readRecord r cpu)).
Proof.
  unfold readRecord.
  pose proof (ring_binary_Read_moved_on r NativeEndian
                {| Type_ := 0; Misc := 0; Size := 0 |}) as Hmoved.
  destruct (binary_Read r NativeEndian {| Type_ := 0; Misc := 0; Size := 0 |})
    as [r1 [header [e |]]].
  - destruct e; exact Hmoved.
  - destruct (Type_ header =? perfRecordLost).
    { pose proof (ring_readLostRecords_moved_on r1) as Hlost.
      destruct (readLostRecords r1) as [r2 [lost err]].
      exact (moved_on_trans _ _ _ Hmoved Hlost). }
    destruct (Type_ header =? perfRecordSample).
    { pose proof (ring_readRawSample_moved_on r1) as Hsample.
      destruct (readRawSample r1) as [r2 [sample err]].
      exact (moved_on_trans _ _ _ Hmoved Hsample). }
    exact Hmoved.
Qed.

(** X4: whatever [readRecordFromRing] returns, record or error, it has
    published the tail (the deferred [writeTail]); in the world exactly the one
    ring has changed, and of it only the tail, which has moved on by no more
    than the bytes between it and the snapshotted head.  The call fails to
    return only for a pointer to no ring. *)
Theorem readRecordFromRing_commits_tail (w : World) (addr : nat) :
  match readRecordFromRing w addr with
  | Some (w', _) =>
      exists r k,
        mem w !! addr = Some r
        /\ (k <= ring.head r - ring.tail r)%nat
        /\ w' = set_mem (<[addr := ring.writeTail (ring.advance k r)]> (mem w)) w
        /\ ring.data_tail (ring.writeTail (ring.advance k r)) = (ring.tail r + k)%nat
  | None => mem w !! addr = None
  end.
Proof.
  unfold readRecordFromRing. destruct (mem w !! addr) as [r |]; [| reflexivity].
  pose proof (ring_readRecord_moved_on r (ring.cpu r)) as (k & Hk & Hle).
  destruct (readRecord r (ring.cpu r)) as [r1 res]. cbn in Hk. subst r1.
  exists r, k. repeat split.
  unfold ring.window in Hle. rewrite length_take in Hle. lia.
Qed.
End RingDecoding.

(** ** Read on pending rings *)

Section ReadPending.
Context {host : Host}.

Lemma binary_Read_ok_exact {R T} `{io_Reader R} `{Binary T}
  (rd : R) (o : ByteOrder) (d : T) (bs rest : list byte) :
  unread rd = bs ++ rest -> length bs = binary_Size -> binary_Size <> 0%nat ->
  binary_Read rd o d = (consume binary_Size rd, (binary_decode o bs, None)).
Proof.
  intros Hrd Hlen Hnz. unfold binary_Read.
  rewrite (io_ReadFull_ok_exact rd _ bs rest Hrd).
  - rewrite repeat_length. reflexivity.
  - rewrite repeat_length. exact Hlen.
  - intros Hnil. apply (f_equal length) in Hnil. rewrite repeat_length in Hnil.
    simpl in Hnil. contradiction.
Qed.

(** A whole record at the tail of a ring: the decoder returns it and has moved
    the tail past it. *)
Lemma ring_readRecord_body (r : ring.t) (cpu misc hsize : Z) (b : Body)
  (rest : list byte) :
  ring.window r = encode_record misc hsize b ++ rest -> body_ok b ->
  readRecord r cpu
  = (ring.advance (length (encode_record misc hsize b)) r, (record_of cpu b, None)).
Proof.
  intros Hwin Hok. destruct b as [id lost | data]; cbn [encode_record] in Hwin |- *;
    rewrite <- app_assoc in Hwin.
  - rewrite (readRecord_header_exact (reader := ring_Reader) r cpu _ _ Hwin
               (length_encode_header _ _ _)).
    rewrite decode_encode_header. cbn [Type_].
    change (perfRecordLost mod 2 ^ 32 =? perfRecordLost) with true. cbv iota zeta.
    unfold readLostRecords.
    rewrite (binary_Read_ok_exact (consume 8 r) NativeEndian {| ID := 0; Lost := 0 |}
               (encode_lost id lost) rest).
    + rewrite decode_encode_lost. cbn [Lost binary_Size lostHeader_Binary consume
                                      ring_Reader record_of].
      rewrite ring_advance_advance, length_app, length_encode_header, length_encode_lost.
      cbn in Hok. rewrite Z.mod_small by exact Hok. reflexivity.
    + cbn [unread consume ring_Reader]. rewrite ring.window_advance, Hwin.
      apply drop_app_length'. symmetry. apply length_encode_header.
    + apply length_encode_lost.
    + discriminate.
  - rewrite (readRecord_header_exact (reader := ring_Reader) r cpu _ _ Hwin
               (length_encode_header _ _ _)).
    rewrite decode_encode_header. cbn [Type_].
    change (perfRecordSample mod 2 ^ 32 =? perfRecordLost) with false.
    change (perfRecordSample mod 2 ^ 32 =? perfRecordSample) with true. cbv iota zeta.
    unfold readRawSample, encode_sample in *. rewrite <- app_assoc in Hwin.
    rewrite (binary_Read_ok_exact (consume 8 r) NativeEndian {| u32 := 0 |}
               (order_PutUint NativeEndian 4 (Z.of_nat (length data))) (data ++ rest)).
    + cbn [binary_decode uint32_Binary u32 binary_Size consume ring_Reader record_of].
      rewrite take_ge by (rewrite length_order_PutUint; lia).
      cbn in Hok. rewrite order_Uint_PutUint_small
        by (change (2 ^ (Z.of_nat 4 * 8)) with (2 ^ 32); lia).
      rewrite Nat2Z.id, ring_advance_advance.
      rewrite !length_app, length_encode_header, length_order_PutUint.
      destruct data as [| d data].
      * cbn. reflexivity.
      * rewrite (io_ReadFull_ok_exact (reader := ring_Reader) _ _ (d :: data) rest).
        -- rewrite repeat_length. cbn [consume ring_Reader errors_Wrap].
           rewrite ring_advance_advance. do 2 f_equal; lia.
        -- cbn [unread ring_Reader]. rewrite ring.window_advance, Hwin.
           rewrite <- drop_drop.
           rewrite (drop_app_length' _ _ 8) by (symmetry; apply length_encode_header).
           apply drop_app_length'. symmetry. apply length_order_PutUint.
        -- rewrite repeat_length. reflexivity.
        -- discriminate.
    + cbn [unread consume ring_Reader]. rewrite ring.window_advance, Hwin.
      apply drop_app_length'. symmetry. apply length_encode_header.
    + apply length_order_PutUint.
    + discriminate.
Qed.

(** X5: with a ring on top of the pending stack that holds a whole record at
    its tail, [Read] returns that record without waiting and without an error,
    its CPU being the ring's; the Reader, pending stack included, is as before,
    and in the world only that ring has changed: the tail has moved past the
    record and has been published. *)
Theorem Read_delivers_record (fuel : nat) (w : World) (pr : Reader) (stack : list nat)
  (ring : nat) (r : ring.t) (misc hsize : Z) (b : Body) (rest : list byte) :
  epollFd pr <> -1 -> epollRings pr = stack ++ [ring] -> mem w !! ring = Some r ->
  ring.window r = encode_record misc hsize b ++ rest -> body_ok b ->
  Read (S fuel) w pr
  = (set_mem
       (<[ring := ring.writeTail
                    (ring.advance (length (encode_record misc hsize b)) r)]> (mem w)) w,
     pr, Returns (record_of (ring.cpu r) b, None)).
Proof.
  intros Hopen Hstack Hmem Hwin Hok. unfold Read.
  destruct (Z.eqb_spec (epollFd pr) (-1)) as [Hc | _]; [contradiction |].
  cbn [Read_loop]. rewrite Read_wait_pending
    by (rewrite Hstack; destruct stack; discriminate).
  unfold Read_record, readRecordFromRing. rewrite Hstack, last_snoc, Hmem.
  rewrite (ring_readRecord_body r (ring.cpu r) misc hsize b rest Hwin Hok).
  reflexivity.
Qed.

Lemma ring_readRecord_drained (r : ring.t) (cpu : Z) :
  ring.window r = [] -> readRecord r cpu = (r, (Record_zero, Some errEOR)).
Proof.
  intros Hwin. unfold readRecord, binary_Read, io_ReadFull.
  cbn [unread consume ring_Reader binary_Size perfEventHeader_Binary].
  rewrite Hwin. cbn. rewrite ring_advance_0. reflexivity.
Qed.

(** X6: a ring on top of the pending stack with nothing left before its
    snapshotted head is taken off the stack, and the call goes on with the rest
    of the stack (or with the wait, if that was the last ring); the ring's tail
    is published, nothing else changes. *)
Theorem Read_pops_drained_ring (fuel : nat) (w : World) (pr : Reader)
  (stack : list nat) (ring : nat) (r : ring.t) :
  epollFd pr <> -1 -> epollRings pr = stack ++ [ring] -> mem w !! ring = Some r ->
  ring.window r = [] ->
  Read (S fuel) w pr
  = Read fuel (set_mem (<[ring := ring.writeTail r]> (mem w)) w)
      (set_epollRings stack pr).
Proof.
  intros Hopen Hstack Hmem Hwin. unfold Read. cbn [set_epollRings epollFd].
  destruct (Z.eqb_spec (epollFd pr) (-1)) as [Hc | _]; [contradiction |].
  cbn [Read_loop]. rewrite Read_wait_pending
    by (rewrite Hstack; destruct stack; discriminate).
  unfold Read_record, readRecordFromRing. rewrite Hstack, last_snoc, Hmem.
  rewrite (ring_readRecord_drained r (ring.cpu r) Hwin).
  rewrite length_app, take_app_length' by (simpl; lia).
  reflexivity.
Qed.

Lemma Read_events_close_event (before : list EpollEvent) :
  forall (w : World) (pr : Reader) (event : EpollEvent) (after : list EpollEvent),
    Forall (ring_event (closeFd pr) (rings pr)) before -> Fd event = closeFd pr ->
    exists w' pr',
      Read_events w pr (before ++ event :: after)
      = (w', pr', Exit (Returns (Record_zero, Some errClosed))).
Proof.
  induction before as [| e before IH]; intros w pr event after Hbefore Hfd; simpl.
  - rewrite Hfd, Z.eqb_refl. eauto.
  - inversion Hbefore as [| ? ? (Hne & Hpad & Hlt) Hrest]; subst.
    destruct (Z.eqb_spec (Fd e) (closeFd pr)) as [Heq | _]; [contradiction |].
    unfold cpuForEvent. destruct (Z.ltb_spec (Pad e) 0) as [Hneg | _]; [lia |].
    destruct (lookup_lt_is_Some_2 (rings pr) _ Hlt) as [a ->].
    apply IH; assumption.
Qed.

(** X7: a wait that reports the close descriptor ready ends [Read] with
    [errClosed] and the zero Record, also when ring descriptors are reported
    before it in the same wake-up. *)
Theorem Read_woken_by_close_descriptor (fuel : nat) (w : World) (pr : Reader)
  (before after : list EpollEvent) (event : EpollEvent) (ws : list WaitResult) :
  epollFd pr <> -1 -> epollRings pr = [] ->
  waits w = wait_ready (before ++ event :: after) :: ws ->
  (length before < length (epollEvents pr))%nat ->
  Forall (ring_event (closeFd pr) (rings pr)) before -> Fd event = closeFd pr ->
  snd (Read (S fuel) w pr) = Returns (Record_zero, Some errClosed)
  /\ IsClosed (Some errClosed) = true.
Proof.
  intros Hopen Hstack Hwaits Hcap Hbefore Hfd. split; [| reflexivity]. unfold Read.
  destruct (Z.eqb_spec (epollFd pr) (-1)) as [Hc | _]; [contradiction |].
  cbn [Read_loop]. unfold Read_wait, unix_EpollWait. rewrite Hstack, Hwaits.
  cbn [isTemporary]. rewrite Nat2Z.id, take_app_length.
  rewrite take_app_ge by lia.
  replace (length (epollEvents pr) - length before)%nat
    with (S (length (epollEvents pr) - length before - 1)) by lia.
  cbn [take].
  match goal with
  | |- context [Read_events ?w0 ?pr0 (before ++ event :: ?rest)] =>
      destruct (Read_events_close_event before w0 pr0 event rest Hbefore Hfd)
        as (w' & pr' & ->)
  end.
  reflexivity.
Qed.
End ReadPending.

(** ** What Read can return *)

Section ReadResults.
Context {host : Host}.

Lemma io_ReadFull_io_error {R} `{io_Reader R} (rd : R) (buf : list byte) :
  io_error (snd (snd (io_ReadFull rd buf))).
Proof.
  unfold io_ReadFull, io_error.
  destruct (length buf =? 0)%nat; [auto |].
  destruct (length (take (length buf) (unread rd)) =? 0)%nat; [cbn; auto |].
  destruct (length (take (length buf) (unread rd)) <? length buf)%nat; cbn; auto.
Qed.

Lemma binary_Read_io_error {R T} `{io_Reader R} `{Binary T} (rd : R) (o : ByteOrder)
  (d : T) :
  io_error (snd (snd (binary_Read rd o d))).
Proof.
  unfold binary_Read.
  pose proof (io_ReadFull_io_error rd (repeat Byte.x00 binary_Size)) as Herr.
  destruct (io_ReadFull rd _) as [rd1 [bs [e |]]]; [exact Herr | left; reflexivity].
Qed.

Lemma readRecord_decoder_result {R} `{io_Reader R} (rd : R) (cpu : Z) :
  decoder_result (fst (snd (readRecord rd cpu))) (snd (snd (readRecord rd cpu))).
Proof.
  unfold readRecord, decoder_result.
  pose proof (binary_Read_io_error rd NativeEndian {| Type_ := 0; Misc := 0; Size := 0 |})
    as Hhdr.
  destruct (binary_Read rd NativeEndian {| Type_ := 0; Misc := 0; Size := 0 |})
    as [rd1 [header [e |]]].
  - destruct Hhdr as [Hn | [He | He]]; [discriminate | |];
      injection He as ->; cbn; auto.
  - clear Hhdr. destruct (Type_ header =? perfRecordLost).
    { unfold readLostRecords.
      pose proof (binary_Read_io_error rd1 NativeEndian {| ID := 0; Lost := 0 |}) as Hl.
      destruct (binary_Read rd1 NativeEndian {| ID := 0; Lost := 0 |})
        as [rd2 [d [e |]]]; cbn; [| auto].
      destruct Hl as [Hn | [He | He]]; [discriminate | |]; injection He as ->; auto. }
    destruct (Type_ header =? perfRecordSample).
    { unfold readRawSample.
      pose proof (binary_Read_io_error rd1 NativeEndian {| u32 := 0 |}) as Hs.
      destruct (binary_Read rd1 NativeEndian {| u32 := 0 |}) as [rd2 [d [e |]]]; cbn.
      - destruct Hs as [Hn | [He | He]]; [discriminate | |]; injection He as ->; auto.
      - pose proof (io_ReadFull_io_error rd2 (repeat Byte.x00 (Z.to_nat (u32 d)))) as Hd.
        destruct (io_ReadFull rd2 _) as [rd3 [data err]]. cbn in Hd |- *.
        destruct Hd as [-> | [-> | ->]]; cbn; auto. }
    cbn. auto.
Qed.

Lemma Read_wait_result (w w' : World) (pr pr' : Reader) record err :
  Read_wait w pr = (w', pr', Exit (Returns (record, err))) -> Read_result record err.
Proof.
  unfold Read_wait. destruct (epollRings pr); [| discriminate].
  destruct (unix_EpollWait w (epollFd pr) (epollEvents pr))
    as [[w1 [[events nEvents] werr]] |] eqn:Hwait; [| discriminate].
  destruct (isTemporary werr) eqn:Htemp; [discriminate |].
  destruct werr as [e |].
  - apply unix_EpollWait_err in Hwait as [errno ->].
    intros Hret. injection Hret as _ _ <- <-. unfold Read_result. cbn. auto.
  - intros Hret. apply Read_events_returns in Hret as [-> ->].
    unfold Read_result. cbn. auto.
Qed.

Lemma Read_record_result (w w' : World) (pr pr' : Reader) record err :
  Read_record w pr = (w', pr', Exit (Returns (record, err))) -> Read_result record err.
Proof.
  unfold Read_record. destruct (last (epollRings pr)) as [ring |]; [| discriminate].
  unfold readRecordFromRing. destruct (mem w !! ring) as [r |]; [| discriminate].
  pose proof (readRecord_decoder_result r (ring.cpu r)) as [Hone Herr].
  destruct (readRecord r (ring.cpu r)) as [r1 [rec derr]]. cbn in Hone, Herr |- *.
  destruct derr as [e |].
  - destruct e; intros Hret; try discriminate Hret; try contradiction;
      injection Hret as _ _ <- <-; split; assumption.
  - intros Hret. injection Hret as _ _ <- <-. split; assumption.
Qed.

(** X8: what [Read] can return.  The Record never carries both a payload and a
    lost-samples count.  The error is nil, [errClosed], an errno of the wait that
    is not temporary, an unknown-event error, or a wrapped [io.EOF] or
    [io.ErrUnexpectedEOF] of a record cut short; with the first three kinds of
    error the Record is the zero Record.  In particular the end-of-ring signal
    [errEOR] never leaves [Read]. *)
Theorem Read_returns_Read_result (fuel : nat) (w w' : World) (pr pr' : Reader)
  (record : Record_) (err : option error) :
  Read fuel w pr = (w', pr', Returns (record, err)) ->
  Read_result record err /\ err <> Some errEOR.
Proof.
  intros Hread.
  assert (Read_result record err) as Hres.
  { unfold Read in Hread. destruct (epollFd pr =? -1).
    { injection Hread as _ _ <- <-. unfold Read_result. cbn. auto. }
    revert w pr Hread. induction fuel as [| fuel IH]; intros w pr Hloop;
      simpl in Hloop; [discriminate |].
    destruct (Read_wait w pr) as [[w1 pr1] [| | o]] eqn:Hwait.
    - destruct (Read_record w1 pr1) as [[w2 pr2] [| | o]] eqn:Hrec.
      + exact (IH _ _ Hloop).
      + exact (IH _ _ Hloop).
      + injection Hloop as -> -> ->. exact (Read_record_result _ _ _ _ _ _ Hrec).
    - exact (IH _ _ Hloop).
    - injection Hloop as -> -> ->. exact (Read_wait_result _ _ _ _ _ _ Hwait). }
  split; [exact Hres |]. intros ->. destruct Hres as [_ Hfalse]. exact Hfalse.
Qed.
End ReadResults.

(** ** Pause *)

Section PauseFacts.

Lemma cleared_lookup (n : nat) :
  forall (i : Z) (t : gmap Z Z) (j : Z),
    0 <= i -> i + Z.of_nat n <= 2 ^ 32 ->
    cleared n i t !! j = if decide (i <= j < i + Z.of_nat n) then None else t !! j.
Proof.
  induction n as [| n IH]; intros i t j Hi Hn; cbn [cleared].
  - case_decide; [lia | reflexivity].
  - rewrite IH by lia. rewrite uint32_of_small by lia.
    destruct (decide (j = i)) as [-> | Hne].
    + rewrite lookup_delete_eq. repeat case_decide; try lia; reflexivity.
    + rewrite lookup_delete_ne by congruence. repeat case_decide; try lia; reflexivity.
Qed.

(** A deletion that the system answers: the entry is gone afterwards, whether it
    was there or not, and the only error is the one for an absent entry. *)
Lemma Map_Delete_ok (w : World) (m : Map) (key : Z) :
  hd None (faults w) = None ->
  exists w' err,
    Map_Delete w m key = (w', err)
    /\ (err = None \/ ebpf_IsNotExist err = true)
    /\ table w' = delete key (table w) /\ mem w' = mem w /\ waits w' = waits w
    /\ next_fd w' = next_fd w /\ faults w' = tl (faults w).
Proof.
  intros Hhd. unfold Map_Delete, next_fault.
  destruct (faults w) as [| f tape] eqn:Htape; cbn in Hhd; subst; cbn.
  - destruct (table w !! key) eqn:Hkey; eexists _, _; split; try reflexivity; cbn;
      rewrite ?Htape; repeat split; auto.
    symmetry. apply delete_id. exact Hkey.
  - destruct (table w !! key) eqn:Hkey; eexists _, _; split; try reflexivity; cbn;
      repeat split; auto.
    symmetry. apply delete_id. exact Hkey.
Qed.

Lemma Pause_loop_ok (m : Map) (fds : list Z) :
  forall (w : World) (i : Z),
    Forall (eq None) (take (length fds) (faults w)) ->
    exists w',
      Pause_loop w m fds i = (w', None)
      /\ table w' = cleared (length fds) i (table w) /\ mem w' = mem w
      /\ waits w' = waits w /\ next_fd w' = next_fd w
      /\ faults w' = drop (length fds) (faults w).
Proof.
  induction fds as [| fd fds IH]; intros w i Hok; cbn [Pause_loop length cleared].
  - exists w. rewrite drop_0. repeat split.
  - assert (hd None (faults w) = None) as Hhd.
    { destruct (faults w) as [| f tape]; [reflexivity |].
      simpl in Hok. inversion Hok; subst. reflexivity. }
    destruct (Map_Delete_ok w m (uint32_of i) Hhd)
      as (w1 & err & -> & Herr & Htable & Hmem & Hwaits & Hfd & Hfaults).
    assert (Forall (eq None) (take (length fds) (faults w1))) as Hok1.
    { rewrite Hfaults. destruct (faults w) as [| f tape]; cbn in *.
      - rewrite take_nil. constructor.
      - inversion Hok; subst. assumption. }
    destruct (IH w1 (i + 1) Hok1) as (w2 & Hloop & Ht2 & Hm2 & Hw2 & Hf2 & Hfa2).
    assert (Pause_loop w1 m fds (i + 1) = (w2, None)
            -> (match err with
                | Some _ =>
                    if negb (ebpf_IsNotExist err)
                    then (w1, errors_Wrap err
                                ("could't delete event fd for CPU " +:+ pretty i))
                    else Pause_loop w1 m fds (i + 1)
                | None => Pause_loop w1 m fds (i + 1)
                end) = (w2, None)) as Hstep.
    { intros Hl. destruct Herr as [-> | Hne]; [exact Hl |].
      destruct err; [| exact Hl]. rewrite Hne. exact Hl. }
    exists w2. split; [exact (Hstep Hloop) |].
    rewrite Ht2, Htable, Hm2, Hmem, Hw2, Hwaits, Hf2, Hfd, Hfa2, Hfaults.
    repeat split. destruct (faults w); cbn; [rewrite drop_nil |]; reflexivity.
Qed.

Lemma Pause_loop_fail (m : Map) (fds : list Z) :
  forall (w : World) (i : Z) (k : nat) (e : error) (tape : list (option error)),
    faults w = repeat None k ++ Some e :: tape -> (k < length fds)%nat ->
    ebpf_IsNotExist (Some e) = false ->
    exists w',
      Pause_loop w m fds i
      = (w', Some (Wrapped e ("could't delete event fd for CPU "
                                +:+ pretty (i + Z.of_nat k))))
      /\ table w' = cleared k i (table w) /\ mem w' = mem w
      /\ waits w' = waits w /\ next_fd w' = next_fd w /\ faults w' = tape.
Proof.
  induction fds as [| fd fds IH]; intros w i k e tape Hf Hk Hne; simpl in Hk; [lia |].
  destruct k as [| k]; simpl in Hf; cbn [Pause_loop cleared].
  - unfold Map_Delete, next_fault. rewrite Hf. cbn [errors_Wrap].
    rewrite Hne. cbn. rewrite Z.add_0_r. eexists. split; [reflexivity |].
    cbn. repeat split.
  - assert (hd None (faults w) = None) as Hhd by (rewrite Hf; reflexivity).
    destruct (Map_Delete_ok w m (uint32_of i) Hhd)
      as (w1 & err & -> & Herr & Htable & Hmem & Hwaits & Hfd & Hfaults).
    rewrite Hf in Hfaults. cbn [tl] in Hfaults.
    destruct (IH w1 (i + 1) k e tape Hfaults ltac:(lia) Hne)
      as (w2 & Hloop & Ht2 & Hm2 & Hw2 & Hf2 & Hfa2).
    exists w2. split.
    + replace (i + Z.of_nat (S k)) with (i + 1 + Z.of_nat k) by lia.
      destruct Herr as [-> | Hnot]; [exact Hloop |].
      destruct err; [| exact Hloop]. rewrite Hnot. exact Hloop.
    + rewrite Ht2, Htable, Hm2, Hmem, Hw2, Hwaits, Hf2, Hfd. repeat split. exact Hfa2.
Qed.

(** X9: [Pause] on an open Reader, with the system answering every deletion:
    the call returns no error whatever the routing table held (an entry that is
    not there is no error), afterwards no index of the Reader has an entry, the
    rest of the table is as before, and neither the Reader nor any ring nor the
    readiness of the descriptors has changed. *)
Theorem Pause_clears_every_index (w : World) (pr : Reader) (fds : list Z) :
  pauseFds pr = Some fds -> Z.of_nat (length fds) <= 2 ^ 32 ->
  Forall (eq None) (take (length fds) (faults w)) ->
  let '(w1, pr1, err) := Pause w pr in
  err = None /\ pr1 = pr
  /\ (forall j : Z, 0 <= j < Z.of_nat (length fds) -> table w1 !! j = None)
  /\ (forall j : Z, ~ 0 <= j < Z.of_nat (length fds) -> table w1 !! j = table w !! j)
  /\ mem w1 = mem w /\ waits w1 = waits w.
Proof.
  intros Hopen Hlen Hok. unfold Pause. rewrite Hopen.
  destruct (Pause_loop_ok (array pr) fds w 0 Hok)
    as (w1 & -> & Htable & Hmem & Hwaits & _ & _).
  repeat split; try assumption.
  - intros j Hj. rewrite Htable, cleared_lookup by lia. case_decide; [reflexivity | lia].
  - intros j Hj. rewrite Htable, cleared_lookup by lia. case_decide; [lia | reflexivity].
Qed.

(** X10: [Pause] on an open Reader whose deletion fails first at index k with
    an error other than "does not exist": the call stops there and returns the
    error wrapped in a message that names k; the entries of the indices below k
    are gone, the rest of the table is as before. *)
Theorem Pause_partial_failure (w : World) (pr : Reader) (fds : list Z) (k : nat)
  (e : error) (tape : list (option error)) :
  pauseFds pr = Some fds -> (k < length fds)%nat -> Z.of_nat (length fds) <= 2 ^ 32 ->
  faults w = repeat None k ++ Some e :: tape -> ebpf_IsNotExist (Some e) = false ->
  let '(w1, pr1, err) := Pause w pr in
  err = Some (Wrapped e ("could't delete event fd for CPU " +:+ pretty (Z.of_nat k)))
  /\ pr1 = pr /\ faults w1 = tape
  /\ (forall j : Z, 0 <= j < Z.of_nat k -> table w1 !! j = None)
  /\ (forall j : Z, ~ 0 <= j < Z.of_nat k -> table w1 !! j = table w !! j).
Proof.
  intros Hopen Hk Hlen Hf Hne. unfold Pause. rewrite Hopen.
  destruct (Pause_loop_fail (array pr) fds w 0 k e tape Hf Hk Hne)
    as (w1 & -> & Htable & _ & _ & _ & Hfaults).
  repeat split; try assumption.
  - intros j Hj. rewrite Htable, cleared_lookup by lia. case_decide; [reflexivity | lia].
  - intros j Hj. rewrite Htable, cleared_lookup by lia. case_decide; [lia | reflexivity].
Qed.
End PauseFacts.

(** ** Pause and Resume together *)
Section PauseResumeFacts.

Lemma Forall_ok_take (n : nat) (tape : list (option error)) :
  Forall (eq None) tape -> Forall (eq None) (take n tape).
Proof. apply Forall_take. Qed.

Lemma Resume_table (w : World) (pr : Reader) (fds : list Z) :
  pauseFds pr = Some fds -> Forall (eq None) (faults w) ->
  snd (Resume w pr) = None
  /\ table (fst (fst (Resume w pr))) = inserted fds 0 (table w)
  /\ Forall (eq None) (faults (fst (fst (Resume w pr)))).
Proof.
  intros Hopen Hok. unfold Resume. rewrite Hopen.
  rewrite Resume_loop_ok by (apply Forall_ok_take, Hok). cbn.
  repeat split. apply Forall_drop, Hok.
Qed.

Lemma Pause_table (w : World) (pr : Reader) (fds : list Z) :
  pauseFds pr = Some fds -> Forall (eq None) (faults w) ->
  snd (Pause w pr) = None
  /\ table (fst (fst (Pause w pr))) = cleared (length fds) 0 (table w)
  /\ Forall (eq None) (faults (fst (fst (Pause w pr)))).
Proof.
  intros Hopen Hok. unfold Pause. rewrite Hopen.
  destruct (Pause_loop_ok (array pr) fds w 0 (Forall_ok_take _ _ Hok))
    as (w1 & -> & Htable & _ & _ & _ & Hfaults).
  cbn. repeat split; [exact Htable |]. rewrite Hfaults. apply Forall_drop, Hok.
Qed.

(** X11: on an open Reader and with no call failing, [Resume] after [Pause]
    leaves the routing table as [Resume] alone does (every index of the Reader
    holds its cached descriptor again), [Pause] after [Resume] leaves it as
    [Pause] alone does, and each of the two done twice leaves it as done once;
    all these calls return no error. *)
Theorem Pause_Resume_compose (w : World) (pr : Reader) (fds : list Z) :
  pauseFds pr = Some fds -> Z.of_nat (length fds) <= 2 ^ 32 ->
  Forall (eq None) (faults w) ->
  let paused := fst (fst (Pause w pr)) in
  let resumed := fst (fst (Resume w pr)) in
  (snd (Resume paused pr) = None
   /\ table (fst (fst (Resume paused pr))) = table resumed)
  /\ (snd (Pause resumed pr) = None
      /\ table (fst (fst (Pause resumed pr))) = table paused)
  /\ (snd (Resume resumed pr) = None
      /\ table (fst (fst (Resume resumed pr))) = table resumed)
  /\ (snd (Pause paused pr) = None
      /\ table (fst (fst (Pause paused pr))) = table paused)
  /\ (forall (i : nat) fd, fds !! i = Some fd ->
        table resumed !! Z.of_nat i = Some (uint32_of fd))
  /\ (forall i : nat, (i < length fds)%nat -> table paused !! Z.of_nat i = None).
Proof.
  intros Hopen Hlen Hok. cbv zeta.
  destruct (Pause_table w pr fds Hopen Hok) as (_ & HtP & HokP).
  destruct (Resume_table w pr fds Hopen Hok) as (_ & HtR & HokR).
  destruct (Resume_table _ pr fds Hopen HokP) as (HePR & HtPR & _).
  destruct (Pause_table _ pr fds Hopen HokR) as (HeRP & HtRP & _).
  destruct (Resume_table _ pr fds Hopen HokR) as (HeRR & HtRR & _).
  destruct (Pause_table _ pr fds Hopen HokP) as (HePP & HtPP & _).
  repeat split; try assumption.
  - rewrite HtPR, HtP, HtR. apply map_eq. intros j.
    rewrite !inserted_lookup by lia. case_decide; [reflexivity |].
    rewrite cleared_lookup by lia. case_decide; [lia | reflexivity].
  - rewrite HtRP, HtR, HtP. apply map_eq. intros j.
    rewrite !cleared_lookup by lia. case_decide; [reflexivity |].
    rewrite inserted_lookup by lia. case_decide; [lia | reflexivity].
  - rewrite HtRR, HtR. apply map_eq. intros j.
    rewrite !inserted_lookup by lia. case_decide; reflexivity.
  - rewrite HtPP, HtP. apply map_eq. intros j.
    rewrite !cleared_lookup by lia. case_decide; reflexivity.
  - intros i fd Hfd. pose proof (lookup_lt_Some _ _ _ Hfd) as Hi.
    rewrite HtR, inserted_lookup by lia. case_decide; [| lia].
    rewrite Z.sub_0_r, Nat2Z.id, Hfd. reflexivity.
  - intros i Hi. rewrite HtP, cleared_lookup by lia. case_decide; [reflexivity | lia].
Qed.
End PauseResumeFacts.

(** ** Pause, Resume and the records already in a ring *)

Section BufferedRecords.
Context {host : Host}.

Lemma Map_Delete_mem (w : World) (m : Map) (key : Z) :
  mem (fst (Map_Delete w m key)) = mem w.
Proof.
  unfold Map_Delete, next_fault.
  destruct (faults w) as [| [e |] tape]; cbn; try reflexivity;
    destruct (table w !! key); reflexivity.
Qed.

Lemma Map_Put_mem (w : World) (m : Map) (key value : Z) :
  mem (fst (Map_Put w m key value)) = mem w.
Proof.
  unfold Map_Put, next_fault. destruct (faults w) as [| [e |] tape]; reflexivity.
Qed.

Lemma Pause_loop_mem (m : Map) (fds : list Z) :
  forall (w : World) (i : Z), mem (fst (Pause_loop w m fds i)) = mem w.
Proof.
  induction fds as [| fd fds IH]; intros w i; cbn [Pause_loop]; [reflexivity |].
  pose proof (Map_Delete_mem w m (uint32_of i)) as Hdel.
  destruct (Map_Delete w m (uint32_of i)) as [w1 [e |]]; cbn [fst] in Hdel.
  - destruct (negb (ebpf_IsNotExist (Some e))); [exact Hdel |].
    rewrite IH. exact Hdel.
  - rewrite IH. exact Hdel.
Qed.

Lemma Resume_loop_mem (m : Map) (fds : list Z) :
  forall (w : World) (i : Z), mem (fst (Resume_loop w m fds i)) = mem w.
Proof.
  induction fds as [| fd fds IH]; intros w i; cbn [Resume_loop]; [reflexivity |].
  pose proof (Map_Put_mem w m (uint32_of i) (uint32_of fd)) as Hput.
  destruct (Map_Put w m (uint32_of i) (uint32_of fd)) as [w1 [e |]]; cbn [fst] in Hput.
  - exact Hput.
  - rewrite IH. exact Hput.
Qed.

Lemma Pause_frame (w : World) (pr : Reader) :
  snd (fst (Pause w pr)) = pr /\ mem (fst (fst (Pause w pr))) = mem w.
Proof.
  unfold Pause. destruct (pauseFds pr) as [fds |]; [| split; reflexivity].
  pose proof (Pause_loop_mem (array pr) fds w 0) as Hloop.
  destruct (Pause_loop w (array pr) fds 0) as [w1 err]. split; [reflexivity | exact Hloop].
Qed.

Lemma Resume_frame (w : World) (pr : Reader) :
  snd (fst (Resume w pr)) = pr /\ mem (fst (fst (Resume w pr))) = mem w.
Proof.
  unfold Resume. destruct (pauseFds pr) as [fds |]; [| split; reflexivity].
  pose proof (Resume_loop_mem (array pr) fds w 0) as Hloop.
  destruct (Resume_loop w (array pr) fds 0) as [w1 err]. split; [reflexivity | exact Hloop].
Qed.

(** A whole record at the tail of the ring on top of the pending stack is what
    [Read] returns, whatever else the world holds. *)
Lemma Read_pending_record (fuel : nat) (w : World) (pr : Reader) (stack : list nat)
  (ring : nat) (r : ring.t) (misc hsize : Z) (b : Body) (rest : list byte) :
  epollFd pr <> -1 -> epollRings pr = stack ++ [ring] -> mem w !! ring = Some r ->
  ring.window r = encode_record misc hsize b ++ rest -> body_ok b ->
  snd (Read (S fuel) w pr) = Returns (record_of (ring.cpu r) b, None).
Proof.
  intros Hopen Hstack Hmem Hwin Hok. unfold Read.
  destruct (Z.eqb_spec (epollFd pr) (-1)) as [Hc | _]; [contradiction |].
  cbn [Read_loop]. rewrite Read_wait_pending
    by (rewrite Hstack; destruct stack; discriminate).
  unfold Read_record, readRecordFromRing. rewrite Hstack, last_snoc, Hmem.
  rewrite (ring_readRecord_body r (ring.cpu r) misc hsize b rest Hwin Hok).
  reflexivity.
Qed.

(** X12: [Pause] and [Resume], whether they succeed or fail, change neither
    the Reader nor any ring.  So a record that is in a ring of the pending
    stack when the Reader is paused is not held back: the next [Read] returns
    it without waiting, after a [Pause] as after a [Resume]. *)
Theorem Pause_Resume_keep_buffered_records (fuel : nat) (w : World) (pr : Reader)
  (stack : list nat) (ring : nat) (r : ring.t) (misc hsize : Z) (b : Body)
  (rest : list byte) :
  epollFd pr <> -1 -> epollRings pr = stack ++ [ring] -> mem w !! ring = Some r ->
  ring.window r = encode_record misc hsize b ++ rest -> body_ok b ->
  let delivered (after : World * Reader * option error) :=
    let '(w', pr', _) := after in
    pr' = pr /\ mem w' = mem w
    /\ snd (Read (S fuel) w' pr') = Returns (record_of (ring.cpu r) b, None) in
  delivered (Pause w pr) /\ delivered (Resume w pr).
Proof.
  intros Hopen Hstack Hmem Hwin Hok. cbv zeta. split.
  - destruct (Pause_frame w pr) as [Hpr Hsame].
    destruct (Pause w pr) as [[w' pr'] err]. cbn [fst snd] in Hpr, Hsame. subst pr'.
    split; [reflexivity |]. split; [exact Hsame |].
    apply (Read_pending_record fuel w' pr stack ring r misc hsize b rest);
      try assumption. rewrite Hsame. exact Hmem.
  - destruct (Resume_frame w pr) as [Hpr Hsame].
    destruct (Resume w pr) as [[w' pr'] err]. cbn [fst snd] in Hpr, Hsame. subst pr'.
    split; [reflexivity |]. split; [exact Hsame |].
    apply (Read_pending_record fuel w' pr stack ring r misc hsize b rest);
      try assumption. rewrite Hsame. exact Hmem.
Qed.
End BufferedRecords.

(** ** Construction: what is acquired and what is released *)

Section Construction.

Lemma summary_of_app (t1 t2 : list Effect) :
  summary (t1 ++ t2) = summary_app (summary t1) (summary t2).
Proof. unfold summary, summary_app. rewrite !omap_app. reflexivity. Qed.

Lemma summary_closes (fds : list Z) (rs : list nat) :
  summary (map sys_close fds ++ map ring_close rs) = ([], rs, [], fds).
Proof.
  rewrite summary_of_app.
  assert (summary (map sys_close fds) = ([], [], [], fds)) as ->.
  { unfold summary. induction fds as [| fd fds IH]; [reflexivity |].
    cbn. injection IH as -> -> -> ->. reflexivity. }
  assert (summary (map ring_close rs) = ([], rs, [], [])) as ->.
  { unfold summary. induction rs as [| a rs IH]; [reflexivity |].
    cbn. injection IH as -> -> -> ->. reflexivity. }
  cbn. rewrite app_nil_r. reflexivity.
Qed.

Lemma trace_unwind (w : World) (fds : list Z) (rs : list nat) :
  trace (unwind w fds rs) = trace w ++ map sys_close fds ++ map ring_close rs.
Proof.
  unfold unwind. rewrite trace_fold_ring_Close, app_assoc. f_equal.
  revert w. induction fds as [| fd fds IH]; intros w; cbn.
  - now rewrite app_nil_r.
  - rewrite IH. cbn. now rewrite <- app_assoc.
Qed.

Lemma newPerfEventRing_trace (w : World) (cpu perCPUBuffer watermark : Z) :
  match newPerfEventRing w cpu perCPUBuffer watermark with
  | (w', (addr, None)) => trace w' = trace w ++ [ring_open addr]
  | (w', (_, Some _)) => trace w' = trace w
  end.
Proof.
  unfold newPerfEventRing.
  destruct (perCPUBuffer <? 1); [reflexivity |].
  destruct (perCPUBuffer <=? watermark); [reflexivity |].
  pose proof (next_fault_trace w) as Htrace.
  destruct (next_fault w) as [w0 [e |]]; cbn in Htrace |- *; [exact Htrace |].
  rewrite Htrace. reflexivity.
Qed.

Lemma addToEpoll_trace (w : World) (epollfd fd cpu : Z) :
  exists added,
    trace (fst (addToEpoll w epollfd fd cpu)) = trace w ++ added
    /\ summary added = ([], [], [], []).
Proof.
  unfold addToEpoll. destruct (MaxInt32 <? cpu).
  { exists []. cbn. rewrite app_nil_r. split; reflexivity. }
  unfold unix_EpollCtl_ADD. pose proof (next_fault_trace w) as Htrace.
  destruct (next_fault w) as [w0 [e |]]; cbn in Htrace |- *.
  - exists []. rewrite app_nil_r. split; [exact Htrace | reflexivity].
  - eexists [_]. rewrite Htrace. split; reflexivity.
Qed.

Lemma Map_Put_trace (w : World) (m : Map) (key value : Z) :
  exists added,
    trace (fst (Map_Put w m key value)) = trace w ++ added
    /\ summary added = ([], [], [], []).
Proof.
  unfold Map_Put. pose proof (next_fault_trace w) as Htrace.
  destruct (next_fault w) as [w0 [e |]]; cbn in Htrace |- *.
  - exists []. rewrite app_nil_r. split; [exact Htrace | reflexivity].
  - eexists [_]. rewrite Htrace. split; reflexivity.
Qed.

Lemma Resume_loop_trace (m : Map) (fds : list Z) :
  forall (w : World) (i : Z),
    exists added,
      trace (fst (Resume_loop w m fds i)) = trace w ++ added
      /\ summary added = ([], [], [], []).
Proof.
  induction fds as [| fd fds IH]; intros w i; cbn [Resume_loop].
  - exists []. cbn. rewrite app_nil_r. split; reflexivity.
  - destruct (Map_Put_trace w m (uint32_of i) (uint32_of fd)) as (a1 & Ht1 & Hs1).
    destruct (Map_Put w m (uint32_of i) (uint32_of fd)) as [w1 [e |]]; cbn [fst] in Ht1.
    + exists a1. split; assumption.
    + destruct (IH w1 (i + 1)) as (a2 & Ht2 & Hs2).
      exists (a1 ++ a2). rewrite Ht2, Ht1, <- app_assoc. split; [reflexivity |].
      rewrite summary_of_app, Hs1, Hs2. reflexivity.
Qed.

Lemma Resume_trace (w : World) (pr : Reader) :
  exists added,
    trace (fst (fst (Resume w pr))) = trace w ++ added
    /\ summary added = ([], [], [], []).
Proof.
  unfold Resume. destruct (pauseFds pr) as [fds |].
  - destruct (Resume_loop_trace (array pr) fds w 0) as (added & Ht & Hs).
    destruct (Resume_loop w (array pr) fds 0) as [w1 err]. exists added. auto.
  - exists []. cbn. rewrite app_nil_r. split; reflexivity.
Qed.

(** The loop that makes the rings: the rings in [rings] at the end are those it
    was given and those it has opened, and it has closed nothing. *)
Lemma newRings_trace (epollFd perCPUBuffer watermark : Z) (n : nat) :
  forall (w : World) (i : Z) (rings : list nat) (pauseFds : list Z),
    match newRings w epollFd perCPUBuffer watermark n i rings pauseFds with
    | (w', (rings', pauseFds', err)) =>
        exists added opened,
          trace w' = trace w ++ added
          /\ summary added = (opened, [], [], [])
          /\ rings' = rings ++ opened
          /\ (length rings = length pauseFds -> length rings' = length pauseFds')
          /\ (err = None -> length rings' = (length rings + n)%nat)
    end.
Proof.
  induction n as [| n IH]; intros w i rings pauseFds; cbn [newRings].
  - exists [], []. rewrite !app_nil_r. repeat split; auto.
  - pose proof (newPerfEventRing_trace w i perCPUBuffer watermark) as Hnew.
    destruct (newPerfEventRing w i perCPUBuffer watermark) as [w1 [ring [e |]]].
    + exists [], []. rewrite Hnew, !app_nil_r. repeat split; auto. discriminate.
    + destruct (addToEpoll_trace w1 epollFd (ring_fd w1 ring)
                  (Z.of_nat (length (rings ++ [ring])) - 1)) as (a1 & Ht1 & Hs1).
      destruct (addToEpoll w1 epollFd (ring_fd w1 ring)
                  (Z.of_nat (length (rings ++ [ring])) - 1)) as [w2 [e |]];
        cbn [fst] in Ht1.
      * exists (ring_open ring :: a1), [ring].
        rewrite Ht1, Hnew, <- app_assoc. repeat split; auto.
        -- change (ring_open ring :: a1) with ([ring_open ring] ++ a1).
           rewrite summary_of_app, Hs1. reflexivity.
        -- intros Hlen. rewrite !length_app, Hlen. reflexivity.
        -- discriminate.
      * specialize (IH w2 (i + 1) (rings ++ [ring]) (pauseFds ++ [ring_fd w1 ring])).
        destruct (newRings w2 epollFd perCPUBuffer watermark n (i + 1)
                    (rings ++ [ring]) (pauseFds ++ [ring_fd w1 ring]))
          as [w3 [[rings' pauseFds'] err]].
        destruct IH as (a2 & opened & Ht2 & Hs2 & Hrings & Hlens & Hn).
        exists ((ring_open ring :: a1) ++ a2), (ring :: opened).
        rewrite Ht2, Ht1, Hnew, <- !app_assoc. repeat split; auto.
        -- change (ring_open ring :: a1) with ([ring_open ring] ++ a1).
           rewrite !summary_of_app, Hs1, Hs2. reflexivity.
        -- rewrite Hrings, <- app_assoc. reflexivity.
        -- intros Hlen. apply Hlens. rewrite !length_app, Hlen. reflexivity.
        -- intros Herr. rewrite (Hn Herr), length_app. simpl. lia.
Qed.

Lemma unix_EpollCreate1_trace (w : World) :
  match unix_EpollCreate1 w with
  | (w', (fd, None)) => trace w' = trace w ++ [sys_epoll_create1 fd]
  | (w', (_, Some _)) => trace w' = trace w
  end.
Proof.
  unfold unix_EpollCreate1. pose proof (next_fault_trace w) as Htrace.
  destruct (next_fault w) as [w0 [e |]]; cbn in Htrace |- *; [exact Htrace |].
  rewrite Htrace. reflexivity.
Qed.

Lemma unix_Eventfd_trace (w : World) :
  match unix_Eventfd w with
  | (w', (fd, None)) => trace w' = trace w ++ [sys_eventfd fd]
  | (w', (_, Some _)) => trace w' = trace w
  end.
Proof.
  unfold unix_Eventfd. pose proof (next_fault_trace w) as Htrace.
  destruct (next_fault w) as [w0 [e |]]; cbn in Htrace |- *; [exact Htrace |].
  rewrite Htrace. reflexivity.
Qed.

Lemma Map_Clone_trace (w : World) (m : Map) :
  match Map_Clone w m with
  | (w', (m', None)) =>
      trace w' = trace w ++ [map_clone (map_fd m')] /\ MaxEntries m' = MaxEntries m
  | (w', (_, Some _)) => trace w' = trace w
  end.
Proof.
  unfold Map_Clone. pose proof (next_fault_trace w) as Htrace.
  destruct (next_fault w) as [w0 [e |]]; cbn in Htrace |- *; [exact Htrace |].
  rewrite Htrace. split; reflexivity.
Qed.

Lemma Resume_loop_error (m : Map) (fds : list Z) :
  forall (w w' : World) (i : Z) (err : error),
    Resume_loop w m fds i = (w', Some err) ->
    exists (e : error) (fd cpu : Z),
      err = Wrapped e ("could't put event fd " +:+ pretty fd +:+ " for CPU "
                         +:+ pretty cpu).
Proof.
  induction fds as [| fd fds IH]; intros w w' i err; cbn [Resume_loop];
    [discriminate |].
  destruct (Map_Put w m (uint32_of i) (uint32_of fd)) as [w1 [e |]].
  - cbn [errors_Wrap]. intros Hret. injection Hret as _ <-. eauto.
  - apply IH.
Qed.

Lemma Resume_error (w w' : World) (pr pr' : Reader) (fds : list Z) (err : error) :
  pauseFds pr = Some fds -> Resume w pr = (w', pr', Some err) ->
  exists (e : error) (fd cpu : Z),
    err = Wrapped e ("could't put event fd " +:+ pretty fd +:+ " for CPU "
                       +:+ pretty cpu).
Proof.
  intros Hfds. unfold Resume. rewrite Hfds.
  destruct (Resume_loop w (array pr) fds 0) as [w1 [e |]] eqn:Hloop; [| discriminate].
  intros Hret. injection Hret as _ _ <-.
  exact (Resume_loop_error _ _ _ _ _ _ Hloop).
Qed.

(** X13: [NewReaderWithOptions] returns either a Reader and no error, or an
    error and no Reader.  With a Reader, the calls it has made have opened
    exactly the rings of the Reader and made exactly its epoll descriptor, its
    close descriptor and its handle of the array, and have closed nothing; the
    Reader has one ring and one cached descriptor per declared entry, room for
    one more event than rings, an empty pending stack, the close guard not
    fired and a finalizer set.  With an error, every ring that was opened has
    been closed again, and so have the epoll and close descriptors, in the
    order of their making; the handle that [Clone] made of the array has not:
    it is the one descriptor made and not closed, and there is one only when
    the error is that of an insertion by [Resume]. *)
Theorem NewReaderWithOptions_cleans_up_but_clone (w : World) (array0 : Map)
  (perCPUBuffer : Z) (opts : ReaderOptions) :
  match NewReaderWithOptions w array0 perCPUBuffer opts with
  | (w', (Some pr, None)) =>
      (exists added,
          trace w' = trace w ++ added
          /\ summary added
             = (rings pr, [], [epollFd pr; closeFd pr; map_fd (array pr)], []))
      /\ length (rings pr) = Z.to_nat (MaxEntries array0)
      /\ (exists fds, pauseFds pr = Some fds /\ length fds = length (rings pr))
      /\ length (epollEvents pr) = S (length (rings pr))
      /\ epollRings pr = [] /\ closeOnce pr = false /\ finalizer pr = true
      /\ MaxEntries (array pr) = MaxEntries array0
  | (w', (None, Some err)) =>
      exists added rs fds clone,
        trace w' = trace w ++ added /\ summary added = (rs, rs, fds ++ clone, fds)
        /\ (clone = []
            \/ exists (handle : Z) (e : error) (fd cpu : Z),
                 clone = [handle]
                 /\ err = Wrapped e ("could't put event fd " +:+ pretty fd
                                       +:+ " for CPU " +:+ pretty cpu))
  | _ => False
  end.
Proof.
  unfold NewReaderWithOptions.
  destruct (perCPUBuffer <? 1).
  { exists [], [], [], []. rewrite app_nil_r. repeat split; auto. }
  pose proof (unix_EpollCreate1_trace w) as Hep.
  destruct (unix_EpollCreate1 w) as [w1 [epfd [e |]]]; cbn [errors_Wrap].
  { exists [], [], [], []. rewrite app_nil_r. repeat split; auto. }
  pose proof (newRings_trace epfd perCPUBuffer (Watermark opts)
                (Z.to_nat (MaxEntries array0)) w1 0 [] []) as Hrings.
  destruct (newRings w1 epfd perCPUBuffer (Watermark opts)
              (Z.to_nat (MaxEntries array0)) 0 [] [])
    as [w2 [[rs pfs] err]].
  destruct Hrings as (a2 & opened & Ht2 & Hs2 & Hrs & Hlens & Hn).
  cbn [app] in Hrs. subst opened. specialize (Hlens eq_refl).
  assert (forall (w3 : World) (a3 : list Effect) (fds clone : list Z),
             trace w3 = trace w2 ++ a3 ->
             summary ([sys_epoll_create1 epfd] ++ a2 ++ a3) = (rs, [], fds ++ clone, []) ->
             exists added,
               trace (unwind w3 fds rs) = trace w ++ added
               /\ summary added = (rs, rs, fds ++ clone, fds)) as Hunwind.
  { intros w3 a3 fds clone Ht3 Hs3.
    exists (([sys_epoll_create1 epfd] ++ a2 ++ a3)
              ++ map sys_close fds ++ map ring_close rs).
    rewrite trace_unwind, Ht3, Ht2, Hep, <- !app_assoc. split; [reflexivity |].
    rewrite !app_assoc, <- (app_assoc _ (map sys_close fds)).
    rewrite summary_of_app, summary_closes, <- !app_assoc, Hs3. cbn.
    rewrite !app_nil_r. reflexivity. }
  assert (forall (w3 : World) (a3 : list Effect) (fds : list Z) (err : error),
             trace w3 = trace w2 ++ a3 ->
             summary ([sys_epoll_create1 epfd] ++ a2 ++ a3) = (rs, [], fds, []) ->
             exists added rs' fds' clone,
               trace (unwind w3 fds rs) = trace w ++ added
               /\ summary added = (rs', rs', fds' ++ clone, fds')
               /\ (clone = []
                   \/ exists (handle : Z) (e : error) (fd cpu : Z),
                        clone = [handle]
                        /\ err = Wrapped e ("could't put event fd " +:+ pretty fd
                                              +:+ " for CPU " +:+ pretty cpu)))
    as Hearly.
  { intros w3 a3 fds err0 Ht3 Hs3.
    destruct (Hunwind w3 a3 fds [] Ht3) as (added & Hadded & Hsum);
      [rewrite app_nil_r; exact Hs3 |].
    exists added, rs, fds, []. auto. }
  destruct err as [e |].
  { apply (Hearly w2 []); [now rewrite app_nil_r |].
    rewrite app_nil_r, summary_of_app, Hs2. cbn. rewrite ?app_nil_r. reflexivity. }
  specialize (Hn eq_refl). cbn in Hn.
  pose proof (unix_Eventfd_trace w2) as Hev.
  destruct (unix_Eventfd w2) as [w3 [cfd [e |]]].
  { apply (Hearly w3 []); [now rewrite app_nil_r |].
    rewrite app_nil_r, summary_of_app, Hs2. cbn. rewrite ?app_nil_r. reflexivity. }
  destruct (addToEpoll_trace w3 epfd cfd (-1)) as (a4 & Ht4 & Hs4).
  destruct (addToEpoll w3 epfd cfd (-1)) as [w4 [e |]]; cbn [fst] in Ht4.
  { apply (Hearly w4 ([sys_eventfd cfd] ++ a4)).
    - rewrite Ht4, Hev, <- app_assoc. reflexivity.
    - rewrite !summary_of_app, Hs2, Hs4. cbn. rewrite ?app_nil_r. reflexivity. }
  pose proof (Map_Clone_trace w4 array0) as Hclone.
  destruct (Map_Clone w4 array0) as [w5 [array1 [e |]]].
  { apply (Hearly w5 ([sys_eventfd cfd] ++ a4)).
    - rewrite Hclone, Ht4, Hev, <- app_assoc. reflexivity.
    - rewrite !summary_of_app, Hs2, Hs4. cbn. rewrite ?app_nil_r. reflexivity. }
  destruct Hclone as [Hclone Hentries].
  match goal with
  | |- context [Resume w5 ?pr0] =>
      set (pr := pr0);
      destruct (Resume_trace w5 pr) as (a6 & Ht6 & Hs6);
      pose proof (Resume_keeps_Reader w5 pr) as Hpr6;
      pose proof (Resume_error w5 (fst (fst (Resume w5 pr))) pr
                    (snd (fst (Resume w5 pr))) pfs) as Herr6;
      destruct (Resume w5 pr) as [[w6 pr6] err6]; cbn [fst snd] in Ht6, Hpr6, Herr6;
      subst pr6
  end.
  destruct err6 as [e |].
  { destruct (Hunwind w6 ([sys_eventfd cfd] ++ a4 ++ [map_clone (map_fd array1)] ++ a6)
                [epfd; cfd] [map_fd array1]) as (added & Hadded & Hsum).
    - rewrite Ht6, Hclone, Ht4, Hev, <- !app_assoc. reflexivity.
    - rewrite !summary_of_app, Hs2, Hs4, Hs6. cbn. rewrite ?app_nil_r. reflexivity.
    - exists added, rs, [epfd; cfd], [map_fd array1]. split; [exact Hadded |].
      split; [exact Hsum |]. right.
      destruct (Herr6 e eq_refl eq_refl) as (e0 & fd & cpu & ->).
      eauto 6. }
  destruct (Resume_trace w6 pr) as (a7 & Ht7 & Hs7).
  pose proof (Resume_keeps_Reader w6 pr) as Hpr7.
  pose proof (Resume_error w6 (fst (fst (Resume w6 pr))) pr
                (snd (fst (Resume w6 pr))) pfs) as Herr7.
  destruct (Resume w6 pr) as [[w7 pr7] err7]. cbn [fst snd] in Ht7, Hpr7, Herr7.
  subst pr7.
  destruct err7 as [e |].
  { destruct (Hunwind w7 ([sys_eventfd cfd] ++ a4 ++ [map_clone (map_fd array1)]
                            ++ a6 ++ a7)
                [epfd; cfd] [map_fd array1]) as (added & Hadded & Hsum).
    - rewrite Ht7, Ht6, Hclone, Ht4, Hev, <- !app_assoc. reflexivity.
    - rewrite !summary_of_app, Hs2, Hs4, Hs6, Hs7. cbn. rewrite ?app_nil_r. reflexivity.
    - exists added, rs, [epfd; cfd], [map_fd array1]. split; [exact Hadded |].
      split; [exact Hsum |]. right.
      destruct (Herr7 e eq_refl eq_refl) as (e0 & fd & cpu & ->).
      eauto 6. }
  subst pr. cbn. repeat split.
  - exists ([sys_epoll_create1 epfd] ++ a2 ++ [sys_eventfd cfd] ++ a4
              ++ [map_clone (map_fd array1)] ++ a6 ++ a7).
    rewrite Ht7, Ht6, Hclone, Ht4, Hev, Ht2, Hep, <- !app_assoc.
    split; [reflexivity |].
    rewrite !summary_of_app, Hs2, Hs4, Hs6, Hs7. cbn. rewrite !app_nil_r. reflexivity.
  - exact Hn.
  - exists pfs. split; [reflexivity | symmetry; exact Hlens].
  - rewrite repeat_length. lia.
  - exact Hentries.
Qed.

(** The handle is left open: construction for two CPUs with the first insertion
    failing makes the descriptors 3, 6 and 7, the last by [Clone], and closes 3
    and 6. *)
Example NewReaderWithOptions_clone_left_open :
  let '(w', (pr, err)) := NewReader first_put_fails two_cpu_array 4096 in
  pr = None
  /\ err = Some (Wrapped (Errno EBADF) "could't put event fd 4 for CPU 0")
  /\ summary (trace w') = ([0; 1]%nat, [0; 1]%nat, [3; 6; 7], [3; 6])
  /\ In (map_clone 7) (trace w') /\ ~ In (map_close 7) (trace w').
Proof.
  vm_compute. repeat split; auto 12.
  intros Hin. repeat (destruct Hin as [Heq | Hin]; [discriminate Heq |]). exact Hin.
Qed.
End Construction.

(** ** Construction when every call succeeds *)

Section ConstructionSuccess.

Lemma ring_set_up_mono (w w' : World) (epfd : Z) (fds fds' : list Z) (k addr : nat) :
  ring_set_up w epfd fds k addr ->
  (forall a r, mem w !! a = Some r -> mem w' !! a = Some r) ->
  (forall e, In e (trace w) -> In e (trace w')) ->
  next_fd w <= next_fd w' ->
  (forall j fd, fds !! j = Some fd -> fds' !! j = Some fd) ->
  ring_set_up w' epfd fds' k addr.
Proof.
  intros (r & Hmem & Hcpu & Hfd & Hlt & Hin) Hm Ht Hn Hf.
  exists r. repeat split; auto. lia.
Qed.

Lemma newRings_ok (epfd perCPUBuffer watermark : Z) (n : nat) :
  forall (w : World) (i : Z) (rings : list nat) (pfs : list Z),
    faults w = [] -> 1 <= perCPUBuffer -> watermark < perCPUBuffer ->
    i = Z.of_nat (length rings) -> length rings = length pfs ->
    Z.of_nat (length rings + n) <= 2 ^ 31 ->
    (forall k addr, rings !! k = Some addr -> ring_set_up w epfd pfs k addr) ->
    exists w' rings' pfs',
      newRings w epfd perCPUBuffer watermark n i rings pfs = (w', (rings', pfs', None))
      /\ faults w' = [] /\ length rings' = (length rings + n)%nat
      /\ length pfs' = length rings'
      /\ (forall k addr, rings' !! k = Some addr -> ring_set_up w' epfd pfs' k addr)
      /\ next_fd w <= next_fd w' /\ table w' = table w.
Proof.
  induction n as [| n IH]; intros w i rings pfs Hquiet Hbuf Hwm Hi Hlen Hmax Hinv;
    cbn [newRings].
  - exists w, rings, pfs. repeat split; auto; lia.
  - unfold newPerfEventRing.
    destruct (Z.ltb_spec perCPUBuffer 1) as [| _]; [lia |].
    destruct (Z.leb_spec perCPUBuffer watermark) as [| _]; [lia |].
    rewrite (next_fault_quiet w Hquiet). cbn.
    set (r := {| ring.cpu := i; ring.fd := next_fd w; ring.stream := [];
                 ring.head := 0; ring.tail := 0; ring.data_tail := 0;
                 ring.closed := false |}).
    assert ((mem w ++ [r]) !! length (mem w) = Some r) as Hnew
        by apply list_lookup_middle, eq_refl.
    unfold ring_fd. cbn. rewrite Hnew. cbn [ring.fd r].
    unfold addToEpoll.
    destruct (Z.ltb_spec MaxInt32 (Z.of_nat (length (rings ++ [length (mem w)])) - 1))
      as [Hbig | _].
    { rewrite length_app in Hbig. cbn in Hbig. unfold MaxInt32 in Hbig. lia. }
    unfold unix_EpollCtl_ADD. rewrite next_fault_quiet by exact Hquiet. cbn.
    match goal with
    | |- context [newRings ?w2 epfd perCPUBuffer watermark n (i + 1) _ _] =>
        destruct (IH w2 (i + 1) (rings ++ [length (mem w)]) (pfs ++ [next_fd w]))
          as (w' & rings' & pfs' & -> & Hq' & Hl' & Hp' & Hinv' & Hn' & Ht')
    end.
    + exact Hquiet.
    + exact Hbuf.
    + exact Hwm.
    + rewrite length_app. cbn. lia.
    + rewrite !length_app, Hlen. reflexivity.
    + rewrite length_app. cbn. lia.
    + intros k addr Hk. cbn.
      destruct (lookup_app_Some rings [length (mem w)] k addr) as [Hcases _].
      destruct (Hcases Hk) as [Hold | [Hge Hlast]].
      * apply (ring_set_up_mono w _ epfd pfs); cbn.
        -- exact (Hinv k addr Hold).
        -- intros a r0 Ha. apply lookup_app_l_Some, Ha.
        -- intros e He. rewrite !in_app_iff. auto.
        -- lia.
        -- intros j fd Hj. apply lookup_app_l_Some, Hj.
      * destruct (k - length rings)%nat as [| m] eqn:Hkm; [| discriminate].
        injection Hlast as <-. assert (k = length rings) as -> by lia.
        exists r. cbn. repeat split.
        -- exact Hnew.
        -- exact Hi.
        -- rewrite Hlen. apply list_lookup_middle, eq_refl.
        -- lia.
        -- rewrite !in_app_iff. right. left.
           rewrite length_app. cbn.
           replace (Z.of_nat (length rings + 1) - 1) with (Z.of_nat (length rings))
             by lia.
           rewrite (int32_of_small (Z.of_nat (length rings))) by lia. reflexivity.
    + exists w', rings', pfs'. split; [reflexivity |].
      rewrite length_app in Hl'. cbn in Hl', Hn', Ht'.
      repeat split; auto; lia.
Qed.

(** X14: with every call succeeding, a buffer size of at least one byte, a
    watermark below it and at most 2^31 declared entries, [NewReaderWithOptions]
    returns a Reader with one ring per entry.  The ring of CPU k carries the CPU
    number k, its descriptor is the k-th cached one, is registered with epoll
    under the tag k and is what the routing table holds at index k; it differs
    from the close descriptor, which is registered under the tag -1. *)
Theorem NewReaderWithOptions_sets_up_every_cpu (w : World) (array0 : Map)
  (perCPUBuffer : Z) (opts : ReaderOptions) :
  faults w = [] -> 1 <= perCPUBuffer -> Watermark opts < perCPUBuffer ->
  0 <= MaxEntries array0 <= 2 ^ 31 ->
  exists w' pr fds,
    NewReaderWithOptions w array0 perCPUBuffer opts = (w', (Some pr, None))
    /\ pauseFds pr = Some fds
    /\ Z.of_nat (length (rings pr)) = MaxEntries array0
    /\ In (sys_epoll_ctl_add (epollFd pr) (closeFd pr)
             {| Events := EPOLLIN; Fd := int32_of (closeFd pr); Pad := -1 |}) (trace w')
    /\ (forall k addr, rings pr !! k = Some addr ->
          exists r,
            mem w' !! addr = Some r /\ ring.cpu r = Z.of_nat k
            /\ fds !! k = Some (ring.fd r) /\ ring.fd r <> closeFd pr
            /\ table w' !! Z.of_nat k = Some (uint32_of (ring.fd r))
            /\ In (sys_epoll_ctl_add (epollFd pr) (ring.fd r)
                     {| Events := EPOLLIN; Fd := int32_of (ring.fd r);
                        Pad := Z.of_nat k |}) (trace w')).
Proof.
  intros Hquiet Hbuf Hwm Hentries. unfold NewReaderWithOptions.
  destruct (Z.ltb_spec perCPUBuffer 1) as [| _]; [lia |].
  unfold unix_EpollCreate1. rewrite (next_fault_quiet w Hquiet). cbn.
  match goal with
  | |- context [newRings ?w1 ?ep perCPUBuffer (Watermark opts) ?n 0 [] []] =>
      destruct (newRings_ok ep perCPUBuffer (Watermark opts) n w1 0 [] [])
        as (w2 & rs & pfs & -> & Hq2 & Hl2 & Hp2 & Hinv & Hn2 & Ht2)
  end; try assumption; try reflexivity.
  { cbn. lia. }
  { intros k addr Hk. discriminate Hk. }
  cbn in Hl2, Hn2, Ht2.
  unfold unix_Eventfd. rewrite (next_fault_quiet w2 Hq2). cbn.
  unfold addToEpoll. change (MaxInt32 <? -1) with false. cbv iota.
  unfold unix_EpollCtl_ADD. rewrite next_fault_quiet by exact Hq2. cbn.
  unfold Map_Clone. rewrite next_fault_quiet by exact Hq2. cbn.
  unfold Resume. cbn [pauseFds].
  rewrite Resume_loop_ok by (cbn; rewrite Hq2, take_nil; constructor). cbn.
  rewrite Resume_loop_ok by (cbn; rewrite Hq2, drop_nil, take_nil; constructor). cbn.
  eexists _, _, pfs. split; [reflexivity |]. cbn.
  split; [reflexivity |]. split; [lia |]. split.
  { rewrite !in_app_iff. cbn. auto 12. }
  intros k addr Hk. destruct (Hinv k addr Hk) as (r & Hmem & Hcpu & Hfd & Hlt & Hin).
  pose proof (lookup_lt_Some _ _ _ Hfd) as Hklt.
  exists r. repeat split; auto.
  - lia.
  - rewrite !inserted_lookup by lia. case_decide; [| lia].
    rewrite Z.sub_0_r, Nat2Z.id, Hfd. reflexivity.
  - rewrite !in_app_iff. auto 10.
Qed.
End ConstructionSuccess.

(** ** From the wake-up to the record *)
Section WakeAndDeliver.
Context {host : Host}.

Lemma ring_window_loadHead (r : ring.t) :
  ring.window (ring.loadHead r) = drop (ring.tail r) (ring.stream r).
Proof.
  unfold ring.window, ring.loadHead. cbn. apply take_ge. rewrite length_drop. lia.
Qed.

Lemma unix_EpollWait_one (w : World) (epfd : Z) (event e0 : EpollEvent)
  (events : list EpollEvent) (ws : list WaitResult) :
  waits w = wait_ready [event] :: ws ->
  unix_EpollWait w epfd (e0 :: events)
  = Some (emit (sys_epoll_wait epfd) (with_waits ws w), (event :: events, 1, None)).
Proof.
  intros Hwaits. unfold unix_EpollWait. rewrite Hwaits. cbn. rewrite take_nil.
  reflexivity.
Qed.

(** X15: a [Read] with nothing pending, woken by the descriptor of one ring
    while the kernel has written a whole record at that ring's tail, puts the
    ring on the pending stack, snapshots its head and returns the record with
    the ring's CPU and no error; the ring stays on the stack, its tail is past
    the record and published, and one answer of the wait has been used. *)
Theorem Read_wakes_and_delivers (fuel : nat) (w : World) (pr : Reader)
  (event : EpollEvent) (ws : list WaitResult) (addr : nat) (r : ring.t)
  (misc hsize : Z) (b : Body) (rest : list byte) :
  epollFd pr <> -1 -> epollRings pr = [] -> epollEvents pr <> [] ->
  waits w = wait_ready [event] :: ws ->
  Fd event <> closeFd pr -> 0 <= Pad event ->
  rings pr !! Z.to_nat (Pad event) = Some addr -> mem w !! addr = Some r ->
  drop (ring.tail r) (ring.stream r) = encode_record misc hsize b ++ rest ->
  body_ok b ->
  exists w' pr',
    Read (S fuel) w pr = (w', pr', Returns (record_of (ring.cpu r) b, None))
    /\ epollRings pr' = [addr]
    /\ mem w'
       = <[addr := ring.writeTail
                     (ring.advance (length (encode_record misc hsize b))
                        (ring.loadHead r))]> (mem w)
    /\ waits w' = ws.
Proof.
  intros Hopen Hstack Hcap Hwaits Hfd Hpad Hring Hmem Hdata Hok. unfold Read.
  destruct (Z.eqb_spec (epollFd pr) (-1)) as [Hc | _]; [contradiction |].
  cbn [Read_loop]. unfold Read_wait. rewrite Hstack.
  destruct (epollEvents pr) as [| e0 events] eqn:Hevents; [contradiction |].
  rewrite (unix_EpollWait_one w (epollFd pr) event e0 events ws Hwaits).
  cbn [isTemporary]. change (Z.to_nat 1) with 1%nat. cbn [take Read_events].
  cbn [closeFd set_epollEvents].
  destruct (Z.eqb_spec (Fd event) (closeFd pr)) as [Heq | _]; [contradiction |].
  unfold cpuForEvent. destruct (Z.ltb_spec (Pad event) 0) as [Hneg | _]; [lia |].
  cbn [rings set_epollEvents]. rewrite Hring.
  cbn [epollRings set_epollEvents]. rewrite Hstack. cbn [app].
  unfold ring_loadHead. cbn [mem emit with_waits]. rewrite Hmem.
  change (take 0 events) with (@nil EpollEvent). cbn [Read_events].
  unfold Read_record. cbn [epollRings set_epollRings last].
  unfold readRecordFromRing. cbn [mem set_mem].
  pose proof (lookup_lt_Some _ _ _ Hmem) as Hlt.
  rewrite list_lookup_insert_eq by exact Hlt.
  rewrite (ring_readRecord_body (ring.loadHead r) (ring.cpu (ring.loadHead r))
             misc hsize b rest)
    by (rewrite ?ring_window_loadHead; assumption).
  eexists _, _. split; [reflexivity |]. cbn.
  split; [reflexivity |]. split; [| reflexivity].
  apply list_insert_insert_eq.
Qed.
End WakeAndDeliver.

(** ** The further properties at concrete inputs *)

Lemma addToEpoll_tag_roundtrip_witness :
  addToEpoll quiet_world 3 4 (2 ^ 31)
  = (quiet_world, Some (errors_New ("unsupported CPU number: " +:+ pretty (2 ^ 31)))).
Proof.
  apply (proj1 (addToEpoll_tag_roundtrip quiet_world 3 4 (2 ^ 31))).
  vm_compute. reflexivity.
Defined.

Lemma readRecord_success_inv_witness :
  (exists misc size id,
      unread lost_bytes
      = encode_header (host := little) perfRecordLost misc size
          ++ encode_lost (host := little) id (LostSamples lost_record)
          ++ unread ([] : list byte)
      /\ lost_record
         = {| CPU := 1; RawSample := []; LostSamples := LostSamples lost_record |}
      /\ 0 <= LostSamples lost_record < 2 ^ 64)
  \/ (exists misc size,
        unread lost_bytes
        = encode_header (host := little) perfRecordSample misc size
            ++ encode_sample (host := little)
                 (Z.of_nat (length (RawSample lost_record))) (RawSample lost_record)
            ++ unread ([] : list byte)
        /\ lost_record
           = {| CPU := 1; RawSample := RawSample lost_record; LostSamples := 0 |}
        /\ Z.of_nat (length (RawSample lost_record)) < 2 ^ 32).
Proof.
  apply (readRecord_success_inv (host := little) (R := list byte) lost_bytes [] 1
           lost_record).
  vm_compute. reflexivity.
Defined.

Lemma Read_delivers_record_witness :
  Read (host := little) 1 sample_pending_world pending_reader
  = (set_mem
       (<[0%nat := ring.writeTail
                     (ring.advance
                        (length (encode_record (host := little) 0 32
                                   (SampleBody three_bytes)))
                        sample_ring)]> (mem sample_pending_world))
       sample_pending_world,
     pending_reader,
     Returns (record_of (ring.cpu sample_ring) (SampleBody three_bytes), None)).
Proof.
  apply (Read_delivers_record (host := little) 0 sample_pending_world pending_reader
           [] 0%nat sample_ring 0 32 (SampleBody three_bytes) []);
    [vm_compute; discriminate | reflexivity | reflexivity | reflexivity
    | vm_compute; reflexivity].
Defined.

Lemma Pause_Resume_keep_buffered_records_witness :
  snd (Read (host := little) 1
         (fst (fst (Pause sample_pending_world pending_reader))) pending_reader)
  = Returns (record_of 0 (SampleBody three_bytes), None)
  /\ table (fst (fst (Pause sample_pending_world pending_reader))) = ∅.
Proof.
  split; [| vm_compute; reflexivity].
  pose proof (proj1 (Pause_Resume_keep_buffered_records (host := little) 0
                       sample_pending_world pending_reader [] 0%nat sample_ring 0 32
                       (SampleBody three_bytes) []
                       ltac:(vm_compute; discriminate) eq_refl eq_refl eq_refl
                       ltac:(vm_compute; reflexivity))) as Hpaused.
  destruct (Pause sample_pending_world pending_reader) as [[w' pr'] err].
  destruct Hpaused as (-> & _ & Hread). exact Hread.
Defined.

Lemma Read_pops_drained_ring_witness :
  Read (host := little) 1 two_cpu_world pending_reader
  = Read (host := little) 0
      (set_mem (<[0%nat := ring.writeTail idle_ring]> (mem two_cpu_world)) two_cpu_world)
      (set_epollRings [] pending_reader).
Proof.
  apply (Read_pops_drained_ring (host := little) 0 two_cpu_world pending_reader []
           0%nat idle_ring);
    [vm_compute; discriminate | reflexivity | reflexivity | reflexivity].
Defined.

Lemma Read_woken_by_close_descriptor_witness :
  snd (Read (host := little) 1 closing_world two_cpu_reader)
  = Returns (Record_zero, Some errClosed)
  /\ IsClosed (Some errClosed) = true.
Proof.
  apply (Read_woken_by_close_descriptor (host := little) 0 closing_world two_cpu_reader
           [ring0_ready] [] close_ready []).
  - vm_compute. discriminate.
  - reflexivity.
  - reflexivity.
  - vm_compute. lia.
  - repeat constructor; vm_compute; try discriminate; lia.
  - reflexivity.
Defined.

Lemma Read_returns_Read_result_witness :
  Read_result Record_zero (Some (Errno EBADF)) /\ Some (Errno EBADF) <> Some errEOR.
Proof.
  apply (Read_returns_Read_result (host := little) 5 interrupted_world
           (fst (fst (Read (host := little) 5 interrupted_world two_cpu_reader)))
           two_cpu_reader
           (snd (fst (Read (host := little) 5 interrupted_world two_cpu_reader)))
           Record_zero (Some (Errno EBADF))).
  vm_compute. reflexivity.
Defined.

Lemma Pause_clears_every_index_witness :
  let '(w1, pr1, err) := Pause two_cpu_world two_cpu_reader in
  err = None /\ pr1 = two_cpu_reader
  /\ (forall j : Z, 0 <= j < Z.of_nat (length [4; 5]) -> table w1 !! j = None)
  /\ (forall j : Z, ~ 0 <= j < Z.of_nat (length [4; 5]) ->
        table w1 !! j = table two_cpu_world !! j)
  /\ mem w1 = mem two_cpu_world /\ waits w1 = waits two_cpu_world.
Proof.
  apply (Pause_clears_every_index two_cpu_world two_cpu_reader [4; 5]);
    [reflexivity | simpl; lia | constructor].
Defined.

Lemma Pause_partial_failure_witness :
  let '(w1, pr1, err) := Pause second_put_fails two_cpu_reader in
  err = Some (Wrapped (Errno EBADF)
                ("could't delete event fd for CPU " +:+ pretty (Z.of_nat 1)))
  /\ pr1 = two_cpu_reader /\ faults w1 = []
  /\ (forall j : Z, 0 <= j < Z.of_nat 1 -> table w1 !! j = None)
  /\ (forall j : Z, ~ 0 <= j < Z.of_nat 1 -> table w1 !! j = table second_put_fails !! j).
Proof.
  apply (Pause_partial_failure second_put_fails two_cpu_reader [4; 5] 1 (Errno EBADF) []);
    [reflexivity | simpl; lia | simpl; lia | reflexivity | reflexivity].
Defined.

Lemma Pause_Resume_compose_witness :
  let paused := fst (fst (Pause two_cpu_world two_cpu_reader)) in
  let resumed := fst (fst (Resume two_cpu_world two_cpu_reader)) in
  (snd (Resume paused two_cpu_reader) = None
   /\ table (fst (fst (Resume paused two_cpu_reader))) = table resumed)
  /\ (snd (Pause resumed two_cpu_reader) = None
      /\ table (fst (fst (Pause resumed two_cpu_reader))) = table paused)
  /\ (snd (Resume resumed two_cpu_reader) = None
      /\ table (fst (fst (Resume resumed two_cpu_reader))) = table resumed)
  /\ (snd (Pause paused two_cpu_reader) = None
      /\ table (fst (fst (Pause paused two_cpu_reader))) = table paused)
  /\ (forall (i : nat) fd, [4; 5] !! i = Some fd ->
        table resumed !! Z.of_nat i = Some (uint32_of fd))
  /\ (forall i : nat, (i < length [4; 5])%nat -> table paused !! Z.of_nat i = None).
Proof.
  apply (Pause_Resume_compose two_cpu_world two_cpu_reader [4; 5]);
    [reflexivity | simpl; lia | constructor].
Defined.

Lemma NewReaderWithOptions_sets_up_every_cpu_witness :
  exists w' pr fds,
    NewReaderWithOptions quiet_world two_cpu_array 4096 {| Watermark := 0 |}
    = (w', (Some pr, None))
    /\ pauseFds pr = Some fds
    /\ Z.of_nat (length (rings pr)) = MaxEntries two_cpu_array
    /\ In (sys_epoll_ctl_add (epollFd pr) (closeFd pr)
             {| Events := EPOLLIN; Fd := int32_of (closeFd pr); Pad := -1 |}) (trace w')
    /\ (forall k addr, rings pr !! k = Some addr ->
          exists r,
            mem w' !! addr = Some r /\ ring.cpu r = Z.of_nat k
            /\ fds !! k = Some (ring.fd r) /\ ring.fd r <> closeFd pr
            /\ table w' !! Z.of_nat k = Some (uint32_of (ring.fd r))
            /\ In (sys_epoll_ctl_add (epollFd pr) (ring.fd r)
                     {| Events := EPOLLIN; Fd := int32_of (ring.fd r);
                        Pad := Z.of_nat k |}) (trace w')).
Proof.
  apply (NewReaderWithOptions_sets_up_every_cpu quiet_world two_cpu_array 4096
           {| Watermark := 0 |});
    [reflexivity | lia | simpl; lia | simpl; lia].
Defined.

Lemma Read_wakes_and_delivers_witness :
  exists w' pr',
    Read (host := little) 1 one_sample_world two_cpu_reader
    = (w', pr',
       Returns (record_of (ring.cpu produced_ring) (SampleBody sixteen_bytes), None))
    /\ epollRings pr' = [0%nat]
    /\ mem w'
       = <[0%nat := ring.writeTail
                      (ring.advance
                         (length (encode_record (host := little) 0 32
                                    (SampleBody sixteen_bytes)))
                         (ring.loadHead produced_ring))]> (mem one_sample_world)
    /\ waits w' = [].
Proof.
  apply (Read_wakes_and_delivers (host := little) 0 one_sample_world two_cpu_reader
           ring0_ready [] 0%nat produced_ring
           0 32 (SampleBody sixteen_bytes) []).
  - vm_compute. discriminate.
  - reflexivity.
  - vm_compute. discriminate.
  - reflexivity.
  - vm_compute. discriminate.
  - vm_compute. discriminate.
  - reflexivity.
  - reflexivity.
  - reflexivity.
  - vm_compute. reflexivity.
Defined.
